(** * x-tracker: incremental timeline sync and classification

    A shallow embedding of the x-tracker scripts
    (scripts/tweet-utils.ts, scripts/api.ts,
    scripts/fetch-following-tweets.ts, scripts/sync-bookmarks-incremental.ts)
    and the properties the design document states about them.

    Conventions of the embedding.
    - A JavaScript object that is only read is a record; optional
      properties are [option] fields.
    - Truthiness of a string-valued property ([if (x)], [x || y]) is
      "present and not the empty string": see [truthy].
    - A text that is cut by position is a sequence of UTF-16 code units
      ([JsString]); strings that are only compared or copied are [string].
    - An array whose elements are mutated in place is a list used as a
      store; a reference to an element is its index in that list.
    - [Map<string, V>], whose iteration order is insertion order, is an
      association list ([JsMap]); plain lookup tables are [gmap].
    - Thrown exceptions are the [Err] case of [Outcome]. *)

From stdpp Require Import base option list sorting gmap strings.
From Stdlib Require Import ZArith Lia.
From Stdlib Require OrderedTypeEx.

Local Open Scope string_scope.
Local Open Scope list_scope.
Local Open Scope nat_scope.

(** ** JavaScript idioms *)

(** [if (s)] on an optional string. *)
Definition truthy (s : option string) : bool :=
  match s with
  | Some EmptyString => false
  | Some _ => true
  | None => false
  end.

(** [a || b] where [a] is an optional string and [b] a string. *)
Definition js_or (a : option string) (b : string) : string :=
  match a with
  | Some EmptyString => b
  | Some s => s
  | None => b
  end.

(** [a ?? b]. *)
Definition js_nullish (a : option string) (b : string) : string :=
  match a with
  | Some s => s
  | None => b
  end.

(** [a.localeCompare(b)].  The strings compared by the scripts are the
    ISO-8601 UTC timestamps of [created_at]; on these strings (fixed layout,
    ASCII digits and punctuation at fixed offsets) the collation order is
    the code-unit order, which is what [String.compare] computes. *)
Definition localeCompare (a b : string) : comparison := String.compare a b.

(** A string value of the language is a sequence of UTF-16 code units.
    The texts of tweets, which the scripts cut by position, are kept as
    such; identifiers, time stamps and names, which are only compared and
    copied, are kept as [string]. *)
Definition CodeUnit : Type := N.
Definition JsString : Type := list CodeUnit.

(** [if (s)] on an optional text. *)
Definition truthy_text (s : option JsString) : bool :=
  match s with
  | Some (_ :: _) => true
  | _ => false
  end.

(** [a || b] where [a] is an optional text and [b] a text. *)
Definition text_or (a : option JsString) (b : JsString) : JsString :=
  if truthy_text a then default [] a else b.

(** [s.substring(0, n)]: the first [n] code units. *)
Definition js_prefix (n : nat) (s : JsString) : JsString := take n s.

(** The code units of a literal of ASCII characters. *)
Definition js_text (s : string) : JsString :=
  (fun c => Ascii.N_of_ascii c) <$> String.list_ascii_of_string s.

(** ** Data model (tweet-utils.ts) *)

(** The five values of [tweet_type]: "原创", "长文", "线程", "回复", "引用". *)
Inductive TweetType : Type :=
  | Original   (* 原创 *)
  | LongForm   (* 长文 *)
  | Thread     (* 线程 *)
  | Reply      (* 回复 *)
  | Quote.     (* 引用 *)

(** An entry of [referenced_tweets]. *)
Record ReferencedTweet : Type := mkRef {
  ref_type : string;
  ref_id : string
}.

Record NoteTweet : Type := mkNote {
  note_text : option JsString
}.

(** A tweet object as the API returns it ([TWEET_FIELDS]).  The payloads
    that the scripts never inspect ([public_metrics], [entities],
    [attachments]) are kept as opaque serialised values. *)
Record RawTweet : Type := mkRaw {
  raw_id : string;
  raw_text : JsString;
  raw_created_at : option string;
  raw_author_id : option string;
  raw_in_reply_to_user_id : option string;
  raw_public_metrics : option string;
  raw_entities : option string;
  raw_referenced_tweets : option (list ReferencedTweet);
  raw_note_tweet : option NoteTweet;
  raw_conversation_id : option string;
  raw_attachments : option string
}.

(** A user object of [includes.users]. *)
Record IncludedUser : Type := mkIncludedUser {
  inc_user_id : string;
  inc_username : option string;
  inc_name : option string
}.

Record OriginalTweet : Type := mkOriginalTweet {
  ot_id : string;
  ot_text : JsString;
  ot_author_id : string;
  ot_author_username : string
}.

(** [interface EnrichedTweet]. *)
Record EnrichedTweet : Type := mkEnriched {
  id : string;
  text : JsString;
  full_text : JsString;
  created_at : option string;
  author_id : option string;
  in_reply_to_user_id : option string;
  public_metrics : option string;
  entities : option string;
  referenced_tweets : option (list ReferencedTweet);
  note_tweet : option NoteTweet;
  conversation_id : option string;
  attachments : option string;
  tweet_type : TweetType;
  original_tweet : option OriginalTweet;
  thread_position : option nat;
  author_name : option string;
  author_username : option string
}.

(** [includes]: the objects returned next to a page. *)
Record Includes : Type := mkIncludes {
  inc_tweets : option (list RawTweet);
  inc_users : option (list IncludedUser)
}.

(** ** Classifier (tweet-utils.ts) *)

(** [buildIncludesMaps]: a later object with the same id replaces an
    earlier one, as [Map.set] does. *)
Definition buildIncludesMaps (includes : option Includes)
  : gmap string RawTweet * gmap string IncludedUser :=
  let tweetsMap :=
    match includes ≫= inc_tweets with
    | Some ts => foldl (fun m t => <[raw_id t := t]> m) ∅ ts
    | None => ∅
    end in
  let usersMap :=
    match includes ≫= inc_users with
    | Some us => foldl (fun m u => <[inc_user_id u := u]> m) ∅ us
    | None => ∅
    end in
  (tweetsMap, usersMap).

(** [refs.find((r) => r.type === ty)]. *)
Definition find_ref (ty : string) (refs : list ReferencedTweet)
  : option ReferencedTweet :=
  List.find (fun r => String.eqb (ref_type r) ty) refs.

(** The text of a referenced tweet:
    [(p?.note_tweet?.text || p?.text || "").substring(0, 2000)]. *)
Definition excerpt (p : option RawTweet) : JsString :=
  js_prefix 2000
    (text_or ((p ≫= raw_note_tweet) ≫= note_text)
             (text_or (raw_text <$> p) [])).

(** [classifyTweet].  The result is the raw object with [full_text],
    [tweet_type] and [original_tweet] added; the API object has no
    [thread_position], [author_name] or [author_username]. *)
Definition classifyTweet (tweet : RawTweet) (authorId : string)
    (includesTweetsMap : gmap string RawTweet)
    (includesUsersMap : gmap string IncludedUser) : EnrichedTweet :=
  let fullText :=
    text_or (raw_note_tweet tweet ≫= note_text)
            (text_or (Some (raw_text tweet)) []) in
  let refs := default [] (raw_referenced_tweets tweet) in
  let repliedTo := find_ref "replied_to" refs in
  let quoted := find_ref "quoted" refs in
  let '(tweetType, originalTweet) :=
    match repliedTo with
    | Some r =>
        let replyToUserId := raw_in_reply_to_user_id tweet in
        let parentTweet := includesTweetsMap !! ref_id r in
        let isSelfReply :=
          if truthy replyToUserId
          then bool_decide (replyToUserId = Some authorId)
          else bool_decide (parentTweet ≫= raw_author_id = Some authorId) in
        let parentAuthorId :=
          js_or replyToUserId (js_or (parentTweet ≫= raw_author_id) "") in
        let parentAuthor := includesUsersMap !! parentAuthorId in
        (if isSelfReply then Thread else Reply,
         Some {| ot_id := ref_id r;
                 ot_text := excerpt parentTweet;
                 ot_author_id := parentAuthorId;
                 ot_author_username := js_or (parentAuthor ≫= inc_username) "" |})
    | None =>
        match quoted with
        | Some q =>
            let quotedTweet := includesTweetsMap !! ref_id q in
            let quotedAuthorId := js_or (quotedTweet ≫= raw_author_id) "" in
            let quotedAuthor := includesUsersMap !! quotedAuthorId in
            (Quote,
             Some {| ot_id := ref_id q;
                     ot_text := excerpt quotedTweet;
                     ot_author_id := quotedAuthorId;
                     ot_author_username := js_or (quotedAuthor ≫= inc_username) "" |})
        | None =>
            match raw_note_tweet tweet with
            | Some _ => (LongForm, None)
            | None => (Original, None)
            end
        end
    end in
  {| id := raw_id tweet;
     text := raw_text tweet;
     full_text := fullText;
     created_at := raw_created_at tweet;
     author_id := raw_author_id tweet;
     in_reply_to_user_id := raw_in_reply_to_user_id tweet;
     public_metrics := raw_public_metrics tweet;
     entities := raw_entities tweet;
     referenced_tweets := raw_referenced_tweets tweet;
     note_tweet := raw_note_tweet tweet;
     conversation_id := raw_conversation_id tweet;
     attachments := raw_attachments tweet;
     tweet_type := tweetType;
     original_tweet := originalTweet;
     thread_position := None;
     author_name := None;
     author_username := None |}.

(** ** Insertion-ordered maps ([Map<string, V>]) *)

Definition JsMap (V : Type) : Type := list (string * V).

(** [m.set(k, v)]: a key already present keeps its place and takes the new
    value; a new key goes to the end. *)
Fixpoint map_set {V : Type} (k : string) (v : V) (m : JsMap V) : JsMap V :=
  match m with
  | [] => [(k, v)]
  | (k', v') :: rest =>
      if decide (k' = k) then (k', v) :: rest
      else (k', v') :: map_set k v rest
  end.

(** [m.get(k)]. *)
Fixpoint map_get {V : Type} (k : string) (m : JsMap V) : option V :=
  match m with
  | [] => None
  | (k', v') :: rest => if decide (k' = k) then Some v' else map_get k rest
  end.

(** [m.has(k)]. *)
Definition map_has {V : Type} (k : string) (m : JsMap V) : bool :=
  match map_get k m with
  | Some _ => true
  | None => false
  end.

(** [Array.from(m.values())]. *)
Definition map_values {V : Type} (m : JsMap V) : list V := m.*2.

(** ** Sorting ([Array.prototype.sort] with a comparator)

    The sort of the language is stable.  With a comparator that is a total
    preorder every stable sort returns the same array, so the embedding uses
    the simplest one: insertion from the right, an element going in front of
    the first element that does not precede it strictly.  Its result is a
    permutation of the array, in order, and stable ([js_sort_perm],
    [js_sort_sorted], [js_sort_stable]). *)

Fixpoint sort_insert {A : Type} (cmp : A → A → comparison) (x : A) (l : list A)
  : list A :=
  match l with
  | [] => [x]
  | y :: l' =>
      match cmp x y with
      | Gt => y :: sort_insert cmp x l'
      | _ => x :: y :: l'
      end
  end.

Definition js_sort {A : Type} (cmp : A → A → comparison) (l : list A) : list A :=
  foldr (sort_insert cmp) [] l.

(** [a.created_at ?? ""]. *)
Definition created (t : EnrichedTweet) : string := js_nullish (created_at t) "".

(** [(a, b) => (b.created_at ?? "").localeCompare(a.created_at ?? "")]. *)
Definition newest_first (a b : EnrichedTweet) : comparison :=
  localeCompare (created b) (created a).

(** ** Thread positions (tweet-utils.ts, [assignThreadPositions])

    The function works in place on the objects of the array it is given.
    The array is the store; the arrays held by [threads] contain references
    into it, that is indices. *)

Definition set_thread_position (p : nat) (t : EnrichedTweet) : EnrichedTweet :=
  {| id := id t;
     text := text t;
     full_text := full_text t;
     created_at := created_at t;
     author_id := author_id t;
     in_reply_to_user_id := in_reply_to_user_id t;
     public_metrics := public_metrics t;
     entities := entities t;
     referenced_tweets := referenced_tweets t;
     note_tweet := note_tweet t;
     conversation_id := conversation_id t;
     attachments := attachments t;
     tweet_type := tweet_type t;
     original_tweet := original_tweet t;
     thread_position := Some p;
     author_name := author_name t;
     author_username := author_username t |}.

(** The key under which a tweet is grouped: its [conversation_id] when the
    guard [if (!t.conversation_id) continue] lets it through. *)
Definition conv_key (t : EnrichedTweet) : option string :=
  if truthy (conversation_id t) then conversation_id t else None.

(** One turn of the first loop, for the tweet at index [i]. *)
Definition threads_add (threads : JsMap (list nat)) (i : nat) (t : EnrichedTweet)
  : JsMap (list nat) :=
  match conv_key t with
  | None => threads
  | Some cid =>
      let threads1 :=
        if map_has cid threads then threads else map_set cid [] threads in
      map_set cid (default [] (map_get cid threads1) ++ [i]) threads1
  end.

(** The first loop, over the tweets from index [i] on. *)
Fixpoint group_threads (i : nat) (tweets : list EnrichedTweet)
    (threads : JsMap (list nat)) : JsMap (list nat) :=
  match tweets with
  | [] => threads
  | t :: rest => group_threads (S i) rest (threads_add threads i t)
  end.

(** [created_at ?? ""] of the object a reference points to. *)
Definition created_of (store : list EnrichedTweet) (r : nat) : string :=
  from_option created "" (store !! r).

(** [(a, b) => (a.created_at ?? "").localeCompare(b.created_at ?? "")]. *)
Definition chronological (store : list EnrichedTweet) (a b : nat) : comparison :=
  localeCompare (created_of store a) (created_of store b).

(** [for (let i = k; i < threadTweets.length; i++)
       threadTweets[i].thread_position = i + 1]. *)
Fixpoint number_from (k : nat) (threadTweets : list nat)
    (store : list EnrichedTweet) : list EnrichedTweet :=
  match threadTweets with
  | [] => store
  | r :: rest =>
      number_from (S k) rest (alter (set_thread_position (S k)) r store)
  end.

(** The body of the second loop for one group. *)
Definition number_thread (store : list EnrichedTweet) (threadTweets : list nat)
  : list EnrichedTweet :=
  if length threadTweets <=? 1 then store
  else number_from 0 (js_sort (chronological store) threadTweets) store.

Definition assignThreadPositions (tweets : list EnrichedTweet)
  : list EnrichedTweet :=
  foldl number_thread tweets (map_values (group_threads 0 tweets [])).

(** ** Archive merge (fetch-following-tweets.ts lines 121-131,
       sync-bookmarks-incremental.ts lines 136-143) *)

(** [for (const t of tweets) tweetMap.set(t.id, t)]. *)
Definition set_all (tweets : list EnrichedTweet) (tweetMap : JsMap EnrichedTweet)
  : JsMap EnrichedTweet :=
  foldl (fun m t => map_set (id t) t m) tweetMap tweets.

(** The merged array before thread positions are assigned. *)
Definition merge_by_id (existing fetched : list EnrichedTweet)
  : list EnrichedTweet :=
  js_sort newest_first (map_values (set_all fetched (set_all existing []))).

(** The merge of both orchestrators: deduplicate by id, sort newest first,
    assign thread positions on the merged set. *)
Definition mergeTweets (existing fetched : list EnrichedTweet)
  : list EnrichedTweet :=
  assignThreadPositions (merge_by_id existing fetched).

(** ** Token guardian and transport (api.ts)

    The outside world of the transport: the wall clock, the configuration
    file, and what the token endpoint will answer to the next requests.
    What the transport does to the world is logged: the requests sent to
    the API, the refresh tokens presented to the token endpoint, the
    sleeps.  The answers of the API to the successive requests of one call
    are passed next to the world, oldest first.  The clock moves in
    [Bun.sleep] only: the time a request takes is not part of the
    embedding, nor is the 30 s abort signal. *)

(** [interface Config] (config.ts); the [notion] block, which the transport
    never reads, is kept as an opaque value. *)
Record Config : Type := mkConfig {
  client_id : string;
  client_secret : option string;
  access_token : string;
  refresh_token : string;
  token_expires_at : Z;
  user_id : string;
  username : string;
  data_dir : string;
  redirect_uri : option string;
  notion : option string
}.

(** The JSON body of a successful token exchange. *)
Record TokenGrant : Type := mkGrant {
  grant_access_token : string;
  grant_refresh_token : string;
  grant_expires_in : Z
}.

(** An answer of the token endpoint: [resp.ok] with its JSON body, or a
    status that is not ok with its text. *)
Inductive TokenReply : Type :=
  | TokenGranted (g : TokenGrant)
  | TokenRefused (status : Z) (body : string).

(** An answer of the API: status, the [x-rate-limit-reset] header when it
    is there (epoch seconds), and the body. *)
Record HttpResponse : Type := mkResponse {
  status : Z;
  rate_limit_reset : option Z;
  body : string
}.

(** [resp.ok]. *)
Definition ok (resp : HttpResponse) : bool :=
  ((200 <=? status resp) && (status resp <=? 299))%Z.

Inductive Method : Type := GET | POST.

Record Request : Type := mkRequest {
  req_method : Method;
  req_path : string;
  req_params : list (string * string);
  req_body : option string;
  req_bearer : string
}.

Record World : Type := mkWorld {
  clock : Z;                          (* Date.now(), milliseconds *)
  config_file : Config;               (* config.json *)
  token_replies : list TokenReply;    (* answers of the token endpoint to come *)
  token_log : list string;            (* refresh tokens presented so far *)
  api_log : list Request;             (* requests sent to the API so far *)
  sleeps : list Z                     (* Bun.sleep calls so far, milliseconds *)
}.

(** What a call throws. *)
Inductive Error : Type :=
  | TokenRefreshFailed (status : Z) (body : string)  (* "Token refresh failed (s): b" *)
  | ApiError (status : Z) (body : string)            (* "API error s: b" *)
  | FetchFailed.                                     (* fetch itself rejects *)

Inductive Outcome (A : Type) : Type :=
  | Ok (a : A)
  | Err (e : Error).
Arguments Ok {A} a.
Arguments Err {A} e.

(** [saveConfig(config)]. *)
Definition saveConfig (config : Config) (w : World) : World :=
  {| clock := clock w; config_file := config;
     token_replies := token_replies w; token_log := token_log w;
     api_log := api_log w; sleeps := sleeps w |}.

(** The POST to the token endpoint: the refresh token goes out, the next
    answer comes in. *)
Definition post_token (presented : string) (w : World) : option TokenReply * World :=
  (head (token_replies w),
   {| clock := clock w; config_file := config_file w;
      token_replies := tail (token_replies w);
      token_log := token_log w ++ [presented];
      api_log := api_log w; sleeps := sleeps w |}).

(** A request to the API leaves. *)
Definition send (r : Request) (w : World) : World :=
  {| clock := clock w; config_file := config_file w;
     token_replies := token_replies w; token_log := token_log w;
     api_log := api_log w ++ [r]; sleeps := sleeps w |}.

(** [await Bun.sleep(ms)]. *)
Definition sleep (ms : Z) (w : World) : World :=
  {| clock := (clock w + ms)%Z; config_file := config_file w;
     token_replies := token_replies w; token_log := token_log w;
     api_log := api_log w; sleeps := sleeps w ++ [ms] |}.

(** [Math.floor(Date.now() / 1000)]. *)
Definition now_seconds (w : World) : Z := (clock w / 1000)%Z.

Definition refreshToken (config : Config) (w : World) : Outcome Config * World :=
  let '(reply, w1) := post_token (refresh_token config) w in
  match reply with
  | None => (Err FetchFailed, w1)
  | Some (TokenRefused st text) => (Err (TokenRefreshFailed st text), w1)
  | Some (TokenGranted data) =>
      let config' :=
        {| client_id := client_id config;
           client_secret := client_secret config;
           access_token := grant_access_token data;
           refresh_token := grant_refresh_token data;
           token_expires_at := (now_seconds w1 + grant_expires_in data)%Z;
           user_id := user_id config;
           username := username config;
           data_dir := data_dir config;
           redirect_uri := redirect_uri config;
           notion := notion config |} in
      (Ok config', saveConfig config' w1)
  end.

(** [config.token_expires_at && now >= config.token_expires_at - 300]. *)
Definition refresh_due (config : Config) (w : World) : bool :=
  (negb (token_expires_at config =? 0)
   && (token_expires_at config - 300 <=? now_seconds w))%Z.

Definition ensureValidToken (config : Config) (w : World) : Outcome Config * World :=
  if refresh_due config w then refreshToken config w else (Ok config, w).

(** [Number(resp.headers.get("x-rate-limit-reset")) * 1000]: a header that
    is not there reads as 0.  (A header that is not a number is outside the
    embedding.) *)
Definition reset_at_ms (resp : HttpResponse) : Z :=
  (default 0 (rate_limit_reset resp) * 1000)%Z.

(** [Math.min(Math.max(resetAt - Date.now(), 1000), 900_000)]. *)
Definition rate_limit_wait (resp : HttpResponse) (w : World) : Z :=
  Z.min (Z.max (reset_at_ms resp - clock w) 1000) 900000.

(** The result of a response that is not retried. *)
Definition settle (resp : HttpResponse) : Outcome string :=
  if ok resp then Ok (body resp) else Err (ApiError (status resp) (body resp)).

(** [apiGet].  The recursive call on 429 asks for the next answer of the
    API, so the recursion is on the answers still to come. *)
Fixpoint apiGet (path : string) (params : list (string * string))
    (replies : list HttpResponse) (w : World)
  : Outcome string * list HttpResponse * World :=
  match ensureValidToken (config_file w) w with
  | (Err e, w1) => (Err e, replies, w1)
  | (Ok config, w1) =>
      let request c := mkRequest GET path params None (access_token c) in
      match replies with
      | [] => (Err FetchFailed, [], send (request config) w1)
      | resp :: rest =>
          let w2 := send (request config) w1 in
          if (status resp =? 429)%Z then
            let waitMs := rate_limit_wait resp w2 in
            apiGet path params rest (sleep waitMs w2)
          else if (status resp =? 401)%Z then
            match refreshToken config w2 with
            | (Err e, w3) => (Err e, rest, w3)
            | (Ok config', w3) =>
                let w4 := send (request config') w3 in
                match rest with
                | [] => (Err FetchFailed, [], w4)
                | retryResp :: rest' => (settle retryResp, rest', w4)
                end
            end
          else (settle resp, rest, w2)
      end
  end.

(** [apiPost]: the same without the 429 branch. *)
Definition apiPost (path : string) (payload : string)
    (replies : list HttpResponse) (w : World)
  : Outcome string * list HttpResponse * World :=
  match ensureValidToken (config_file w) w with
  | (Err e, w1) => (Err e, replies, w1)
  | (Ok config, w1) =>
      let request c := mkRequest POST path [] (Some payload) (access_token c) in
      match replies with
      | [] => (Err FetchFailed, [], send (request config) w1)
      | resp :: rest =>
          let w2 := send (request config) w1 in
          if (status resp =? 401)%Z then
            match refreshToken config w2 with
            | (Err e, w3) => (Err e, rest, w3)
            | (Ok config', w3) =>
                let w4 := send (request config') w3 in
                match rest with
                | [] => (Err FetchFailed, [], w4)
                | retryResp :: rest' => (settle retryResp, rest', w4)
                end
            end
          else (settle resp, rest, w2)
      end
  end.

(** ** Followed accounts (fetch-following-tweets.ts)

    The loop sees the transport through the outcome of each [apiGet] call:
    [api path params] is what the call made with that path and those
    parameters returns, or the error it throws. *)

Definition TWEET_FIELDS : string :=
  "id,text,created_at,public_metrics,entities,referenced_tweets,note_tweet,conversation_id,author_id,in_reply_to_user_id".
Definition TWEET_EXPANSIONS : string :=
  "referenced_tweets.id,referenced_tweets.id.author_id,author_id,attachments.media_keys".
Definition USER_FIELDS : string := "id,username,name".
Definition MEDIA_FIELDS : string := "url,preview_image_url,type".

(** The parsed body of a timeline or bookmarks answer: [json.data],
    [json.includes], [json.meta?.next_token]. *)
Record TimelineJson : Type := mkJson {
  json_data : option (list RawTweet);
  json_includes : option Includes;
  json_next_token : option string
}.

(** An entry of [filtered.users]. *)
Record FollowedUser : Type := mkUser {
  fu_id : string;
  fu_username : string;
  fu_name : string;
  fu_followers_count : option Z
}.

(** [interface UserTweets]. *)
Record UserTweets : Type := mkUserTweets {
  ut_user_id : string;
  ut_username : string;
  ut_name : string;
  ut_followers_count : Z;
  ut_tweets : list EnrichedTweet;
  ut_latest_tweet_id : option string
}.

(** The variables of [fetchFollowingTweets] that the loop updates;
    [error_log] is what [console.error] has printed: account and error. *)
Record SyncState : Type := mkSync {
  sinceIds : gmap string string;
  existingData : gmap string UserTweets;
  newTweets : nat;
  newUsers : nat;
  errors : nat;
  error_log : list (string * Error)
}.

Definition timeline_path (u : FollowedUser) : string :=
  "/users/" +:+ fu_id u +:+ "/tweets".

(** [params], with [since_id] for an account that has a cursor;
    [maxResults] is [String(Math.min(maxPerUser, 100))]. *)
Definition timeline_params (maxResults : string) (sinceId : option string)
  : list (string * string) :=
  [ ("max_results", maxResults);
    ("tweet.fields", TWEET_FIELDS);
    ("expansions", TWEET_EXPANSIONS);
    ("user.fields", USER_FIELDS);
    ("media.fields", MEDIA_FIELDS);
    ("exclude", "replies") ]
  ++ (if truthy sinceId then [("since_id", js_or sinceId "")] else []).

(** [json.data || []] classified with the includes of the same answer. *)
Definition classify_page (authorId : string) (json : TimelineJson)
  : list EnrichedTweet :=
  let fetchedTweets := default [] (json_data json) in
  let '(tweetsMap, usersMap) := buildIncludesMaps (json_includes json) in
  (fun t => classifyTweet t authorId tweetsMap usersMap) <$> fetchedTweets.

(** Lines 133-137: [latestId]. *)
Definition latest_id (sinceId : option string) (mergedTweets : list EnrichedTweet)
  : option string :=
  match mergedTweets with
  | t :: _ => Some (id t)
  | [] => if truthy sinceId then sinceId else None
  end.

(** One turn of the loop over [users]: the [try] block when the call
    returns, the [catch] block when it throws.  The list kept for the
    Notion sync that follows the loop is not part of the state. *)
Definition sync_user
    (api : string → list (string * string) → Outcome TimelineJson)
    (maxResults : string) (s : SyncState) (u : FollowedUser) : SyncState :=
  let isNewUser := negb (truthy (sinceIds s !! fu_id u)) in
  let newUsers' := if isNewUser then S (newUsers s) else newUsers s in
  let sinceId := sinceIds s !! fu_id u in
  match api (timeline_path u) (timeline_params maxResults sinceId) with
  | Ok json =>
      let classifiedFetched := classify_page (fu_id u) json in
      let existingTweets := from_option ut_tweets [] (existingData s !! fu_id u) in
      let mergedTweets := mergeTweets existingTweets classifiedFetched in
      let latestId := latest_id sinceId mergedTweets in
      {| sinceIds :=
           if truthy latestId
           then <[fu_id u := js_or latestId ""]> (sinceIds s)
           else sinceIds s;
         existingData :=
           <[fu_id u :=
               {| ut_user_id := fu_id u;
                  ut_username := fu_username u;
                  ut_name := fu_name u;
                  ut_followers_count := default 0%Z (fu_followers_count u);
                  ut_tweets := mergedTweets;
                  ut_latest_tweet_id := latestId |}]> (existingData s);
         newTweets := newTweets s + length (default [] (json_data json));
         newUsers := newUsers';
         errors := errors s;
         error_log := error_log s |}
  | Err e =>
      {| sinceIds := sinceIds s;
         existingData := existingData s;
         newTweets := newTweets s;
         newUsers := newUsers';
         errors := S (errors s);
         error_log := error_log s ++ [(fu_username u, e)] |}
  end.

(** The loop of [fetchFollowingTweets]; the state it ends in is what is
    written to the daily file and to since_ids.json. *)
Definition fetchFollowingTweets
    (api : string → list (string * string) → Outcome TimelineJson)
    (maxResults : string) (users : list FollowedUser) (s : SyncState) : SyncState :=
  foldl (sync_user api maxResults) s users.

(** What the call for an account returns when the loop starts from [s]. *)
Definition fetch_of
    (api : string → list (string * string) → Outcome TimelineJson)
    (maxResults : string) (s : SyncState) (u : FollowedUser) : Outcome TimelineJson :=
  api (timeline_path u) (timeline_params maxResults (sinceIds s !! fu_id u)).

(** The numeric value of a tweet id, [BigInt(t.id)] in fetch-my-tweets.ts:
    ids are decimal strings. *)
Definition id_value (s : string) : N :=
  foldl (fun acc c => (acc * 10 + (Ascii.N_of_ascii c - 48))%N) 0%N
        (String.list_ascii_of_string s).

(** ** Bookmarks (sync-bookmarks-incremental.ts)

    The pages are the outcomes of the successive [apiGet] calls of the
    loop, oldest first. *)

(** The variables of the page loop. *)
Record BookmarkLoop : Type := mkLoop {
  newBookmarks : list RawTweet;
  allIncludesTweets : list RawTweet;
  allIncludesUsers : list IncludedUser;
  page : nat;
  hitKnown : bool
}.

(** [for (const t of tweets)]: push until the known id is met. *)
Fixpoint scan_page (last_id : option string) (tweets : list RawTweet)
    (collected : list RawTweet) : list RawTweet * bool :=
  match tweets with
  | [] => (collected, false)
  | t :: rest =>
      if truthy last_id && bool_decide (Some (raw_id t) = last_id)
      then (collected, true)
      else scan_page last_id rest (collected ++ [t])
  end.

(** The [do … while (paginationToken)] loop.  Each turn consumes one
    outcome of [apiGet]; an error thrown by [apiGet] leaves the function. *)
Fixpoint fetch_bookmark_pages (last_id : option string)
    (answers : list (Outcome TimelineJson)) (st : BookmarkLoop)
  : Outcome BookmarkLoop * list (Outcome TimelineJson) :=
  match answers with
  | [] => (Err FetchFailed, [])
  | Err e :: later => (Err e, later)
  | Ok json :: later =>
      let tweets := default [] (json_data json) in
      let includesTweets :=
        allIncludesTweets st ++ default [] (json_includes json ≫= inc_tweets) in
      let includesUsers :=
        allIncludesUsers st ++ default [] (json_includes json ≫= inc_users) in
      match tweets with
      | [] =>
          (Ok (mkLoop (newBookmarks st) includesTweets includesUsers
                      (S (page st)) (hitKnown st)), later)
      | _ :: _ =>
          let '(collected, hit) := scan_page last_id tweets (newBookmarks st) in
          let st' := mkLoop collected includesTweets includesUsers (S (page st)) hit in
          if hit then (Ok st', later)
          else if truthy (json_next_token json)
               then fetch_bookmark_pages last_id later st'
               else (Ok st', later)
      end
  end.

(** Whether [referenced_tweets] holds a reference of the given type. *)
Definition has_ref (ty : string) (tweet : RawTweet) : bool :=
  existsb (fun r => String.eqb (ref_type r) ty)
          (default [] (raw_referenced_tweets tweet)).

(** The members of a conversation in a working set: the references to the
    tweets grouped under [cid], in array order. *)
Fixpoint members_from (i : nat) (tweets : list EnrichedTweet) (cid : string)
  : list nat :=
  match tweets with
  | [] => []
  | t :: rest =>
      if decide (conv_key t = Some cid) then i :: members_from (S i) rest cid
      else members_from (S i) rest cid
  end.

Definition members (tweets : list EnrichedTweet) (cid : string) : list nat :=
  members_from 0 tweets cid.

(** The thread position of the object a reference points to. *)
Definition position_of (store : list EnrichedTweet) (r : nat) : option nat :=
  store !! r ≫= thread_position.

(** ** Sample data *)

Definition sample_both : RawTweet :=
  mkRaw "3" (js_text "hello") (Some "2026-01-02T00:00:00.000Z") (Some "7") (Some "8")
        None None
        (Some [mkRef "quoted" "1"; mkRef "replied_to" "2"])
        None (Some "2") None.

(** ** Notions used to state the properties *)

(** [x] is not placed after [y] by the comparator. *)
Definition not_after {A : Type} (cmp : A → A → comparison) (x y : A) : Prop :=
  cmp x y ≠ Gt.

(** The position of a reference in an array of references. *)
Fixpoint index_of (x : nat) (l : list nat) : option nat :=
  match l with
  | [] => None
  | y :: l' => if decide (y = x) then Some 0 else S <$> index_of x l'
  end.

(** A tweet with its thread position forgotten: what the pass never changes. *)
Definition forget_position (t : EnrichedTweet) : EnrichedTweet :=
  {| id := id t;
     text := text t;
     full_text := full_text t;
     created_at := created_at t;
     author_id := author_id t;
     in_reply_to_user_id := in_reply_to_user_id t;
     public_metrics := public_metrics t;
     entities := entities t;
     referenced_tweets := referenced_tweets t;
     note_tweet := note_tweet t;
     conversation_id := conversation_id t;
     attachments := attachments t;
     tweet_type := tweet_type t;
     original_tweet := original_tweet t;
     thread_position := None;
     author_name := author_name t;
     author_username := author_username t |}.

(** Two tweets that differ at most in [thread_position]. *)
Definition same_frame (t t' : EnrichedTweet) : Prop :=
  forget_position t = forget_position t'.

(** What [assignThreadPositions] makes of the tweet [t] at index [i]. *)
Definition assigned (tweets : list EnrichedTweet) (i : nat) (t : EnrichedTweet)
  : EnrichedTweet :=
  match conv_key t with
  | None => t
  | Some cid =>
      let g := members tweets cid in
      if length g <=? 1 then t
      else from_option (fun j => set_thread_position (S j) t) t
             (index_of i (js_sort (chronological tweets) g))
  end.


(** A tweet of which only the fields read by the merge are set. *)
Definition sample_tweet (i c : string) (conv : option string) (p : option nat)
  : EnrichedTweet :=
  {| id := i; text := []; full_text := []; created_at := Some c;
     author_id := None; in_reply_to_user_id := None; public_metrics := None;
     entities := None; referenced_tweets := None; note_tweet := None;
     conversation_id := conv; attachments := None; tweet_type := Original;
     original_tweet := None; thread_position := p;
     author_name := None; author_username := None |}.

(** A conversation of three tweets given newest first, a tweet alone in its
    conversation that carries a position from an earlier run, and a tweet
    without conversation. *)
Definition sample_archive : list EnrichedTweet :=
  [ sample_tweet "105" "2026-01-05T10:00:00.000Z" (Some "101") None;
    sample_tweet "104" "2026-01-04T10:00:00.000Z" (Some "90") (Some 2);
    sample_tweet "103" "2026-01-03T10:00:00.000Z" (Some "101") None;
    sample_tweet "102" "2026-01-02T10:00:00.000Z" None (Some 5);
    sample_tweet "101" "2026-01-01T10:00:00.000Z" (Some "101") None ].


(** The merge seen on the array of values: [tweetMap] always holds a tweet
    under its own id, so the map is determined by [Array.from(values())]. *)
Definition keyed (t : EnrichedTweet) : string * EnrichedTweet := (id t, t).

(** The value [v] of the map after [set(b.id, b)]. *)
Definition overwrite (b v : EnrichedTweet) : EnrichedTweet :=
  if decide (id v = id b) then b else v.

(** The values of the map after [set(b.id, b)]. *)
Definition put (l : list EnrichedTweet) (b : EnrichedTweet) : list EnrichedTweet :=
  if decide (id b ∈ id <$> l) then overwrite b <$> l else l ++ [b].

(** The value held for the id of [v] once every tweet of [batch] has been set. *)
Definition resolve (batch : list EnrichedTweet) (v : EnrichedTweet) : EnrichedTweet :=
  foldl (fun cur b => overwrite b cur) v batch.


(** A configuration whose token expires at second 2000, one that was never
    logged in ([token_expires_at] is 0, as [auth.ts init] writes it), and
    worlds around them. *)
Definition sample_config : Config :=
  mkConfig "client" None "access-1" "refresh-1" 2000 "42" "me" "./data" None None.

Definition sample_config_unset : Config :=
  mkConfig "client" None "" "" 0 "" "" "./data" None None.

Definition sample_grant : TokenGrant := mkGrant "access-2" "refresh-2" 7200.

(** Second 1000: the token is good for a while. *)
Definition sample_world : World :=
  mkWorld 1000000 sample_config [TokenGranted sample_grant] [] [] [].

(** Second 1800: less than five minutes to expiry. *)
Definition sample_world_due : World :=
  mkWorld 1800000 sample_config [TokenGranted sample_grant] [] [] [].

Definition sample_world_unset : World :=
  mkWorld 1000000 sample_config_unset [TokenGranted sample_grant] [] [] [].

Definition sample_429 : HttpResponse := mkResponse 429 (Some 1060%Z) "".
Definition sample_401 : HttpResponse := mkResponse 401 None "Unauthorized".
Definition sample_200 : HttpResponse := mkResponse 200 None "{}".


(** The line [console.error] prints for an account whose call threw. *)
Definition error_line
    (api : string → list (string * string) → Outcome TimelineJson)
    (maxResults : string) (s : SyncState) (u : FollowedUser)
  : option (string * Error) :=
  match fetch_of api maxResults s u with
  | Err e => Some (fu_username u, e)
  | Ok _ => None
  end.

(** Three bookmark pages, newest first; the known bookmark "205" is the
    third tweet of the second page. *)
Definition sample_raw (i : string) : RawTweet :=
  mkRaw i [] (Some "2026-01-01T00:00:00.000Z") (Some "7") None None None None
        None None None.

Definition sample_page_1 : TimelineJson :=
  mkJson (Some [sample_raw "209"; sample_raw "208"]) None (Some "next-1").
Definition sample_page_2 : TimelineJson :=
  mkJson (Some [sample_raw "207"; sample_raw "206"; sample_raw "205";
                sample_raw "204"]) None (Some "next-2").
Definition sample_page_3 : TimelineJson :=
  mkJson (Some [sample_raw "203"]) None None.

Definition empty_loop : BookmarkLoop := mkLoop [] [] [] 0 false.


(** Account "42": one tweet in today's file, cursor on it; the API then
    returns a tweet posted in the same second. *)
Definition sample_user : FollowedUser := mkUser "42" "alice" "Alice" (Some 50000%Z).
Definition sample_user_b : FollowedUser := mkUser "43" "bob" "Bob" None.
Definition sample_user_c : FollowedUser := mkUser "44" "carol" "Carol" None.

Definition tie_existing : EnrichedTweet :=
  sample_tweet "100" "2026-01-05T10:00:00.000Z" None None.

Definition tie_fetched : RawTweet :=
  mkRaw "101" (js_text "later, same second") (Some "2026-01-05T10:00:00.000Z") (Some "42")
        None None None None None None None.

Definition tie_state : SyncState :=
  mkSync {["42" := "100"]}
         {["42" := mkUserTweets "42" "alice" "Alice" 50000 [tie_existing] (Some "100")]}
         0 0 0 [].

(** The transport of the samples: account "43" is gone (404), the others
    have one new tweet. *)
Definition sample_api (path : string) (params : list (string * string))
  : Outcome TimelineJson :=
  if String.eqb path "/users/43/tweets" then Err (ApiError 404 "Not Found")
  else if String.eqb path "/users/42/tweets"
       then Ok (mkJson (Some [tie_fetched]) None None)
       else Ok (mkJson (Some [sample_raw "300"]) None None).


(** A thread posted by "7": the tweet answers the author's own tweet "2". *)
Definition sample_self_reply : RawTweet :=
  mkRaw "3" (js_text "second part") (Some "2026-01-02T00:00:00.000Z") (Some "7") (Some "7")
        None None (Some [mkRef "replied_to" "2"]) None (Some "2") None.

(** Includes in which the tweet "2" comes twice. *)
Definition sample_includes : Includes :=
  mkIncludes (Some [sample_raw "2"; sample_raw "5"; sample_self_reply;
                    mkRaw "2" (js_text "edited") None (Some "7") None None None None None None None])
             (Some [mkIncludedUser "7" (Some "alice") (Some "Alice")]).

(** ** All pages of an endpoint (api.ts, [fetchAllPages])

    The items of a page are of any type; the objects under [includes] are
    kept as opaque values, key by key in the order of [Object.entries].
    The answers of the successive [apiGet] calls are given oldest first. *)

Record Page (A : Type) : Type := mkPage {
  pg_data : option (list A);
  pg_includes : option (list (string * list string));
  pg_next_token : option string
}.
Arguments mkPage {A} _ _ _.
Arguments pg_data {A} _.
Arguments pg_includes {A} _.
Arguments pg_next_token {A} _.

(** [allData], [allIncludes], and the [pagination_token] each call was made
    with ([None]: the parameter was not set). *)
Record Pages (A : Type) : Type := mkPages {
  all_data : list A;
  all_includes : JsMap (list string);
  requested : list (option string)
}.
Arguments mkPages {A} _ _ _.
Arguments all_data {A} _.
Arguments all_includes {A} _.
Arguments requested {A} _.

(** [if (!allIncludes[key]) allIncludes[key] = [];
     allIncludes[key].push(...items)] for every entry. *)
Definition merge_includes (allIncludes : JsMap (list string))
    (entries : list (string * list string)) : JsMap (list string) :=
  foldl (fun acc entry =>
           map_set entry.1 (default [] (map_get entry.1 acc) ++ entry.2) acc)
        allIncludes entries.

(** The [do … while (paginationToken)] loop of [fetchAllPages]. *)
Fixpoint fetch_pages {A : Type} (answers : list (Outcome (Page A)))
    (paginationToken : option string) (acc : Pages A)
  : Outcome (Pages A) * list (Outcome (Page A)) :=
  match answers with
  | [] => (Err FetchFailed, [])
  | Err e :: later => (Err e, later)
  | Ok json :: later =>
      let acc' :=
        {| all_data := all_data acc ++ default [] (pg_data json);
           all_includes :=
             match pg_includes json with
             | Some entries => merge_includes (all_includes acc) entries
             | None => all_includes acc
             end;
           requested :=
             requested acc
             ++ [if truthy paginationToken then paginationToken else None] |} in
      if truthy (pg_next_token json)
      then fetch_pages later (pg_next_token json) acc'
      else (Ok acc', later)
  end.

Definition fetchAllPages {A : Type} (answers : list (Outcome (Page A)))
  : Outcome (Pages A) * list (Outcome (Page A)) :=
  fetch_pages answers None (mkPages [] [] []).

(** The items a page carries under one key of [includes]. *)
Definition included_under {A : Type} (key : string) (json : Page A) : list string :=
  mjoin ((fun entry : string * list string =>
            if decide (entry.1 = key) then entry.2 else [])
         <$> default [] (pg_includes json)).

(** ** The cursor of the own timeline (fetch-my-tweets.ts, [loadSinceId])

    [BigInt] is the conversion of the language: [None] where it throws.
    The argument is the array of ids of [data.tweets || []], or [None] when
    all.json is not there or cannot be parsed. *)

(** [BigInt(t.id) > BigInt(max) ? t.id : max]; an exception leaves the
    reduction. *)
Definition larger_id (BigInt : string → option Z) (max : option string) (t : string)
  : option string :=
  match max with
  | None => None
  | Some m =>
      match BigInt t, BigInt m with
      | Some a, Some b => Some (if (b <? a)%Z then t else m)
      | _, _ => None
      end
  end.

Definition loadSinceId (BigInt : string → option Z) (all_json : option (list string))
  : option string :=
  match all_json with
  | None => None
  | Some [] => None
  | Some (first :: rest) => foldl (larger_id BigInt) (Some first) (first :: rest)
  end.

(** A conversion for the samples: decimal digits. *)
Definition sample_BigInt (s : string) : option Z := Some (Z.of_N (id_value s)).

Definition sample_following_page (ids : list string) (next : option string)
  : Page string :=
  mkPage (Some ids) (Some [("users", ids)]) next.

(** Second 1000, a token good until second 9000: three waits of the longest
    kind end before a refresh falls due. *)
Definition sample_world_long : World :=
  mkWorld 1000000
    (mkConfig "client" None "access-1" "refresh-1" 9000 "42" "me" "./data" None None)
    [TokenGranted sample_grant] [] [] [].

(** ** The incremental bookmark sync as a whole
       (sync-bookmarks-incremental.ts, [syncBookmarksIncremental]) *)

(** [classified.author_name = author.name; classified.author_username = …]. *)
Definition set_author (author : IncludedUser) (t : EnrichedTweet) : EnrichedTweet :=
  {| id := id t;
     text := text t;
     full_text := full_text t;
     created_at := created_at t;
     author_id := author_id t;
     in_reply_to_user_id := in_reply_to_user_id t;
     public_metrics := public_metrics t;
     entities := entities t;
     referenced_tweets := referenced_tweets t;
     note_tweet := note_tweet t;
     conversation_id := conversation_id t;
     attachments := attachments t;
     tweet_type := tweet_type t;
     original_tweet := original_tweet t;
     thread_position := thread_position t;
     author_name := inc_name author;
     author_username := inc_username author |}.

(** The body of [newBookmarks.map((raw) => …)]. *)
Definition classify_bookmark
    (tweetsMap : gmap string RawTweet) (usersMap : gmap string IncludedUser)
    (raw : RawTweet) : EnrichedTweet :=
  let authorId := js_or (raw_author_id raw) "" in
  let classified := classifyTweet raw authorId tweetsMap usersMap in
  match usersMap !! authorId with
  | Some author => set_author author classified
  | None => classified
  end.

(** latest.json as it is read: [prev.bookmarks || prev.tweets || []]. *)
Record LatestFile : Type := mkLatest {
  latest_bookmarks : option (list EnrichedTweet);
  latest_tweets : option (list EnrichedTweet)
}.

(** The files of the bookmarks directory that the sync reads and writes:
    [last_id] of state.json ([None] for [null] and for a missing file), the
    [bookmarks] of today's file, and latest.json.  The time stamps
    ([last_sync], [last_updated]) are left out. *)
Record BookmarkFiles : Type := mkFiles {
  bf_last_id : option string;
  bf_daily : option (list EnrichedTweet);
  bf_latest : option LatestFile
}.

(** The tweets classified by a finished page loop. *)
Definition classify_collected (st : BookmarkLoop) : list EnrichedTweet :=
  let '(tweetsMap, usersMap) :=
    buildIncludesMaps
      (Some (mkIncludes (Some (allIncludesTweets st)) (Some (allIncludesUsers st)))) in
  classify_bookmark tweetsMap usersMap <$> newBookmarks st.

(** *** The daily merge, with the objects kept apart from the arrays
        (lines 128-143)

    [assignThreadPositions(mergedBookmarks)] writes into objects that
    [classifiedBookmarks] holds too, and these objects are set into [allMap]
    afterwards.  The objects of [existingDaily] and of [classifiedBookmarks]
    are therefore kept in a store, in this order; [bookmarkMap] and
    [mergedBookmarks] hold references into it, that is indices. *)

(** [b.id] of the object a reference points to. *)
Definition id_of (store : list EnrichedTweet) (r : nat) : string :=
  from_option id "" (store !! r).

(** [for (const b of …) bookmarkMap.set(b.id, b)]. *)
Definition set_all_refs (store : list EnrichedTweet) (refs : list nat)
    (bookmarkMap : JsMap nat) : JsMap nat :=
  foldl (fun m r => map_set (id_of store r) r m) bookmarkMap refs.

(** [(a, b) => (b.created_at ?? "").localeCompare(a.created_at ?? "")] on
    references. *)
Definition newest_first_of (store : list EnrichedTweet) (a b : nat) : comparison :=
  localeCompare (created_of store b) (created_of store a).

(** The objects of an array after a pass in place, seen in the store. *)
Definition write_back (refs : list nat) (objects : list EnrichedTweet)
    (store : list EnrichedTweet) : list EnrichedTweet :=
  foldl (fun st p => <[p.1 := p.2]> st) store (zip refs objects).

(** [mergedBookmarks] as it is written to the daily file, and
    [classifiedBookmarks] as its objects are once the pass has run. *)
Definition merge_daily (existingDaily classifiedBookmarks : list EnrichedTweet)
  : list EnrichedTweet * list EnrichedTweet :=
  let store := existingDaily ++ classifiedBookmarks in
  let existingRefs := seq 0 (length existingDaily) in
  let classifiedRefs := seq (length existingDaily) (length classifiedBookmarks) in
  let bookmarkMap :=
    set_all_refs store classifiedRefs (set_all_refs store existingRefs []) in
  let mergedRefs := js_sort (newest_first_of store) (map_values bookmarkMap) in
  let mergedBookmarks :=
    assignThreadPositions (omap (fun r => store !! r) mergedRefs) in
  (mergedBookmarks,
   drop (length existingDaily) (write_back mergedRefs mergedBookmarks store)).

(** The run: the page loop, the early return when nothing was collected,
    then the cursor and the two merges.  The push to Notion that ends the
    run writes none of these files, and its errors are caught. *)
Definition syncBookmarksIncremental
    (answers : list (Outcome TimelineJson)) (files : BookmarkFiles)
  : Outcome BookmarkFiles * list (Outcome TimelineJson) :=
  match fetch_bookmark_pages (bf_last_id files) answers (mkLoop [] [] [] 0 false) with
  | (Err e, later) => (Err e, later)
  | (Ok st, later) =>
      match newBookmarks st with
      | [] => (Ok files, later)
      | _ :: _ =>
          let classifiedBookmarks := classify_collected st in
          let existingDaily := default [] (bf_daily files) in
          let allBookmarks :=
            match bf_latest files with
            | Some prev =>
                match latest_bookmarks prev with
                | Some bs => bs
                | None => default [] (latest_tweets prev)
                end
            | None => []
            end in
          let last_id := id <$> head classifiedBookmarks in
          let '(mergedBookmarks, classifiedBookmarks) :=
            merge_daily existingDaily classifiedBookmarks in
          (Ok {| bf_last_id := last_id;
                 bf_daily := Some mergedBookmarks;
                 bf_latest :=
                   Some (mkLatest (Some (merge_by_id allBookmarks classifiedBookmarks))
                                  None) |},
           later)
      end
  end.

(** ** Notions used to state the properties of the runs *)

(** Whether the loop counts the account as new. *)
Definition is_new_user (s : SyncState) (u : FollowedUser) : bool :=
  negb (truthy (sinceIds s !! fu_id u)).

(** [fetchedTweets.length] for an account whose call returns. *)
Definition fetched_count
    (api : string → list (string * string) → Outcome TimelineJson)
    (maxResults : string) (s : SyncState) (u : FollowedUser) : nat :=
  match fetch_of api maxResults s u with
  | Ok json => length (default [] (json_data json))
  | Err _ => 0
  end.

(** [users.map((u) => existingData[u.id]).filter(Boolean)]: the [results]
    of the daily file. *)
Definition daily_results (users : list FollowedUser) (s : SyncState)
  : list UserTweets :=
  omap (fun u => existingData s !! fu_id u) users.

(** Whether the call for an account returns, that is the [try] block runs
    to its end. *)
Definition call_returns
    (api : string → list (string * string) → Outcome TimelineJson)
    (maxResults : string) (s : SyncState) (u : FollowedUser) : bool :=
  match fetch_of api maxResults s u with
  | Ok _ => true
  | Err _ => false
  end.

(** [json.data || []] of a bookmark page. *)
Definition page_tweets (json : TimelineJson) : list RawTweet :=
  default [] (json_data json).

(** A page after which the loop goes on: it has tweets and a next token. *)
Definition page_continues (json : TimelineJson) : Prop :=
  page_tweets json ≠ [] ∧ truthy (json_next_token json) = true.

(** A first run, with a file of the day before left by the full sync. *)
Definition sample_files : BookmarkFiles :=
  mkFiles None (Some [sample_tweet "150" "2025-12-31T10:00:00.000Z" None None]) None.

(** ** The archive of the own timeline (fetch-my-tweets.ts, [mergeIntoAll]) *)

(** [interface MyTweet]: the API object with the three flags added. *)
Record MyTweet : Type := mkMyTweet {
  my_tweet : RawTweet;
  is_retweet : bool;
  is_reply : bool;
  is_article : bool
}.

Definition my_id (t : MyTweet) : string := raw_id (my_tweet t).

(** [(a, b) => (b.created_at ?? "").localeCompare(a.created_at ?? "")]. *)
Definition my_newest_first (a b : MyTweet) : comparison :=
  localeCompare (js_nullish (raw_created_at (my_tweet b)) "")
                (js_nullish (raw_created_at (my_tweet a)) "").

(** [mergeIntoAll]: the [tweets] written to all.json.  [existing] is
    [data.tweets] of the file, [None] when the file or the key is missing. *)
Definition mergeIntoAll (existing : option (list MyTweet)) (newTweets : list MyTweet)
  : list MyTweet :=
  let tweetMap := foldl (fun m t => map_set (my_id t) t m) [] (default [] existing) in
  let tweetMap := foldl (fun m t => map_set (my_id t) t m) tweetMap newTweets in
  js_sort my_newest_first (map_values tweetMap).

Definition sample_my_tweet (i c : string) : MyTweet :=
  mkMyTweet (mkRaw i [] (Some c) None None None None None None None None)
            false false false.

(** The reference [r] points to the object [v] of the store. *)
Definition points_to (store : list EnrichedTweet) (r : nat) (v : EnrichedTweet)
  : Prop :=
  store !! r = Some v.

(** An entry of a map of references and the entry of the map of objects it
    stands for. *)
Definition entry_points_to (store : list EnrichedTweet)
    (e : string * nat) (e' : string * EnrichedTweet) : Prop :=
  e.1 = e'.1 ∧ points_to store e.2 e'.2.

(** A page of two bookmarks of one conversation, newest first. *)
Definition sample_thread_page : TimelineJson :=
  mkJson
    (Some [ mkRaw "212" [] (Some "2026-01-03T00:00:00.000Z") (Some "7") (Some "7")
                  None None (Some [mkRef "replied_to" "211"]) None (Some "211") None;
            mkRaw "211" [] (Some "2026-01-02T00:00:00.000Z") (Some "7") None
                  None None None None (Some "211") None ])
    None None.

(** * Properties *)

(** ** The classifier *)

Lemma find_ref_existsb ty refs :
  existsb (fun r => String.eqb (ref_type r) ty) refs = true →
  is_Some (find_ref ty refs).
Proof.
  unfold find_ref. induction refs as [|r refs IH]; simpl; [done|].
  destruct (String.eqb (ref_type r) ty); [eauto | exact IH].
Qed.

(** C3.  [classifyTweet] gives every tweet one of the five kinds, and a
    tweet that carries both a "replied_to" and a "quoted" reference is a
    thread or a reply, never a quote: the reply reference is looked at
    first. *)
Theorem classify_total_reply_first
    (tweet : RawTweet) (authorId : string)
    (tweetsMap : gmap string RawTweet) (usersMap : gmap string IncludedUser) :
  let kind := tweet_type (classifyTweet tweet authorId tweetsMap usersMap) in
  kind ∈ [Original; LongForm; Thread; Reply; Quote] ∧
  (has_ref "replied_to" tweet = true → has_ref "quoted" tweet = true →
   (kind = Thread ∨ kind = Reply) ∧ kind ≠ Quote).
Proof.
  simpl. split.
  - destruct (tweet_type _); set_solver.
  - intros Hr _. apply find_ref_existsb in Hr as [r Hr].
    unfold classifyTweet. rewrite Hr.
    match goal with |- context [if ?b then Thread else Reply] => destruct b end;
      simpl; split; (auto || discriminate).
Qed.

Lemma classify_total_reply_first_witness :
  tweet_type (classifyTweet sample_both "7" ∅ ∅) = Reply ∧
  tweet_type (classifyTweet sample_both "7" ∅ ∅) ≠ Quote.
Proof.
  destruct (classify_total_reply_first sample_both "7" ∅ ∅) as [_ H].
  destruct (H eq_refl eq_refl) as [_ Hq].
  split; [reflexivity | exact Hq].
Defined.

(** ** Stable sorting *)

Section sorting.
Context {A : Type} (cmp : A → A → comparison).

Lemma sort_insert_perm x l : sort_insert cmp x l ≡ₚ x :: l.
Proof.
  induction l as [|y l IH]; simpl; [done|].
  destruct (cmp x y); try done.
  rewrite IH. apply Permutation_swap.
Qed.

Lemma js_sort_perm l : js_sort cmp l ≡ₚ l.
Proof.
  induction l as [|x l IH]; simpl; [done|].
  rewrite sort_insert_perm. by f_equiv.
Qed.

Lemma js_sort_length l : length (js_sort cmp l) = length l.
Proof. by rewrite js_sort_perm. Qed.

Lemma js_sort_elem_of x l : x ∈ js_sort cmp l ↔ x ∈ l.
Proof. by rewrite js_sort_perm. Qed.

Lemma js_sort_NoDup l : NoDup l → NoDup (js_sort cmp l).
Proof. by rewrite js_sort_perm. Qed.

(** A comparator is total when two elements are never each strictly
    after the other. *)
Hypothesis cmp_total : ∀ x y, cmp x y = Gt → cmp y x ≠ Gt.

Lemma sort_insert_sorted x l :
  Sorted (not_after cmp) l → Sorted (not_after cmp) (sort_insert cmp x l).
Proof.
  induction 1 as [|y l Hs IH Hd]; simpl.
  - repeat constructor.
  - destruct (cmp x y) eqn:Hxy.
    + repeat constructor; try done. unfold not_after. by rewrite Hxy.
    + repeat constructor; try done. unfold not_after. by rewrite Hxy.
    + constructor; [done|].
      destruct Hd as [|z l Hyz]; simpl.
      * constructor. by apply cmp_total.
      * destruct (cmp x z); constructor; try done; by apply cmp_total.
Qed.

Lemma js_sort_sorted l : Sorted (not_after cmp) (js_sort cmp l).
Proof.
  induction l as [|x l IH]; simpl; [constructor|].
  by apply sort_insert_sorted.
Qed.
End sorting.

Section sorting_more.
Context {A : Type}.

(** Sorting an array that is already in order leaves it as it is. *)
Lemma js_sort_id (cmp : A → A → comparison) l :
  Sorted (not_after cmp) l → js_sort cmp l = l.
Proof.
  induction 1 as [|x l Hs IH Hd]; simpl; [done|].
  rewrite IH. destruct Hd as [|y l Hxy]; simpl; [done|].
  unfold not_after in Hxy. by destruct (cmp x y).
Qed.

Lemma js_sort_ext (cmp cmp' : A → A → comparison) l :
  (∀ x y, cmp x y = cmp' x y) → js_sort cmp l = js_sort cmp' l.
Proof.
  intros Heq. induction l as [|x l IH]; simpl; [done|].
  rewrite IH. generalize (js_sort cmp' l). intros s.
  induction s as [|y s IHs]; simpl; [done|].
  rewrite Heq, IHs. done.
Qed.

Lemma Sorted_Forall2 (R : A → A → Prop) (P : A → A → Prop) l l' :
  (∀ x x' y y', P x x' → P y y' → R x y → R x' y') →
  Forall2 P l l' → Sorted R l → Sorted R l'.
Proof.
  intros HR HF. induction HF as [|x x' l l' Hx HF IH]; [done|].
  intros Hs. apply Sorted_inv in Hs as [Hs Hd].
  constructor; [by apply IH|].
  destruct Hd as [|y l Hxy]; inversion HF; subst; constructor.
  eapply HR; eauto.
Qed.
(** The sort is stable: elements that the comparator ranks by a key keep,
    among those with the same key, the order they came in. *)
Lemma js_sort_stable {K} `{EqDecision K} (cmp : A → A → comparison) (f : A → K) k l :
  (∀ x y, f x = f y → cmp x y ≠ Gt) →
  filter (λ y, f y = k) (js_sort cmp l) = filter (λ y, f y = k) l.
Proof.
  intros Hkey. induction l as [|x l IH]; simpl; [done|].
  rewrite filter_cons, <- IH. generalize (js_sort cmp l). intros s.
  induction s as [|y s IHs]; simpl; [by rewrite filter_cons|].
  destruct (cmp x y) eqn:Hxy; try by rewrite filter_cons.
  rewrite filter_cons, IHs.
  destruct (decide (f x = k)) as [Hx|Hx]; [|by rewrite filter_cons].
  rewrite (filter_cons _ y). destruct (decide (f y = k)) as [Hy|Hy]; [|done].
  destruct (Hkey x y); congruence.
Qed.
End sorting_more.

(** ** Insertion-ordered maps *)

Section jsmap.
Context {V : Type}.
Implicit Types (m : JsMap V) (k : string) (v : V).

Lemma map_get_set_eq k v m : map_get k (map_set k v m) = Some v.
Proof.
  induction m as [|[k' v'] m IH]; simpl.
  - by rewrite decide_True.
  - destruct (decide (k' = k)) as [->|Hne]; simpl.
    + by rewrite decide_True.
    + by rewrite decide_False.
Qed.

Lemma map_get_set_ne k k' v m :
  k ≠ k' → map_get k' (map_set k v m) = map_get k' m.
Proof.
  intros Hne. induction m as [|[k0 v0] m IH]; simpl.
  - by rewrite decide_False.
  - destruct (decide (k0 = k)) as [->|Hne0]; simpl.
    + by rewrite !decide_False.
    + by rewrite IH.
Qed.

Lemma map_get_None k m : map_get k m = None ↔ k ∉ m.*1.
Proof.
  induction m as [|[k' v'] m IH]; simpl.
  - split; [intros _; apply not_elem_of_nil | done].
  - destruct (decide (k' = k)) as [->|Hne].
    + split; [done|]. intros []. left.
    + rewrite IH, not_elem_of_cons. intuition congruence.
Qed.

Lemma map_set_keys_in k v m : k ∈ m.*1 → (map_set k v m).*1 = m.*1.
Proof.
  induction m as [|[k' v'] m IH]; simpl.
  - intros Hin. by apply elem_of_nil in Hin.
  - intros Hin. destruct (decide (k' = k)) as [->|Hne]; simpl; [done|].
    f_equal. apply IH. apply elem_of_cons in Hin as [Heq|Hin]; [by subst|done].
Qed.

Lemma map_set_fresh k v m : k ∉ m.*1 → map_set k v m = m ++ [(k, v)].
Proof.
  induction m as [|[k' v'] m IH]; simpl; [done|].
  intros Hin%not_elem_of_cons. destruct Hin as [Hne Hin].
  rewrite decide_False by done. by rewrite IH.
Qed.

Lemma map_set_NoDup k v m : NoDup m.*1 → NoDup (map_set k v m).*1.
Proof.
  intros Hnd. destruct (decide (k ∈ m.*1)) as [Hin|Hin].
  - by rewrite map_set_keys_in.
  - rewrite map_set_fresh by done. rewrite fmap_app. simpl.
    apply NoDup_app. split_and!; [done| |apply NoDup_singleton].
    intros x Hx ->%list_elem_of_singleton. done.
Qed.

Lemma map_get_elem_of k v m :
  NoDup m.*1 → (k, v) ∈ m ↔ map_get k m = Some v.
Proof.
  induction m as [|[k' v'] m IH]; simpl; intros Hnd.
  - split; [|done]. intros Hin. by apply elem_of_nil in Hin.
  - apply NoDup_cons in Hnd as [Hk Hnd].
    rewrite elem_of_cons. destruct (decide (k' = k)) as [->|Hne].
    + split; [|intros [= ->]; by left].
      intros [[= ->]|Hin]; [done|].
      destruct Hk. apply list_elem_of_fmap. by exists (k, v).
    + rewrite <- IH by done. split; [|by right].
      intros [[=]|Hin]; [congruence|done].
Qed.
End jsmap.

(** ** Frames: what the pass leaves alone *)

Lemma forget_set_thread_position p t :
  forget_position (set_thread_position p t) = forget_position t.
Proof. done. Qed.

Lemma same_frame_set p t : same_frame t (set_thread_position p t).
Proof. done. Qed.

Lemma set_thread_position_frame p t t' :
  same_frame t t' → set_thread_position p t = set_thread_position p t'.
Proof.
  destruct t, t'. unfold same_frame, forget_position, set_thread_position.
  simpl. intros H. injection H; intros; by subst.
Qed.

Lemma same_frame_created t t' : same_frame t t' → created t = created t'.
Proof.
  destruct t, t'. unfold same_frame, created, forget_position. simpl.
  intros H. injection H; intros; by subst.
Qed.

Lemma same_frame_conv_key t t' : same_frame t t' → conv_key t = conv_key t'.
Proof.
  destruct t, t'. unfold same_frame, conv_key, forget_position. simpl.
  intros H. injection H; intros; by subst.
Qed.

Lemma same_frame_id t t' : same_frame t t' → id t = id t'.
Proof.
  destruct t, t'. unfold same_frame, forget_position. simpl.
  intros H. injection H; intros; by subst.
Qed.

Lemma same_frame_position t t' :
  same_frame t t' → thread_position t = thread_position t' → t = t'.
Proof.
  destruct t, t'. unfold same_frame, forget_position. simpl.
  intros H ?. injection H; intros; by subst.
Qed.

#[local] Instance same_frame_equiv : Equivalence same_frame.
Proof.
  unfold same_frame. split.
  - by intros t.
  - by intros t t'.
  - intros t1 t2 t3. congruence.
Qed.

(** ** Conversations of a working set *)

Lemma elem_of_members_from i tweets cid r :
  r ∈ members_from i tweets cid ↔
  ∃ j t, r = i + j ∧ tweets !! j = Some t ∧ conv_key t = Some cid.
Proof.
  revert i. induction tweets as [|t tweets IH]; intros i; simpl.
  - split; [intros H; by apply elem_of_nil in H | intros (j & t & _ & H & _); done].
  - assert (r ∈ members_from (S i) tweets cid ↔
            ∃ j t', r = i + S j ∧ tweets !! j = Some t' ∧ conv_key t' = Some cid)
      as Hrest.
    { rewrite IH. apply exist_proper; intros j. apply exist_proper; intros t'.
      by replace (S i + j) with (i + S j) by lia. }
    destruct (decide (conv_key t = Some cid)) as [Hc|Hc].
    + rewrite elem_of_cons, Hrest. split.
      * intros [->|(j & t' & -> & ? & ?)].
        -- exists 0, t. split_and!; [lia|done|done].
        -- by exists (S j), t'.
      * intros ([|j] & t' & -> & Ht & Hk).
        -- left. lia.
        -- right. by exists j, t'.
    + rewrite Hrest. split.
      * intros (j & t' & -> & ? & ?). by exists (S j), t'.
      * intros ([|j] & t' & -> & Ht & Hk); simpl in Ht.
        -- by simplify_eq.
        -- by exists j, t'.
Qed.

Lemma elem_of_members tweets cid r :
  r ∈ members tweets cid ↔ ∃ t, tweets !! r = Some t ∧ conv_key t = Some cid.
Proof.
  unfold members. rewrite elem_of_members_from. split.
  - intros (j & t & -> & ? & ?). by exists t.
  - intros (t & ? & ?). by exists r, t.
Qed.

Lemma members_from_lower i tweets cid r :
  r ∈ members_from i tweets cid → i ≤ r.
Proof. rewrite elem_of_members_from. intros (j & t & -> & _). lia. Qed.

Lemma members_from_NoDup i tweets cid : NoDup (members_from i tweets cid).
Proof.
  revert i. induction tweets as [|t tweets IH]; intros i; simpl.
  - constructor.
  - destruct (decide _); [|done].
    constructor; [|done]. intros Hin%members_from_lower. lia.
Qed.

Lemma members_NoDup tweets cid : NoDup (members tweets cid).
Proof. apply members_from_NoDup. Qed.

Lemma members_from_frame i tweets tweets' cid :
  Forall2 same_frame tweets tweets' →
  members_from i tweets cid = members_from i tweets' cid.
Proof.
  intros HF. revert i. induction HF as [|t t' l l' Ht HF IH]; intros i; simpl.
  - done.
  - rewrite (same_frame_conv_key _ _ Ht), IH. done.
Qed.

Lemma members_frame tweets tweets' cid :
  Forall2 same_frame tweets tweets' → members tweets cid = members tweets' cid.
Proof. apply members_from_frame. Qed.

Lemma members_lt tweets cid r : r ∈ members tweets cid → r < length tweets.
Proof.
  rewrite elem_of_members. intros (t & Ht & _). by eapply lookup_lt_Some.
Qed.

(** ** The first loop: grouping *)

Lemma threads_add_get threads i t c :
  map_get c (threads_add threads i t) =
  if decide (conv_key t = Some c)
  then Some (default [] (map_get c threads) ++ [i])
  else map_get c threads.
Proof.
  unfold threads_add. destruct (conv_key t) as [cid|]; [|by rewrite decide_False].
  destruct (decide (Some cid = Some c)) as [[= ->]|Hne].
  - rewrite map_get_set_eq. unfold map_has.
    destruct (map_get c threads) eqn:Hg; simpl.
    + by rewrite Hg.
    + by rewrite map_get_set_eq.
  - assert (cid ≠ c) by congruence.
    rewrite map_get_set_ne by done.
    destruct (map_has cid threads); [done|]. by rewrite map_get_set_ne.
Qed.

Lemma threads_add_NoDup threads i t :
  NoDup threads.*1 → NoDup (threads_add threads i t).*1.
Proof.
  intros Hnd. unfold threads_add. destruct (conv_key t) as [cid|]; [|done].
  apply map_set_NoDup. destruct (map_has cid threads); [done|].
  by apply map_set_NoDup.
Qed.

Lemma group_threads_get i tweets threads c :
  map_get c (group_threads i tweets threads) =
  match members_from i tweets c with
  | [] => map_get c threads
  | ms => Some (default [] (map_get c threads) ++ ms)
  end.
Proof.
  revert i threads. induction tweets as [|t tweets IH]; intros i threads; simpl.
  - done.
  - rewrite IH, threads_add_get.
    destruct (decide (conv_key t = Some c)); [|done].
    destruct (members_from (S i) tweets c); simpl; [done|].
    by rewrite <- app_assoc.
Qed.

Lemma group_threads_NoDup i tweets threads :
  NoDup threads.*1 → NoDup (group_threads i tweets threads).*1.
Proof.
  revert i threads. induction tweets as [|t tweets IH]; intros i threads; simpl.
  - done.
  - intros Hnd. by apply IH, threads_add_NoDup.
Qed.

(** Every array held by [threads] after the first loop is the member list
    of its key, and a conversation with a member has its array. *)
Lemma group_threads_members tweets c g :
  (c, g) ∈ group_threads 0 tweets [] ↔ g = members tweets c ∧ g ≠ [].
Proof.
  rewrite map_get_elem_of by (apply group_threads_NoDup; constructor).
  rewrite group_threads_get. fold (members tweets c). simpl.
  destruct (members tweets c) as [|r ms]; split; try done.
  - by intros [? ?].
  - by intros [= <-].
  - by intros [-> _].
Qed.

Lemma members_disjoint tweets c c' r :
  r ∈ members tweets c → r ∈ members tweets c' → c = c'.
Proof.
  rewrite !elem_of_members. intros (t & Ht & Hc) (t' & Ht' & Hc'). congruence.
Qed.

Lemma groups_NoDup_join tweets (keys : list string) :
  NoDup keys → NoDup (mjoin (members tweets <$> keys)).
Proof.
  induction 1 as [|c keys Hc Hnd IH]; simpl; [constructor|].
  apply NoDup_app. split_and!; [apply members_NoDup| |done].
  intros r Hr (g & Hin & Hg)%list_elem_of_join.
  apply list_elem_of_fmap in Hg as (c' & -> & Hc').
  assert (c = c') as -> by eauto using members_disjoint. done.
Qed.

Lemma group_threads_values tweets :
  map_values (group_threads 0 tweets []) =
  members tweets <$> (group_threads 0 tweets []).*1.
Proof.
  unfold map_values. rewrite <- list_fmap_compose.
  apply list_fmap_ext. intros j [c g] Hj. simpl.
  apply list_elem_of_lookup_2 in Hj.
  by apply group_threads_members in Hj as [-> _].
Qed.

(** ** The second loop: numbering *)

Lemma index_of_None x l : x ∉ l → index_of x l = None.
Proof.
  induction l as [|y l IH]; simpl; [done|].
  intros [Hne Hin]%not_elem_of_cons.
  rewrite decide_False by done. by rewrite IH.
Qed.

Lemma index_of_Some x l j : index_of x l = Some j → l !! j = Some x.
Proof.
  revert j. induction l as [|y l IH]; intros j; simpl; [done|].
  destruct (decide (y = x)) as [->|Hne].
  - by intros [= <-].
  - destruct (index_of x l) as [j'|]; simpl; [|done].
    intros [= <-]. simpl. by apply IH.
Qed.

Lemma index_of_lookup x l j : NoDup l → l !! j = Some x → index_of x l = Some j.
Proof.
  intros Hnd. revert j. induction Hnd as [|y l Hy Hnd IH]; intros j; [done|].
  destruct j as [|j]; simpl.
  - intros [= ->]. by rewrite decide_True.
  - intros Hj. rewrite decide_False.
    + by rewrite (IH j Hj).
    + intros ->. apply Hy. by eapply list_elem_of_lookup_2.
Qed.

Lemma index_of_is_Some x l : x ∈ l → is_Some (index_of x l).
Proof.
  induction l as [|y l IH]; simpl.
  - intros H. by apply elem_of_nil in H.
  - intros Hin. destruct (decide (y = x)); [eauto|].
    apply elem_of_cons in Hin as [->|Hin]; [done|].
    destruct (IH Hin) as [j ->]. eauto.
Qed.

Lemma number_from_lookup k l store i :
  NoDup l →
  number_from k l store !! i =
  (fun t => from_option (fun j => set_thread_position (S (k + j)) t) t
              (index_of i l)) <$> store !! i.
Proof.
  intros Hnd. revert k store.
  induction Hnd as [|r l Hr Hnd IH]; intros k store; simpl.
  - by destruct (store !! i).
  - rewrite IH. destruct (decide (r = i)) as [->|Hne].
    + rewrite index_of_None by done. rewrite list_lookup_alter_eq.
      destruct (store !! i); simpl; [|done]. by rewrite Nat.add_0_r.
    + rewrite list_lookup_alter_ne by done.
      destruct (store !! i) as [t|]; simpl; [|done].
      destruct (index_of i l) as [j|]; simpl; [|done].
      by rewrite Nat.add_succ_r.
Qed.

Lemma number_from_frame k l store :
  Forall2 same_frame store (number_from k l store).
Proof.
  revert k store. induction l as [|r l IH]; intros k store; simpl.
  - done.
  - etrans; [|apply IH]. apply Forall2_alter_r; [done|].
    intros x y _ _ Hxy. etrans; [exact Hxy|]. apply same_frame_set.
Qed.

Lemma number_thread_frame store g :
  Forall2 same_frame store (number_thread store g).
Proof.
  unfold number_thread. destruct (length g <=? 1); [done|].
  apply number_from_frame.
Qed.

Lemma number_thread_lookup store g i :
  NoDup g →
  number_thread store g !! i =
  (fun t =>
     if length g <=? 1 then t
     else from_option (fun j => set_thread_position (S j) t) t
            (index_of i (js_sort (chronological store) g))) <$> store !! i.
Proof.
  intros Hnd. unfold number_thread. destruct (length g <=? 1).
  - by destruct (store !! i).
  - rewrite number_from_lookup by by apply js_sort_NoDup. done.
Qed.

Lemma number_thread_notin store g i :
  i ∉ g → number_thread store g !! i = store !! i.
Proof.
  intros Hin. unfold number_thread. destruct (length g <=? 1); [done|].
  generalize (js_sort (chronological store) g) (js_sort_elem_of (chronological store) i g).
  intros s Hs. assert (i ∉ s) as Hi by (by rewrite Hs). clear Hs.
  generalize 0. revert store.
  induction s as [|r s IH]; intros store k; simpl; [done|].
  apply not_elem_of_cons in Hi as [Hne Hi].
  rewrite IH by done. by rewrite list_lookup_alter_ne.
Qed.

Lemma created_of_frame store store' r :
  Forall2 same_frame store store' → created_of store r = created_of store' r.
Proof.
  intros HF. unfold created_of.
  apply Forall2_lookup with (i := r) in HF.
  destruct HF as [t t' Ht|]; simpl; [|done]. by apply same_frame_created.
Qed.

Lemma js_sort_chronological_frame store store' g :
  Forall2 same_frame store store' →
  js_sort (chronological store) g = js_sort (chronological store') g.
Proof.
  intros HF. apply js_sort_ext. intros a b. unfold chronological.
  by rewrite !(created_of_frame store store').
Qed.

Lemma foldl_number_thread_frame store gs :
  Forall2 same_frame store (foldl number_thread store gs).
Proof.
  revert store. induction gs as [|g gs IH]; intros store; simpl; [done|].
  etrans; [apply (number_thread_frame store g)|apply IH].
Qed.

Lemma foldl_number_thread_notin store gs i :
  i ∉ mjoin gs → foldl number_thread store gs !! i = store !! i.
Proof.
  revert store. induction gs as [|g gs IH]; intros store; simpl; [done|].
  intros [Hg Hgs]%not_elem_of_app.
  rewrite IH by done. by apply number_thread_notin.
Qed.

Lemma foldl_number_thread_in store gs g i :
  NoDup (mjoin gs) → g ∈ gs → i ∈ g →
  foldl number_thread store gs !! i = number_thread store g !! i.
Proof.
  revert store. induction gs as [|g' gs IH]; intros store; simpl.
  - intros _ H. by apply elem_of_nil in H.
  - intros [Hg' [Hdisj Hgs]]%NoDup_app Hin Hi.
    destruct (decide (i ∈ g')) as [Hi'|Hi'].
    + assert (i ∉ mjoin gs) as Hn by by apply Hdisj.
      rewrite foldl_number_thread_notin by done.
      apply elem_of_cons in Hin as [->|Hin]; [done|].
      destruct Hn. apply list_elem_of_join. eauto.
    + apply elem_of_cons in Hin as [->|Hin]; [done|].
      rewrite IH by done.
      assert (NoDup g) as Hg.
      { clear -Hgs Hin. induction gs as [|h gs IH]; simpl in *.
        - by apply elem_of_nil in Hin.
        - apply NoDup_app in Hgs as (? & _ & ?).
          apply elem_of_cons in Hin as [->|Hin]; eauto. }
      rewrite (number_thread_lookup (number_thread store g') g) by done.
      rewrite (number_thread_lookup store g) by done.
      rewrite number_thread_notin by done.
      by rewrite (js_sort_chronological_frame _ _ g (number_thread_frame store g')).
Qed.

(** ** What the pass computes *)

Lemma assignThreadPositions_frame tweets :
  Forall2 same_frame tweets (assignThreadPositions tweets).
Proof. apply foldl_number_thread_frame. Qed.

(** The two loops together: each tweet of a conversation with two members
    or more takes its rank in the chronological order of the conversation,
    every other tweet is returned as it was. *)
Theorem assignThreadPositions_spec tweets :
  assignThreadPositions tweets = imap (assigned tweets) tweets.
Proof.
  apply list_eq. intros i. rewrite list_lookup_imap.
  unfold assignThreadPositions. rewrite group_threads_values.
  pose proof (group_threads_NoDup 0 tweets [] (NoDup_nil_2 (A:=string))) as Hkeys.
  pose proof (groups_NoDup_join tweets _ Hkeys) as Hjoin.
  destruct (tweets !! i) as [t|] eqn:Ht; simpl.
  - unfold assigned. destruct (conv_key t) as [c|] eqn:Hc.
    + assert (i ∈ members tweets c) as Hi by (apply elem_of_members; eauto).
      assert (members tweets c ∈ members tweets <$> (group_threads 0 tweets []).*1)
        as Hg.
      { apply list_elem_of_fmap. exists c. split; [done|].
        apply list_elem_of_fmap. exists (c, members tweets c). split; [done|].
        apply group_threads_members. split; [done|].
        intros Hnil. rewrite Hnil in Hi. by apply elem_of_nil in Hi. }
      rewrite (foldl_number_thread_in _ _ _ _ Hjoin Hg Hi).
      rewrite number_thread_lookup by apply members_NoDup.
      by rewrite Ht.
    + rewrite foldl_number_thread_notin; [done|].
      intros (g & Hi & Hg)%list_elem_of_join.
      apply list_elem_of_fmap in Hg as (c & -> & _).
      apply elem_of_members in Hi as (t' & Ht' & Hc'). congruence.
  - apply lookup_ge_None. apply lookup_ge_None in Ht.
    by rewrite <- (Forall2_length _ _ _ (foldl_number_thread_frame tweets _)).
Qed.

(** ** Order of [created_at] *)

Lemma localeCompare_total a b : localeCompare a b = Gt → localeCompare b a ≠ Gt.
Proof.
  unfold localeCompare. rewrite (String.compare_antisym b a).
  intros ->. done.
Qed.

Lemma localeCompare_trans a b c :
  localeCompare a b ≠ Gt → localeCompare b c ≠ Gt → localeCompare a c ≠ Gt.
Proof.
  unfold localeCompare. intros Hab Hbc.
  destruct (String.compare a b) eqn:Eab; [| |done].
  - apply String.compare_eq_iff in Eab as ->. done.
  - destruct (String.compare b c) eqn:Ebc; [| |done].
    + apply String.compare_eq_iff in Ebc as ->. by rewrite Eab.
    + apply OrderedTypeEx.String_as_OT.cmp_lt in Eab, Ebc.
      pose proof (OrderedTypeEx.String_as_OT.lt_trans _ _ _ Eab Ebc) as Hac.
      apply OrderedTypeEx.String_as_OT.cmp_lt in Hac.
      unfold OrderedTypeEx.String_as_OT.cmp in Hac. by rewrite Hac.
Qed.

Lemma StronglySorted_lookup {A} (R : A → A → Prop) l j1 j2 a b :
  StronglySorted R l → j1 < j2 → l !! j1 = Some a → l !! j2 = Some b → R a b.
Proof.
  intros Hs. revert j1 j2. induction Hs as [|x l Hs IH Hx]; intros j1 j2 Hlt; [done|].
  destruct j2 as [|j2]; [lia|]. destruct j1 as [|j1]; simpl.
  - intros [= ->] Hb. rewrite Forall_forall in Hx. apply Hx.
    by eapply list_elem_of_lookup_2.
  - apply IH. lia.
Qed.

Lemma chronological_sorted store g :
  StronglySorted (not_after (chronological store)) (js_sort (chronological store) g).
Proof.
  apply Sorted_StronglySorted.
  - intros a b c. unfold not_after, chronological. apply localeCompare_trans.
  - apply js_sort_sorted. intros a b. apply localeCompare_total.
Qed.

(** ** Thread positions *)

(** C10.  The pass changes nothing but [thread_position], and a tweet
    without conversation id (absent or empty, the guard of the first loop),
    or alone in its conversation, comes out exactly as it went in: a
    position it carried from an earlier run is still there. *)
Theorem assign_thread_positions_frame
    (tweets : list EnrichedTweet) (i : nat) (t : EnrichedTweet) :
  tweets !! i = Some t →
  (∃ t', assignThreadPositions tweets !! i = Some t' ∧ same_frame t t') ∧
  (conv_key t = None ∨
   (∃ cid, conv_key t = Some cid ∧ length (members tweets cid) = 1) →
   assignThreadPositions tweets !! i = Some t ∧
   position_of (assignThreadPositions tweets) i = thread_position t).
Proof.
  intros Ht. rewrite assignThreadPositions_spec.
  unfold position_of. rewrite list_lookup_imap, Ht. simpl. split.
  - eexists. split; [done|]. unfold assigned.
    destruct (conv_key t); [|done]. destruct (_ <=? _); [done|].
    destruct (index_of _ _); simpl; [apply same_frame_set|done].
  - unfold assigned. intros [->|(cid & -> & ->)]; done.
Qed.

Lemma assign_thread_positions_frame_witness :
  assignThreadPositions sample_archive !! 1 = sample_archive !! 1 ∧
  position_of (assignThreadPositions sample_archive) 1 = Some 2.
Proof.
  destruct (assign_thread_positions_frame sample_archive 1
              (sample_tweet "104" "2026-01-04T10:00:00.000Z" (Some "90") (Some 2))
              eq_refl) as [_ H].
  destruct H as [H1 H2].
  - right. exists "90". split; reflexivity.
  - split; [exact H1 | exact H2].
Defined.

(** C4.  For a conversation with [n ≥ 2] members in the working set, the
    members taken in ascending [created_at] order (members with the same
    [created_at] in array order) carry the positions [1, 2, …, n]; the
    member of a conversation of one is handed back untouched.  A
    conversation is a set of tweets with the same non-empty
    [conversation_id]. *)
Theorem thread_positions_correct (tweets : list EnrichedTweet) (cid : string) :
  let g := members tweets cid in
  let ordered := js_sort (chronological tweets) g in
  let out := assignThreadPositions tweets in
  (2 ≤ length g →
   ordered ≡ₚ g ∧
   (∀ j1 j2 a b, j1 < j2 → ordered !! j1 = Some a → ordered !! j2 = Some b →
      localeCompare (created_of out a) (created_of out b) ≠ Gt) ∧
   position_of out <$> ordered = Some <$> seq 1 (length g)) ∧
  (length g = 1 → ∀ r, r ∈ g → out !! r = tweets !! r).
Proof.
  simpl. split.
  - intros Hlen. split; [apply js_sort_perm|]. split.
    + intros j1 j2 a b Hlt Ha Hb.
      assert (Forall2 same_frame tweets (assignThreadPositions tweets)) as HF
        by apply foldl_number_thread_frame.
      rewrite <- !(created_of_frame _ _ _ HF).
      exact (StronglySorted_lookup _ _ _ _ _ _
               (chronological_sorted tweets (members tweets cid)) Hlt Ha Hb).
    + apply list_eq. intros j. rewrite !list_lookup_fmap.
      pose proof (js_sort_length (chronological tweets) (members tweets cid)) as Hl.
      destruct (js_sort (chronological tweets) (members tweets cid) !! j)
        as [r|] eqn:Hr; simpl.
      * assert (j < length (members tweets cid)) as Hj
          by (rewrite <- Hl; by eapply lookup_lt_Some).
        rewrite lookup_seq_lt by done. simpl. f_equal.
        assert (r ∈ members tweets cid) as Hin.
        { rewrite <- (js_sort_elem_of (chronological tweets)).
          by eapply list_elem_of_lookup_2. }
        apply elem_of_members in Hin as (t & Ht & Hc).
        unfold position_of. rewrite assignThreadPositions_spec.
        rewrite list_lookup_imap, Ht. simpl. unfold assigned. rewrite Hc.
        destruct (Nat.leb_spec (length (members tweets cid)) 1) as [|_]; [lia|].
        rewrite (index_of_lookup r _ j); [done| |done].
        apply js_sort_NoDup, members_NoDup.
      * apply lookup_ge_None in Hr. rewrite Hl in Hr.
        by rewrite lookup_seq_ge.
  - intros Hlen r Hr. apply elem_of_members in Hr as (t & Ht & Hc).
    rewrite assignThreadPositions_spec, list_lookup_imap, Ht. simpl.
    unfold assigned. by rewrite Hc, Hlen.
Qed.

Lemma thread_positions_correct_witness :
  position_of (assignThreadPositions sample_archive) <$> [4; 2; 0]
    = [Some 1; Some 2; Some 3] ∧
  assignThreadPositions sample_archive !! 1 = sample_archive !! 1.
Proof.
  destruct (thread_positions_correct sample_archive "101") as [H _].
  destruct (H ltac:(vm_compute; lia)) as (_ & _ & Hpos).
  destruct (thread_positions_correct sample_archive "90") as [_ H1].
  split; [exact Hpos | apply H1; [reflexivity | vm_compute; left]].
Defined.

(** ** Deduplication by id *)

Section dedup.
Implicit Types (l batch existing fetched : list EnrichedTweet).
Implicit Types (b v : EnrichedTweet).

Lemma overwrite_same b v : id v = id b → overwrite b v = b.
Proof. intros H. unfold overwrite. by rewrite decide_True. Qed.

Lemma overwrite_other b v : id v ≠ id b → overwrite b v = v.
Proof. intros H. unfold overwrite. by rewrite decide_False. Qed.

Lemma id_overwrite b v : id (overwrite b v) = id v.
Proof. unfold overwrite. by destruct (decide _). Qed.

Lemma ids_overwrite b l : id <$> (overwrite b <$> l) = id <$> l.
Proof.
  rewrite <- list_fmap_compose. apply list_fmap_ext. intros ? v _.
  apply id_overwrite.
Qed.

Lemma overwrite_absent b l : id b ∉ id <$> l → overwrite b <$> l = l.
Proof.
  induction l as [|v l IH]; csimpl; [done|].
  intros [Hne Hin]%not_elem_of_cons. rewrite IH by done.
  unfold overwrite. by rewrite decide_False.
Qed.

Lemma keys_keyed l : (keyed <$> l).*1 = id <$> l.
Proof. rewrite <- list_fmap_compose. done. Qed.

Lemma values_keyed l : map_values (keyed <$> l) = l.
Proof.
  unfold map_values. rewrite <- list_fmap_compose.
  rewrite <- (list_fmap_id l) at 2. done.
Qed.

Lemma map_set_keyed b l :
  NoDup (id <$> l) → map_set (id b) b (keyed <$> l) = keyed <$> put l b.
Proof.
  intros Hnd. unfold put. destruct (decide (id b ∈ id <$> l)) as [Hin|Hin].
  - induction l as [|v l IH]; csimpl in *.
    + by apply elem_of_nil in Hin.
    + apply NoDup_cons in Hnd as [Hv Hnd].
      unfold overwrite at 1. destruct (decide (id v = id b)) as [Heq|Hne].
      * rewrite overwrite_absent by congruence. unfold keyed. by rewrite Heq.
      * f_equal. apply IH; [done|].
        apply elem_of_cons in Hin as [|]; [congruence|done].
  - rewrite map_set_fresh by by rewrite keys_keyed.
    by rewrite fmap_app.
Qed.

Lemma put_NoDup l b : NoDup (id <$> l) → NoDup (id <$> put l b).
Proof.
  intros Hnd. unfold put. destruct (decide (id b ∈ id <$> l)) as [Hin|Hin].
  - by rewrite ids_overwrite.
  - rewrite fmap_app. apply NoDup_app. split_and!; [done| |apply NoDup_singleton].
    intros k Hk ->%list_elem_of_singleton. done.
Qed.

Lemma foldl_put_NoDup l batch :
  NoDup (id <$> l) → NoDup (id <$> foldl put l batch).
Proof.
  revert l. induction batch as [|b batch IH]; intros l Hnd; csimpl; [done|].
  by apply IH, put_NoDup.
Qed.

Lemma set_all_keyed l batch :
  NoDup (id <$> l) → set_all batch (keyed <$> l) = keyed <$> foldl put l batch.
Proof.
  unfold set_all. revert l.
  induction batch as [|b batch IH]; intros l Hnd; csimpl; [done|].
  rewrite map_set_keyed by done. by apply IH, put_NoDup.
Qed.

(** The merged array before sorting, as a fold over both arrays. *)
Lemma merge_by_id_put existing fetched :
  merge_by_id existing fetched
  = js_sort newest_first (foldl put [] (existing ++ fetched)).
Proof.
  unfold merge_by_id.
  change (set_all existing []) with (set_all existing (keyed <$> [])).
  rewrite (set_all_keyed [] existing) by constructor.
  rewrite set_all_keyed by (apply foldl_put_NoDup; constructor).
  by rewrite values_keyed, foldl_app.
Qed.

Lemma foldl_put_fresh l l' :
  NoDup (id <$> (l ++ l')) → foldl put l l' = l ++ l'.
Proof.
  revert l. induction l' as [|b l' IH]; intros l Hnd; csimpl.
  - by rewrite app_nil_r.
  - replace (l ++ b :: l') with ((l ++ [b]) ++ l') in * by by rewrite <- app_assoc.
    assert (id b ∉ id <$> l) as Hb.
    { rewrite !fmap_app in Hnd. apply NoDup_app in Hnd as [Hnd _].
      apply NoDup_app in Hnd as (_ & Hd & _). intros Hin.
      apply (Hd _ Hin). csimpl. left. }
    unfold put at 2. rewrite decide_False by done. by apply IH.
Qed.

Lemma put_ids l b k : k ∈ id <$> put l b ↔ k ∈ id <$> l ∨ k = id b.
Proof.
  unfold put. destruct (decide (id b ∈ id <$> l)) as [Hin|Hin].
  - rewrite ids_overwrite. split; [by left|]. by intros [?| ->].
  - rewrite fmap_app, elem_of_app. csimpl. rewrite list_elem_of_singleton. done.
Qed.

Lemma foldl_put_ids l batch k :
  k ∈ id <$> foldl put l batch ↔ k ∈ id <$> l ∨ k ∈ id <$> batch.
Proof.
  revert l. induction batch as [|b batch IH]; intros l; csimpl.
  - rewrite elem_of_nil. tauto.
  - rewrite IH, put_ids, elem_of_cons. tauto.
Qed.

Lemma foldl_put_present l batch :
  (∀ b, b ∈ batch → id b ∈ id <$> l) →
  foldl put l batch = resolve batch <$> l.
Proof.
  revert l. induction batch as [|b batch IH]; intros l Hin; csimpl.
  - unfold resolve. csimpl. by rewrite list_fmap_id.
  - unfold put at 2. rewrite decide_True by (apply Hin; left).
    rewrite IH.
    + rewrite <- list_fmap_compose. done.
    + intros b' Hb'. rewrite ids_overwrite. apply Hin. by right.
Qed.

Lemma id_resolve batch v : id (resolve batch v) = id v.
Proof.
  unfold resolve. revert v. induction batch as [|b batch IH]; intros v; csimpl.
  - done.
  - by rewrite IH, id_overwrite.
Qed.

Lemma resolve_snoc batch b v :
  resolve (batch ++ [b]) v = overwrite b (resolve batch v).
Proof. unfold resolve. by rewrite foldl_app. Qed.

(** A value of the map is the last tweet set under its id. *)
Lemma resolve_stored l batch v :
  v ∈ foldl put l batch → resolve batch v = v.
Proof.
  revert v. induction batch as [|b batch IH] using rev_ind; intros v; [done|].
  rewrite foldl_app, resolve_snoc. csimpl.
  set (stored := foldl put l batch) in *.
  unfold put. destruct (decide (id b ∈ id <$> stored)) as [Hin|Hin].
  - intros (v' & -> & Hv')%list_elem_of_fmap.
    destruct (decide (id v' = id b)) as [Heq|Hne].
    + rewrite (overwrite_same b v') by done.
      apply overwrite_same. by rewrite id_resolve.
    + rewrite (overwrite_other b v') by done.
      rewrite (IH _ Hv'). by apply overwrite_other.
  - intros [Hv|Hv]%elem_of_app; [|apply list_elem_of_singleton in Hv as ->].
    + rewrite (IH _ Hv). apply overwrite_other.
      intros Heq. apply Hin. rewrite <- Heq. by apply list_elem_of_fmap_2.
    + apply overwrite_same. by rewrite id_resolve.
Qed.

Lemma resolve_same_id batch v v' :
  id v' = id v → resolve batch v' = resolve batch v ∨ resolve batch v' = v'.
Proof.
  unfold resolve. revert v v'.
  induction batch as [|b batch IH]; intros v v' Heq; csimpl; [by right|].
  destruct (decide (id v = id b)) as [Hb|Hb].
  - left. rewrite (overwrite_same b v), (overwrite_same b v'); congruence.
  - rewrite (overwrite_other b v), (overwrite_other b v') by congruence.
    by apply IH.
Qed.
End dedup.

(** ** The merge *)

Lemma ids_frame (l l' : list EnrichedTweet) :
  Forall2 same_frame l l' → id <$> l = id <$> l'.
Proof.
  induction 1 as [|t t' l l' Ht _ IH]; csimpl; [done|].
  by rewrite IH, (same_frame_id _ _ Ht).
Qed.

Lemma merge_by_id_NoDup existing fetched :
  NoDup (id <$> merge_by_id existing fetched).
Proof.
  rewrite merge_by_id_put, js_sort_perm. apply foldl_put_NoDup. constructor.
Qed.

Lemma merge_by_id_ids existing fetched b :
  b ∈ fetched → id b ∈ id <$> merge_by_id existing fetched.
Proof.
  intros Hb. rewrite merge_by_id_put, js_sort_perm, foldl_put_ids. right.
  rewrite fmap_app, elem_of_app. right. by apply list_elem_of_fmap_2.
Qed.

Lemma merge_by_id_stored existing fetched v :
  v ∈ merge_by_id existing fetched → resolve fetched v = v.
Proof.
  rewrite merge_by_id_put, js_sort_elem_of, foldl_app. apply resolve_stored.
Qed.

Lemma newest_first_total a b : newest_first a b = Gt → newest_first b a ≠ Gt.
Proof. apply localeCompare_total. Qed.

Lemma merge_by_id_sorted existing fetched :
  Sorted (not_after newest_first) (merge_by_id existing fetched).
Proof. apply js_sort_sorted, newest_first_total. Qed.

Lemma assigned_cases tweets i t :
  (∀ tweets' t', Forall2 same_frame tweets tweets' → same_frame t t' →
     assigned tweets' i t' = t') ∨
  (∃ p, ∀ tweets' t', Forall2 same_frame tweets tweets' → same_frame t t' →
     assigned tweets' i t' = set_thread_position p t').
Proof.
  destruct (conv_key t) as [c|] eqn:Hc.
  - destruct (length (members tweets c) <=? 1) eqn:Hlen.
    + left. intros tweets' t' HF Ht. unfold assigned.
      by rewrite <- (same_frame_conv_key _ _ Ht), Hc, <- (members_frame _ _ _ HF), Hlen.
    + destruct (index_of i (js_sort (chronological tweets) (members tweets c)))
        as [j|] eqn:Hj.
      * right. exists (S j). intros tweets' t' HF Ht. unfold assigned.
        rewrite <- (same_frame_conv_key _ _ Ht), Hc, <- (members_frame _ _ _ HF), Hlen.
        by rewrite <- (js_sort_chronological_frame _ _ _ HF), Hj.
      * left. intros tweets' t' HF Ht. unfold assigned.
        rewrite <- (same_frame_conv_key _ _ Ht), Hc, <- (members_frame _ _ _ HF), Hlen.
        by rewrite <- (js_sort_chronological_frame _ _ _ HF), Hj.
  - left. intros tweets' t' HF Ht. unfold assigned.
    by rewrite <- (same_frame_conv_key _ _ Ht), Hc.
Qed.

(** Setting the fetched batch again over an archive that already holds it:
    each slot keeps the tweet of the sorted merge or the tweet of the
    archive, which differ in [thread_position] at most. *)
Lemma remerge_slots existing fetched i s m :
  merge_by_id existing fetched !! i = Some s →
  mergeTweets existing fetched !! i = Some m →
  resolve fetched m = s ∨ resolve fetched m = m.
Proof.
  intros Hs Hm.
  assert (same_frame s m) as Hsm.
  { eapply Forall2_lookup_lr; [apply foldl_number_thread_frame|exact Hs|exact Hm]. }
  destruct (resolve_same_id fetched s m) as [Heq|Heq].
  - symmetry. by apply same_frame_id.
  - left. rewrite Heq. eapply merge_by_id_stored, list_elem_of_lookup_2, Hs.
  - by right.
Qed.

(** Two working sets that agree up to thread positions, the second holding
    in each slot the tweet of the first or what the pass makes of it, are
    taken by the pass to the same result. *)
Lemma assign_slots (tweets tweets' : list EnrichedTweet) :
  Forall2 same_frame tweets tweets' →
  (∀ i t t', tweets !! i = Some t → tweets' !! i = Some t' →
     t' = t ∨ t' = assigned tweets i t) →
  assignThreadPositions tweets' = assignThreadPositions tweets.
Proof.
  intros HF Hslots. rewrite !assignThreadPositions_spec.
  apply list_eq. intros i. rewrite !list_lookup_imap.
  pose proof (proj1 (Forall2_lookup _ _ _) HF i) as Hi.
  destruct (tweets !! i) as [t|] eqn:Ht; destruct (tweets' !! i) as [t'|] eqn:Ht';
    inversion Hi as [? ? Htt'|]; subst; simpl; [|done]. f_equal.
  destruct (assigned_cases tweets i t) as [Hkeep|[p Hset]].
  - rewrite (Hkeep tweets' t') by done.
    rewrite (Hkeep tweets t) by done.
    destruct (Hslots i t t') as [->| ->]; [done|done|done|].
    by rewrite (Hkeep tweets t).
  - rewrite (Hset tweets' t') by done.
    rewrite (Hset tweets t) by done.
    symmetry. by apply set_thread_position_frame.
Qed.

(** C2.  Merging a fetched batch into an archive that is itself the result
    of merging that batch changes nothing: same tweets, same order, same
    thread positions. *)
Theorem merge_idempotent (existing fetched : list EnrichedTweet) :
  mergeTweets (mergeTweets existing fetched) fetched
  = mergeTweets existing fetched.
Proof.
  set (sorted := merge_by_id existing fetched).
  set (archive := mergeTweets existing fetched).
  assert (Forall2 same_frame sorted archive) as Hframe
    by apply foldl_number_thread_frame.
  assert (NoDup (id <$> archive)) as Hnd.
  { rewrite <- (ids_frame _ _ Hframe). apply merge_by_id_NoDup. }
  assert (∀ i s t', sorted !! i = Some s →
            (resolve fetched <$> archive) !! i = Some t' →
            t' = s ∨ t' = assigned sorted i s) as Hslots.
  { intros i s t' Hs. rewrite list_lookup_fmap.
    destruct (archive !! i) as [m|] eqn:Hm; simpl; [|done]. intros [= <-].
    destruct (remerge_slots existing fetched i s m Hs Hm) as [->| ->]; [by left|].
    right. unfold archive, mergeTweets in Hm.
    rewrite assignThreadPositions_spec, list_lookup_imap in Hm.
    fold sorted in Hm. rewrite Hs in Hm. simpl in Hm. congruence. }
  assert (Forall2 same_frame sorted (resolve fetched <$> archive)) as Hframe'.
  { apply Forall2_same_length_lookup_2.
    - rewrite length_fmap. by eapply Forall2_length.
    - intros i s t' Hs Ht'. destruct (Hslots i s t' Hs Ht') as [->| ->]; [done|].
      destruct (assigned_cases sorted i s) as [Hkeep|[p Hset]].
      + by rewrite (Hkeep sorted s).
      + rewrite (Hset sorted s) by done. apply same_frame_set. }
  assert (merge_by_id archive fetched = resolve fetched <$> archive) as Hagain.
  { rewrite merge_by_id_put, foldl_app.
    rewrite (foldl_put_fresh [] archive) by done. simpl.
    rewrite foldl_put_present.
    - apply js_sort_id.
      eapply (Sorted_Forall2 _ same_frame); [|exact Hframe'|apply merge_by_id_sorted].
      intros x x' y y' Hx Hy. unfold not_after, newest_first.
      by rewrite (same_frame_created _ _ Hx), (same_frame_created _ _ Hy).
    - intros b Hb. rewrite <- (ids_frame _ _ Hframe).
      by apply merge_by_id_ids. }
  unfold mergeTweets at 1. fold archive. rewrite Hagain.
  by apply assign_slots.
Qed.

(** ** Token guardian *)

Lemma refreshToken_logs config w o w' :
  refreshToken config w = (o, w') →
  clock w' = clock w ∧ api_log w' = api_log w ∧ sleeps w' = sleeps w ∧
  token_log w' = token_log w ++ [refresh_token config] ∧
  token_replies w' = tail (token_replies w).
Proof.
  unfold refreshToken, post_token.
  destruct (head (token_replies w)) as [[g|st text]|]; intros [= <- <-]; done.
Qed.

Lemma ensureValidToken_logs config w o w' :
  ensureValidToken config w = (o, w') →
  clock w' = clock w ∧ api_log w' = api_log w ∧ sleeps w' = sleeps w.
Proof.
  unfold ensureValidToken. destruct (refresh_due config w).
  - intros H. apply refreshToken_logs in H. tauto.
  - by intros [= <- <-].
Qed.

Lemma refresh_due_spec config w :
  refresh_due config w = true ↔
  (token_expires_at config ≠ 0 ∧ token_expires_at config - 300 ≤ now_seconds w)%Z.
Proof.
  unfold refresh_due. rewrite andb_true_iff, negb_true_iff, Z.eqb_neq, Z.leb_le.
  done.
Qed.

(** C9, as the code has it.  The check refreshes exactly when an expiry time
    is recorded ([token_expires_at] is not 0) and [now ≥ expires_at − 300];
    a granted refresh replaces both tokens, and the configuration file holds
    the new credentials when the call returns; a refused refresh is an
    error after that single request, with the file as it was. *)
Theorem token_guardian (config : Config) (w : World) :
  ((token_expires_at config ≠ 0 ∧
    token_expires_at config - 300 ≤ now_seconds w)%Z →
   ensureValidToken config w = refreshToken config w) ∧
  (¬ (token_expires_at config ≠ 0 ∧
      token_expires_at config - 300 ≤ now_seconds w)%Z →
   ensureValidToken config w = (Ok config, w)) ∧
  (∀ g more, token_replies w = TokenGranted g :: more →
     ∃ config' w', refreshToken config w = (Ok config', w') ∧
       access_token config' = grant_access_token g ∧
       refresh_token config' = grant_refresh_token g ∧
       token_expires_at config' = (now_seconds w + grant_expires_in g)%Z ∧
       config_file w' = config' ∧
       token_log w' = token_log w ++ [refresh_token config] ∧
       token_replies w' = more) ∧
  (∀ st text more, token_replies w = TokenRefused st text :: more →
     ∃ w', refreshToken config w = (Err (TokenRefreshFailed st text), w') ∧
       config_file w' = config_file w ∧
       token_log w' = token_log w ++ [refresh_token config] ∧
       token_replies w' = more).
Proof.
  split_and!.
  - intros Hdue%refresh_due_spec. unfold ensureValidToken. by rewrite Hdue.
  - intros Hdue. unfold ensureValidToken.
    destruct (refresh_due config w) eqn:E; [|done].
    by apply refresh_due_spec in E.
  - intros g more Hr. unfold refreshToken, post_token. rewrite Hr. simpl.
    eexists _, _. split; [reflexivity|]. done.
  - intros st text more Hr. unfold refreshToken, post_token. rewrite Hr. simpl.
    eexists. split; [reflexivity|]. done.
Qed.

Lemma token_guardian_witness :
  ensureValidToken sample_config sample_world_due
    = refreshToken sample_config sample_world_due ∧
  ensureValidToken sample_config sample_world = (Ok sample_config, sample_world) ∧
  access_token (config_file (ensureValidToken sample_config sample_world_due).2)
    = "access-2".
Proof.
  destruct (token_guardian sample_config sample_world_due) as (Hdue & _ & Hok & _).
  destruct (token_guardian sample_config sample_world) as (_ & Hnot & _).
  split; [apply Hdue; vm_compute; split; [discriminate|discriminate]|].
  split; [apply Hnot; vm_compute; intros [_ H]; apply H; reflexivity|].
  rewrite Hdue by (vm_compute; split; discriminate).
  destruct (Hok sample_grant [] eq_refl) as (c & w' & -> & Ha & _ & _ & Hf & _).
  simpl. by rewrite Hf, Ha.
Defined.

(** The claim C9 as it is worded, refresh whenever [now ≥ expires_at − 300],
    fails on a configuration that was never logged in: with
    [token_expires_at = 0] the condition holds at any time, and the check
    returns at once without a request to the token endpoint. *)
Lemma unset_expiry_skips_refresh :
  (token_expires_at sample_config_unset - 300 ≤ now_seconds sample_world_unset)%Z ∧
  ensureValidToken sample_config_unset sample_world_unset
    = (Ok sample_config_unset, sample_world_unset) ∧
  ensureValidToken sample_config_unset sample_world_unset
    ≠ refreshToken sample_config_unset sample_world_unset.
Proof. split; [vm_compute; discriminate|]. split; [reflexivity|discriminate]. Qed.

(** ** Transport *)

Lemma ok_status resp :
  ok resp = true → (status resp =? 429)%Z = false ∧ (status resp =? 401)%Z = false.
Proof.
  unfold ok. rewrite andb_true_iff, !Z.leb_le, !Z.eqb_neq. lia.
Qed.

Lemma rate_limit_wait_bounds resp w :
  (1000 ≤ rate_limit_wait resp w ≤ 900000)%Z.
Proof. unfold rate_limit_wait. lia. Qed.

Lemma apiGet_rate_limited path params r more w config w1 :
  ensureValidToken (config_file w) w = (Ok config, w1) →
  status r = 429%Z →
  let w2 := send (mkRequest GET path params None (access_token config)) w1 in
  apiGet path params (r :: more) w
  = apiGet path params more (sleep (rate_limit_wait r w2) w2).
Proof. intros Hguard H429. simpl. by rewrite Hguard, H429. Qed.

Lemma apiGet_settled path params r more w config w1 :
  ensureValidToken (config_file w) w = (Ok config, w1) →
  (status r =? 429)%Z = false → (status r =? 401)%Z = false →
  apiGet path params (r :: more) w
  = (settle r, more, send (mkRequest GET path params None (access_token config)) w1).
Proof. intros Hguard H429 H401. simpl. by rewrite Hguard, H429, H401. Qed.

(** C7.  On a 429 the transport sleeps for the time left until the reset
    read from the header, at least one second and at most 15 minutes, and
    makes the same call again; when the next answer is a success, the call
    returns its body after exactly two requests for the same path and
    parameters and one sleep, and no error reaches the caller.  (The token
    check that opens each attempt is assumed to pass.) *)
Theorem rate_limit_recovery
    (path : string) (params : list (string * string))
    (r1 r2 : HttpResponse) (more : list HttpResponse)
    (w w1 w3 : World) (config config' : Config) :
  ensureValidToken (config_file w) w = (Ok config, w1) →
  status r1 = 429%Z →
  let w2 := send (mkRequest GET path params None (access_token config)) w1 in
  let waitMs := rate_limit_wait r1 w2 in
  ensureValidToken (config_file (sleep waitMs w2)) (sleep waitMs w2)
    = (Ok config', w3) →
  ok r2 = true →
  let final := send (mkRequest GET path params None (access_token config')) w3 in
  (1000 ≤ waitMs ≤ 900000)%Z ∧
  (waitMs = Z.min (Z.max (reset_at_ms r1 - clock w) 1000) 900000 ∧
   ((1000 ≤ reset_at_ms r1 - clock w ≤ 900000)%Z → clock final = reset_at_ms r1)) ∧
  apiGet path params (r1 :: more) w = apiGet path params more (sleep waitMs w2) ∧
  apiGet path params (r1 :: r2 :: more) w = (Ok (body r2), more, final) ∧
  api_log final
    = api_log w ++ [mkRequest GET path params None (access_token config);
                    mkRequest GET path params None (access_token config')] ∧
  sleeps final = sleeps w ++ [waitMs].
Proof.
  intros Hguard H429 w2 waitMs Hguard' Hok final.
  destruct (ensureValidToken_logs _ _ _ _ Hguard) as (Hc1 & Hl1 & Hs1).
  destruct (ensureValidToken_logs _ _ _ _ Hguard') as (Hc3 & Hl3 & Hs3).
  destruct (ok_status _ Hok) as [Hn429 Hn401].
  refine (conj _ (conj _ (conj _ (conj _ (conj _ _))))).
  - apply rate_limit_wait_bounds.
  - assert (waitMs = Z.min (Z.max (reset_at_ms r1 - clock w) 1000) 900000) as Hw.
    { unfold waitMs, rate_limit_wait. unfold w2, send; cbn [clock]. by rewrite Hc1. }
    split; [done|]. intros Hin. unfold final. simpl. rewrite Hc3. simpl.
    rewrite Hw, Hc1. lia.
  - by apply apiGet_rate_limited.
  - rewrite (apiGet_rate_limited _ _ _ _ _ _ _ Hguard H429).
    rewrite (apiGet_settled _ _ _ _ _ _ _ Hguard' Hn429 Hn401).
    unfold settle. by rewrite Hok.
  - unfold final. simpl. rewrite Hl3. simpl. rewrite Hl1.
    by rewrite <- app_assoc.
  - unfold final. simpl. rewrite Hs3. simpl. by rewrite Hs1.
Qed.

Lemma rate_limit_recovery_witness :
  apiGet "/users/42/tweets" [("max_results", "10")] [sample_429; sample_200]
         sample_world
  = (Ok "{}", [],
     send (mkRequest GET "/users/42/tweets" [("max_results", "10")] None "access-1")
       (sleep 60000
          (send (mkRequest GET "/users/42/tweets" [("max_results", "10")] None
                   "access-1") sample_world))).
Proof.
  exact (proj1 (proj2 (proj2 (proj2
    (rate_limit_recovery "/users/42/tweets" [("max_results", "10")]
       sample_429 sample_200 [] sample_world sample_world _ sample_config
       sample_config eq_refl eq_refl eq_refl eq_refl))))).
Defined.

(** C8.  On a 401, in [apiGet] and in [apiPost] alike, the transport
    refreshes the token and sends the request once more with the new access
    token.  The answer to that second request settles the call: its body
    when it is a success, otherwise an error with its status and body (a
    second 401 included); two requests have been sent, one refresh made,
    nothing slept, and the answers still to come are left alone.  When the
    refresh itself is refused the call fails with that error and the
    request is not sent again.  (The token check that opens the call is
    assumed to pass.) *)
Theorem unauthorized_retry_once
    (path : string) (params : list (string * string)) (payload : string)
    (r1 r2 : HttpResponse) (more : list HttpResponse)
    (w w1 : World) (config : Config) :
  ensureValidToken (config_file w) w = (Ok config, w1) →
  status r1 = 401%Z →
  let get := mkRequest GET path params None in
  let post := mkRequest POST path [] (Some payload) in
  let expected :=
    if ok r2 then Ok (body r2) else Err (ApiError (status r2) (body r2)) in
  let got := apiGet path params (r1 :: r2 :: more) w in
  let posted := apiPost path payload (r1 :: r2 :: more) w in
  (∀ g grants, token_replies w1 = TokenGranted g :: grants →
     (got.1.1 = expected ∧ got.1.2 = more ∧
      api_log got.2
        = api_log w ++ [get (access_token config); get (grant_access_token g)] ∧
      token_log got.2 = token_log w1 ++ [refresh_token config] ∧
      sleeps got.2 = sleeps w ∧
      access_token (config_file got.2) = grant_access_token g ∧
      refresh_token (config_file got.2) = grant_refresh_token g) ∧
     (posted.1.1 = expected ∧ posted.1.2 = more ∧
      api_log posted.2
        = api_log w ++ [post (access_token config); post (grant_access_token g)] ∧
      token_log posted.2 = token_log w1 ++ [refresh_token config] ∧
      sleeps posted.2 = sleeps w ∧
      access_token (config_file posted.2) = grant_access_token g ∧
      refresh_token (config_file posted.2) = grant_refresh_token g)) ∧
  (∀ st text grants, token_replies w1 = TokenRefused st text :: grants →
     (got.1.1 = Err (TokenRefreshFailed st text) ∧ got.1.2 = r2 :: more ∧
      api_log got.2 = api_log w ++ [get (access_token config)]) ∧
     (posted.1.1 = Err (TokenRefreshFailed st text) ∧ posted.1.2 = r2 :: more ∧
      api_log posted.2 = api_log w ++ [post (access_token config)])).
Proof.
  intros Hguard H401 get post expected.
  destruct (ensureValidToken_logs _ _ _ _ Hguard) as (Hc1 & Hl1 & Hs1).
  assert ((status r1 =? 429)%Z = false) as Hn429 by (rewrite H401; done).
  unfold apiPost. simpl. rewrite Hguard, H401. simpl.
  unfold refreshToken, post_token. simpl. split.
  - intros g grants Hgrant. rewrite Hgrant. simpl.
    rewrite Hl1, Hs1, <- !app_assoc. done.
  - intros st text grants Hrefused. rewrite Hrefused. simpl.
    rewrite Hl1. done.
Qed.

Lemma unauthorized_retry_once_witness :
  (apiGet "/users/42/tweets" [] [sample_401; sample_401; sample_200] sample_world).1
    = (Err (ApiError 401 "Unauthorized"), [sample_200]) ∧
  (apiPost "/tweets" "{}" [sample_401; sample_200] sample_world).1
    = (Ok "{}", []).
Proof.
  destruct (unauthorized_retry_once "/users/42/tweets" [] "{}"
              sample_401 sample_401 [sample_200] sample_world sample_world
              sample_config eq_refl eq_refl) as [Hget _].
  destruct (Hget sample_grant [] eq_refl) as [(H1 & H2 & _) _].
  destruct (unauthorized_retry_once "/tweets" [] "{}"
              sample_401 sample_200 [] sample_world sample_world
              sample_config eq_refl eq_refl) as [Hpost _].
  destruct (Hpost sample_grant [] eq_refl) as [_ (H3 & H4 & _)].
  split; apply injective_projections; assumption.
Defined.

(** ** Bookmarks: stopping at the known id *)

(** Closes [x ∉ [a; b; …]] for distinct literals. *)
Ltac absent_from_list :=
  let H := fresh in
  intros H;
  repeat (apply elem_of_cons in H as [H|H]; [discriminate|]);
  by apply elem_of_nil in H.

Lemma scan_page_unknown known tweets collected :
  known ∉ raw_id <$> tweets →
  scan_page (Some known) tweets collected = (collected ++ tweets, false).
Proof.
  revert collected. induction tweets as [|t tweets IH]; intros collected; csimpl.
  - by rewrite app_nil_r.
  - intros [Hne Hin]%not_elem_of_cons.
    rewrite bool_decide_eq_false_2 by congruence.
    rewrite andb_false_r, IH by done. by rewrite <- app_assoc.
Qed.

Lemma scan_page_known known xs t ys collected :
  known ≠ "" → raw_id t = known → known ∉ raw_id <$> xs →
  scan_page (Some known) (xs ++ t :: ys) collected = (collected ++ xs, true).
Proof.
  intros Hne Ht. revert collected.
  induction xs as [|x xs IH]; intros collected; csimpl.
  - intros _. rewrite bool_decide_eq_true_2 by congruence.
    rewrite app_nil_r. by destruct known.
  - intros [Hx Hin]%not_elem_of_cons.
    rewrite bool_decide_eq_false_2 by congruence.
    rewrite andb_false_r, IH by done. by rewrite <- app_assoc.
Qed.

(** C6.  With a stored bookmark id, the page loop of the incremental sync
    stops at the first tweet that has this id: what it has collected is
    every tweet of the pages before and the tweets in front of the known
    one on its page, the known tweet and the tweets behind it are not
    collected, and none of the answers that would follow is asked for. *)
Theorem bookmarks_stop_at_known
    (known : string) (before : list TimelineJson) (hit : TimelineJson)
    (later : list (Outcome TimelineJson))
    (xs ys : list RawTweet) (t : RawTweet) (st : BookmarkLoop) :
  known ≠ "" →
  Forall (fun json =>
            default [] (json_data json) ≠ [] ∧
            (known ∉ raw_id <$> default [] (json_data json)) ∧
            truthy (json_next_token json) = true) before →
  json_data hit = Some (xs ++ t :: ys) →
  raw_id t = known →
  known ∉ raw_id <$> xs →
  ∃ st',
    fetch_bookmark_pages (Some known) ((Ok <$> before) ++ Ok hit :: later) st
      = (Ok st', later) ∧
    newBookmarks st'
      = newBookmarks st ++ mjoin ((fun json => default [] (json_data json)) <$> before)
          ++ xs ∧
    hitKnown st' = true ∧
    page st' = page st + length before + 1.
Proof.
  intros Hne Hbefore Hhit Ht Hxs. revert st.
  induction Hbefore as [|json before (Hdata & Hunknown & Hnext) _ IH];
    intros st; csimpl.
  - rewrite Hhit. simpl.
    destruct (xs ++ t :: ys) eqn:E; [by destruct xs|]. rewrite <- E.
    rewrite scan_page_known by done. simpl.
    eexists. split; [reflexivity|]. simpl. split_and!; [done|done|lia].
  - destruct (default [] (json_data json)) as [|d ds] eqn:E; [done|].
    rewrite scan_page_unknown by done. simpl. rewrite Hnext.
    edestruct IH as (st' & -> & Hnew & Hhk & Hpage).
    eexists. split; [reflexivity|]. simpl in *.
    rewrite Hnew, Hhk, Hpage. split_and!; [|done|lia].
    by rewrite <- !app_assoc.
Qed.

Lemma bookmarks_stop_at_known_witness :
  ∃ st',
    fetch_bookmark_pages (Some "205")
      [Ok sample_page_1; Ok sample_page_2; Ok sample_page_3] empty_loop
      = (Ok st', [Ok sample_page_3]) ∧
    raw_id <$> newBookmarks st' = ["209"; "208"; "207"; "206"] ∧
    page st' = 2.
Proof.
  destruct (bookmarks_stop_at_known "205" [sample_page_1] sample_page_2
              [Ok sample_page_3] [sample_raw "207"; sample_raw "206"]
              [sample_raw "204"] (sample_raw "205") empty_loop)
    as (st' & Hrun & Hnew & _ & Hpage).
  - discriminate.
  - constructor; [|constructor].
    split; [discriminate|]. split; [|reflexivity]. simpl. absent_from_list.
  - reflexivity.
  - reflexivity.
  - simpl. absent_from_list.
  - exists st'. split; [exact Hrun|]. split; [by rewrite Hnew|exact Hpage].
Defined.

(** ** Followed accounts: one turn of the loop *)

Section following.
Context (api : string → list (string * string) → Outcome TimelineJson).
Context (maxResults : string).
Implicit Types (s : SyncState) (u v : FollowedUser) (k : string).

Lemma truthy_js_or (o : option string) : truthy o = true → Some (js_or o "") = o.
Proof. by destruct o as [[|]|]. Qed.

Lemma sync_user_other s u k :
  fu_id u ≠ k →
  sinceIds (sync_user api maxResults s u) !! k = sinceIds s !! k ∧
  existingData (sync_user api maxResults s u) !! k = existingData s !! k.
Proof.
  intros Hne. unfold sync_user.
  destruct (api _ _) as [json|e]; simpl; [|done].
  rewrite lookup_insert_ne by done.
  destruct (truthy _); [by rewrite lookup_insert_ne|done].
Qed.

(** A turn whose call succeeds: the entry of the account holds the merge of
    what the daily file had with the classified answer, and the cursor is
    the id of the first tweet of the merge. *)
Lemma sync_user_fetched s u json :
  fetch_of api maxResults s u = Ok json →
  let since := sinceIds s !! fu_id u in
  let merged :=
    mergeTweets (from_option ut_tweets [] (existingData s !! fu_id u))
                (classify_page (fu_id u) json) in
  let s' := sync_user api maxResults s u in
  ut_tweets <$> existingData s' !! fu_id u = Some merged ∧
  sinceIds s' !! fu_id u
    = (if truthy (latest_id since merged) then latest_id since merged else since) ∧
  errors s' = errors s ∧ error_log s' = error_log s.
Proof.
  unfold fetch_of, sync_user. intros ->. simpl.
  rewrite lookup_insert_eq. split; [done|]. split; [|done].
  destruct (truthy (latest_id _ _)) eqn:E; [|done].
  by rewrite lookup_insert_eq, truthy_js_or.
Qed.

(** A turn whose call throws: one more error, a line for the account, and
    neither the archive nor the cursors are touched. *)
Lemma sync_user_failed s u e :
  fetch_of api maxResults s u = Err e →
  let s' := sync_user api maxResults s u in
  sinceIds s' = sinceIds s ∧ existingData s' = existingData s ∧
  errors s' = S (errors s) ∧ error_log s' = error_log s ++ [(fu_username u, e)].
Proof. unfold fetch_of, sync_user. by intros ->. Qed.

(** What a turn makes of the entry and cursor of its account depends on
    that entry and that cursor only. *)
Lemma sync_user_local s s' u :
  sinceIds s !! fu_id u = sinceIds s' !! fu_id u →
  existingData s !! fu_id u = existingData s' !! fu_id u →
  sinceIds (sync_user api maxResults s u) !! fu_id u
    = sinceIds (sync_user api maxResults s' u) !! fu_id u ∧
  existingData (sync_user api maxResults s u) !! fu_id u
    = existingData (sync_user api maxResults s' u) !! fu_id u.
Proof.
  intros Hs He. unfold sync_user. rewrite <- Hs, <- He.
  destruct (api _ _) as [json|e]; simpl; [|done].
  rewrite !lookup_insert_eq. split; [|done].
  destruct (truthy _); [by rewrite !lookup_insert_eq|done].
Qed.

Lemma sync_user_errors s u :
  errors (sync_user api maxResults s u)
    = errors s + length (option_list (error_line api maxResults s u)) ∧
  error_log (sync_user api maxResults s u)
    = error_log s ++ option_list (error_line api maxResults s u).
Proof.
  unfold error_line, fetch_of, sync_user.
  destruct (api _ _) as [json|e]; simpl.
  - by rewrite Nat.add_0_r, app_nil_r.
  - split; [lia|done].
Qed.

(** ** Followed accounts: the whole loop *)

Lemma loop_other users s k :
  k ∉ fu_id <$> users →
  sinceIds (fetchFollowingTweets api maxResults users s) !! k = sinceIds s !! k ∧
  existingData (fetchFollowingTweets api maxResults users s) !! k
    = existingData s !! k.
Proof.
  unfold fetchFollowingTweets. revert s.
  induction users as [|u users IH]; intros s; csimpl; [done|].
  intros [Hne Hin]%not_elem_of_cons.
  destruct (IH (sync_user api maxResults s u) Hin) as [-> ->].
  by apply sync_user_other.
Qed.

Lemma error_line_local s s' u :
  sinceIds s !! fu_id u = sinceIds s' !! fu_id u →
  error_line api maxResults s u = error_line api maxResults s' u.
Proof. intros H. unfold error_line, fetch_of. by rewrite H. Qed.

(** The loop over accounts with distinct ids: every account is handled as
    if its turn came first, and the errors are the lines of the accounts
    whose call threw. *)
Lemma loop_result users s :
  NoDup (fu_id <$> users) →
  let s' := fetchFollowingTweets api maxResults users s in
  errors s' = errors s + length (omap (error_line api maxResults s) users) ∧
  error_log s' = error_log s ++ omap (error_line api maxResults s) users ∧
  ∀ u, u ∈ users →
    sinceIds s' !! fu_id u = sinceIds (sync_user api maxResults s u) !! fu_id u ∧
    existingData s' !! fu_id u
      = existingData (sync_user api maxResults s u) !! fu_id u.
Proof.
  unfold fetchFollowingTweets. revert s.
  induction users as [|u users IH]; intros s; csimpl.
  - intros _. rewrite Nat.add_0_r, app_nil_r. split_and!; [done|done|].
    intros u Hu. by apply elem_of_nil in Hu.
  - intros [Hu Hnd]%NoDup_cons.
    destruct (IH (sync_user api maxResults s u) Hnd) as (Herr & Hlog & Hown).
    assert (omap (error_line api maxResults (sync_user api maxResults s u)) users
            = omap (error_line api maxResults s) users) as Hlines.
    { apply list_omap_ext. apply Forall2_same_length_lookup_2; [done|].
      intros i v v' Hv Hv'. assert (v' = v) as -> by congruence.
      apply error_line_local, sync_user_other.
      intros Heq. apply Hu. rewrite Heq.
      eapply list_elem_of_fmap_2, list_elem_of_lookup_2, Hv. }
    rewrite Hlines in Herr, Hlog.
    destruct (sync_user_errors s u) as [Herr1 Hlog1].
    split_and!.
    + rewrite Herr, Herr1.
      destruct (error_line api maxResults s u); simpl; lia.
    + rewrite Hlog, Hlog1, <- app_assoc.
      by destruct (error_line api maxResults s u).
    + intros v [->|Hv]%elem_of_cons.
      * by apply (loop_other users (sync_user api maxResults s u)).
      * destruct (Hown v Hv) as [-> ->].
        assert (fu_id u ≠ fu_id v) as Hne.
        { intros Heq. apply Hu. rewrite Heq. by apply list_elem_of_fmap_2. }
        apply sync_user_local; by apply sync_user_other.
Qed.

Lemma omap_none {A B} (f : A → option B) (l : list A) :
  (∀ a, a ∈ l → f a = None) → omap f l = [].
Proof.
  induction l as [|a l IH]; csimpl; [done|].
  intros Hall. rewrite (Hall a) by left. apply IH.
  intros a' Ha'. apply Hall. by right.
Qed.

Lemma omap_single {A B} (f : A → option B) (l : list A) (b : A) (y : B) :
  NoDup l → b ∈ l → f b = Some y → (∀ a, a ∈ l → a ≠ b → f a = None) →
  omap f l = [y].
Proof.
  induction 1 as [|a l Ha Hnd IH]; csimpl.
  - intros Hb. by apply elem_of_nil in Hb.
  - intros [->|Hb]%elem_of_cons Hy Hothers.
    + rewrite Hy. f_equal. apply omap_none.
      intros a' Ha'. apply Hothers; [by right|]. by intros ->.
    + rewrite (Hothers a); [|left|by intros ->].
      apply IH; [done|done|]. intros a' Ha' Hne'. apply Hothers; [by right|done].
Qed.

End following.

(** C1, on the code.  The cursor written for an account is the id of the
    first tweet of the merged array, which is ordered by [created_at].
    Account "42" has tweet "100" in today's file and its cursor on it; the
    call returns tweet "101", posted in the same second.  The merge keeps
    "100" in front, so the cursor stays at "100" although "101", a larger
    id, has been merged: the cursor is not the largest merged id. *)
Theorem cursor_behind_on_tie :
  let s := sync_user sample_api "10" tie_state sample_user in
  fetch_of sample_api "10" tie_state sample_user
    = Ok (mkJson (Some [tie_fetched]) None None) ∧
  (fun entry => id <$> ut_tweets entry) <$> existingData s !! "42" = Some ["100"; "101"] ∧
  sinceIds s !! "42" = Some "100" ∧
  (id_value "100" < id_value "101")%N.
Proof. vm_compute. done. Qed.

(** C5, on the code.  Three accounts, the call for the second of which
    fails with a 404.  The run goes through all of them: one error is
    counted and the line printed names the failing account, whose cursor
    and entry are not written; the tweets fetched for the two others are
    merged into their entries, and the cursor of the third goes to its new
    tweet.  But the cursor of the first stays at "100" although "101", which
    the account posted in the same second, has been fetched and merged: the
    cursor of a remaining account is not advanced. *)
Theorem isolation_run_cursor_behind :
  let users := [sample_user; sample_user_b; sample_user_c] in
  let s := fetchFollowingTweets sample_api "10" users tie_state in
  call_returns sample_api "10" tie_state <$> users = [true; false; true] ∧
  errors s = 1 ∧
  error_log s = [("bob", ApiError 404 "Not Found")] ∧
  sinceIds s !! "43" = None ∧ existingData s !! "43" = None ∧
  (fun entry => id <$> ut_tweets entry) <$> existingData s !! "44" = Some ["300"] ∧
  sinceIds s !! "44" = Some "300" ∧
  (fun entry => id <$> ut_tweets entry) <$> existingData s !! "42"
    = Some ["100"; "101"] ∧
  sinceIds tie_state !! "42" = Some "100" ∧
  sinceIds s !! "42" = Some "100" ∧
  (id_value "100" < id_value "101")%N.
Proof. vm_compute. by repeat split. Qed.

(** * Further properties of the code *)

(** ** tweet-utils.ts *)

Lemma assign_again (tweets : list EnrichedTweet) :
  assignThreadPositions (assignThreadPositions tweets)
  = assignThreadPositions tweets.
Proof.
  apply assign_slots; [apply assignThreadPositions_frame|].
  intros i t t' Ht. rewrite assignThreadPositions_spec, list_lookup_imap, Ht.
  intros [= <-]. by right.
Qed.

(** X1.  Running the thread-position pass on its own result changes
    nothing. *)
Theorem assignThreadPositions_idempotent (tweets : list EnrichedTweet) :
  assignThreadPositions (assignThreadPositions tweets)
  = assignThreadPositions tweets.
Proof. apply assign_again. Qed.

Lemma find_ref_has_ref ty tweet :
  has_ref ty tweet = true
  ↔ is_Some (find_ref ty (default [] (raw_referenced_tweets tweet))).
Proof.
  unfold has_ref, find_ref.
  induction (default [] (raw_referenced_tweets tweet)) as [|r refs IH]; simpl.
  - split; [done|]. by intros [? ?].
  - destruct (String.eqb (ref_type r) ty); [|done]. split; eauto.
Qed.

Lemma find_ref_none ty tweet :
  has_ref ty tweet = false
  ↔ find_ref ty (default [] (raw_referenced_tweets tweet)) = None.
Proof.
  rewrite <- not_true_iff_false, find_ref_has_ref, <- eq_None_not_Some. done.
Qed.

(** Closes the cases of a decision table once the kind is known. *)
Ltac kind_table :=
  repeat match goal with
         | |- _ ∧ _ => split
         | |- _ ↔ _ => split
         | |- _ → _ => intros ?
         end;
  try done;
  repeat match goal with
         | H : _ ∨ _ |- _ => destruct H
         | H : _ ∧ _ |- _ => destruct H
         | H : is_Some None |- _ => by destruct H
         end;
  try done; try congruence; eauto.

(** X2.  The kind given by [classifyTweet], case by case: thread or reply
    exactly when there is a "replied_to" reference; quote exactly when there
    is a "quoted" reference and no "replied_to" one; long form exactly when
    there is neither and the tweet has a [note_tweet]; original otherwise.
    When [in_reply_to_user_id] is there, a replying tweet is a thread
    exactly when that id is the author's. *)
Theorem classify_kind_table
    (tweet : RawTweet) (authorId : string)
    (tweetsMap : gmap string RawTweet) (usersMap : gmap string IncludedUser) :
  let kind := tweet_type (classifyTweet tweet authorId tweetsMap usersMap) in
  let replied := has_ref "replied_to" tweet in
  let quoted := has_ref "quoted" tweet in
  (kind = Thread ∨ kind = Reply ↔ replied = true) ∧
  (kind = Quote ↔ replied = false ∧ quoted = true) ∧
  (kind = LongForm ↔
     replied = false ∧ quoted = false ∧ is_Some (raw_note_tweet tweet)) ∧
  (kind = Original ↔
     replied = false ∧ quoted = false ∧ raw_note_tweet tweet = None) ∧
  (replied = true → truthy (raw_in_reply_to_user_id tweet) = true →
     (kind = Thread ↔ raw_in_reply_to_user_id tweet = Some authorId)).
Proof.
  simpl. unfold classifyTweet.
  destruct (has_ref "replied_to" tweet) eqn:Hr.
  - apply find_ref_has_ref in Hr as [r Hr]. rewrite Hr. simpl.
    destruct (truthy (raw_in_reply_to_user_id tweet)) eqn:Ht.
    + destruct (bool_decide _) eqn:Hb; simpl;
        [apply bool_decide_eq_true in Hb|apply bool_decide_eq_false in Hb];
        kind_table.
    + destruct (bool_decide _); simpl; kind_table.
  - apply find_ref_none in Hr. rewrite Hr.
    destruct (has_ref "quoted" tweet) eqn:Hq.
    + apply find_ref_has_ref in Hq as [q Hq]. rewrite Hq. simpl. kind_table.
    + apply find_ref_none in Hq. rewrite Hq.
      destruct (raw_note_tweet tweet) as [n|]; simpl; kind_table.
Qed.

Lemma classify_kind_table_witness :
  tweet_type (classifyTweet sample_self_reply "7" ∅ ∅) = Thread ∧
  tweet_type (classifyTweet sample_self_reply "8" ∅ ∅) ≠ Thread.
Proof.
  destruct (classify_kind_table sample_self_reply "7" ∅ ∅) as (_ & _ & _ & _ & H7).
  destruct (classify_kind_table sample_self_reply "8" ∅ ∅) as (_ & _ & _ & _ & H8).
  split.
  - by apply (H7 eq_refl eq_refl).
  - intros H. by apply (H8 eq_refl eq_refl) in H.
Defined.

(** X3.  The kind of a tweet does not depend on the includes when the
    tweet has no "replied_to" reference or carries [in_reply_to_user_id]:
    missing includes change the excerpt of the referenced tweet at most. *)
Theorem classify_kind_without_includes
    (tweet : RawTweet) (authorId : string)
    (tweetsMap : gmap string RawTweet) (usersMap : gmap string IncludedUser) :
  has_ref "replied_to" tweet = false ∨
    truthy (raw_in_reply_to_user_id tweet) = true →
  tweet_type (classifyTweet tweet authorId tweetsMap usersMap)
  = tweet_type (classifyTweet tweet authorId ∅ ∅).
Proof.
  unfold classifyTweet. intros [Hr|Ht].
  - apply find_ref_none in Hr. rewrite Hr.
    destruct (find_ref "quoted" _); [done|]. by destruct (raw_note_tweet tweet).
  - destruct (find_ref "replied_to" _); simpl.
    + by rewrite Ht.
    + destruct (find_ref "quoted" _); [done|]. by destruct (raw_note_tweet tweet).
Qed.

Lemma classify_kind_without_includes_witness :
  tweet_type (classifyTweet sample_self_reply "7"
                (buildIncludesMaps (Some sample_includes)).1
                (buildIncludesMaps (Some sample_includes)).2)
  = tweet_type (classifyTweet sample_self_reply "7" ∅ ∅).
Proof.
  apply classify_kind_without_includes. right. reflexivity.
Defined.

Lemma js_prefix_length n s : length (js_prefix n s) ≤ n.
Proof. unfold js_prefix. rewrite length_take. lia. Qed.

(** X4.  [original_tweet] is filled exactly for threads, replies and
    quotes; its id is the id of the first reference of the deciding type,
    and its text holds at most 2000 UTF-16 code units.  The id, [created_at] and
    [conversation_id] of the tweet are handed on as they are. *)
Theorem classify_original_tweet
    (tweet : RawTweet) (authorId : string)
    (tweetsMap : gmap string RawTweet) (usersMap : gmap string IncludedUser) :
  let out := classifyTweet tweet authorId tweetsMap usersMap in
  let refs := default [] (raw_referenced_tweets tweet) in
  (is_Some (original_tweet out) ↔ tweet_type out ∈ [Thread; Reply; Quote]) ∧
  (∀ o, original_tweet out = Some o →
     length (ot_text o) ≤ 2000 ∧
     Some (ot_id o)
       = ref_id <$> (if has_ref "replied_to" tweet
                     then find_ref "replied_to" refs
                     else find_ref "quoted" refs)) ∧
  id out = raw_id tweet ∧ created_at out = raw_created_at tweet ∧
  conversation_id out = raw_conversation_id tweet ∧
  thread_position out = None.
Proof.
  simpl. unfold classifyTweet.
  destruct (has_ref "replied_to" tweet) eqn:Hr.
  - apply find_ref_has_ref in Hr as [r Hr]. rewrite Hr. simpl.
    split_and!; try done.
    + split; [|eauto]. intros _.
      destruct (if truthy _ then _ else _); [left|right; left].
    + intros o [= <-]. simpl. split; [apply js_prefix_length|done].
  - apply find_ref_none in Hr. rewrite Hr.
    destruct (find_ref "quoted" _) as [q|] eqn:Hq; simpl.
    + split_and!; try done.
      * split; [|eauto]. intros _. right; right; left.
      * intros o [= <-]. simpl. split; [apply js_prefix_length|done].
    + destruct (raw_note_tweet tweet); simpl; split_and!; try done.
      * split; [by intros [? ?]|]. absent_from_list.
      * split; [by intros [? ?]|]. absent_from_list.
Qed.

Lemma foldl_insert_lookup {V} (key : V → string) (l : list V) (m : gmap string V) k :
  foldl (fun m t => <[key t := t]> m) m l !! k
  = match last (filter (fun t => key t = k) l) with
    | Some t => Some t
    | None => m !! k
    end.
Proof.
  revert m. induction l as [|t l IH]; intros m; simpl; [done|].
  rewrite IH, filter_cons. destruct (decide (key t = k)) as [<-|Hne].
  - destruct (filter _ l) as [|t' l'] eqn:E; simpl.
    + by rewrite lookup_insert_eq.
    + rewrite last_cons. by destruct (last l').
  - destruct (last (filter _ l)); [done|]. by rewrite lookup_insert_ne.
Qed.

(** X5.  The lookup tables of [buildIncludesMaps]: an id is found exactly
    when an included tweet has it, and what is found is the last included
    tweet with that id; the same for users; without includes both tables
    are empty. *)
Theorem buildIncludesMaps_lookup (includes : Includes) (k : string) :
  let tweets := default [] (inc_tweets includes) in
  let users := default [] (inc_users includes) in
  ((buildIncludesMaps (Some includes)).1 !! k
     = last (filter (fun t => raw_id t = k) tweets)) ∧
  ((buildIncludesMaps (Some includes)).2 !! k
     = last (filter (fun u => inc_user_id u = k) users)) ∧
  ((buildIncludesMaps (Some includes)).1 !! k = None ↔ k ∉ raw_id <$> tweets) ∧
  (∀ t, (buildIncludesMaps (Some includes)).1 !! k = Some t →
        t ∈ tweets ∧ raw_id t = k) ∧
  buildIncludesMaps None = (∅, ∅).
Proof.
  cbv zeta.
  assert ((buildIncludesMaps (Some includes)).1 !! k
          = last (filter (fun t => raw_id t = k) (default [] (inc_tweets includes))))
    as Hlookup.
  { unfold buildIncludesMaps. simpl. destruct (inc_tweets includes) as [ts|]; simpl.
    - rewrite foldl_insert_lookup. rewrite lookup_empty. by destruct (last _).
    - by rewrite lookup_empty. }
  assert ((buildIncludesMaps (Some includes)).2 !! k
          = last (filter (fun u => inc_user_id u = k) (default [] (inc_users includes))))
    as Husers.
  { unfold buildIncludesMaps. simpl. destruct (inc_users includes) as [us|]; simpl.
    - rewrite foldl_insert_lookup. rewrite lookup_empty. by destruct (last (filter _ us)).
    - by rewrite lookup_empty. }
  rewrite Hlookup, Husers. split_and!; [done|done| | |done].
  - rewrite last_None. split.
    + intros Hnil (t & -> & Ht)%list_elem_of_fmap.
      assert (t ∈ filter (fun t' => raw_id t' = raw_id t)
                    (default [] (inc_tweets includes))) as Hin
        by by apply list_elem_of_filter.
      rewrite Hnil in Hin. by apply elem_of_nil in Hin.
    + intros Hk. destruct (filter _ _) as [|t ts] eqn:E; [done|].
      assert (t ∈ filter (fun t' => raw_id t' = k)
                    (default [] (inc_tweets includes))) as Hin
        by (rewrite E; left).
      apply list_elem_of_filter in Hin as [<- Hin].
      destruct Hk. by apply list_elem_of_fmap_2.
  - intros t Ht. apply last_Some in Ht as [l' Ht].
    assert (t ∈ filter (fun t' => raw_id t' = k)
                  (default [] (inc_tweets includes))) as Hin.
    { rewrite Ht. apply elem_of_app. right. left. }
    apply list_elem_of_filter in Hin as [? ?]. done.
Qed.

(** ** The merge of the orchestrators *)

Lemma newest_first_trans : Transitive (not_after newest_first).
Proof.
  intros a b c. unfold not_after, newest_first. intros Hab Hbc.
  by apply (localeCompare_trans _ (created b)).
Qed.

Lemma length_put (l : list EnrichedTweet) b : length l ≤ length (put l b) ≤ S (length l).
Proof.
  unfold put. destruct (decide _).
  - rewrite length_fmap. lia.
  - rewrite length_app. simpl. lia.
Qed.

Lemma length_foldl_put (l batch : list EnrichedTweet) :
  length l ≤ length (foldl put l batch) ≤ length l + length batch.
Proof.
  revert l. induction batch as [|b batch IH]; intros l; simpl; [lia|].
  specialize (IH (put l b)). pose proof (length_put l b). lia.
Qed.

Lemma mergeTweets_sorted existing fetched :
  Sorted (not_after newest_first) (mergeTweets existing fetched).
Proof.
  eapply (Sorted_Forall2 _ same_frame);
    [|apply assignThreadPositions_frame|apply merge_by_id_sorted].
  intros x x' y y' Hx Hy. unfold not_after, newest_first.
  by rewrite (same_frame_created _ _ Hx), (same_frame_created _ _ Hy).
Qed.

Lemma mergeTweets_NoDup existing fetched :
  NoDup (id <$> mergeTweets existing fetched).
Proof.
  unfold mergeTweets.
  rewrite <- (ids_frame _ _ (assignThreadPositions_frame _)).
  apply merge_by_id_NoDup.
Qed.

(** X6.  The merged archive holds every id of the file and of the batch
    once, is ordered newest first by [created_at], and is no longer than the
    two arrays together. *)
Theorem merged_archive_invariants (existing fetched : list EnrichedTweet) :
  let archive := mergeTweets existing fetched in
  NoDup (id <$> archive) ∧
  (∀ k, k ∈ id <$> archive ↔ k ∈ id <$> existing ∨ k ∈ id <$> fetched) ∧
  (∀ j1 j2 a b, j1 < j2 → archive !! j1 = Some a → archive !! j2 = Some b →
     localeCompare (created b) (created a) ≠ Gt) ∧
  length archive ≤ length existing + length fetched.
Proof.
  cbv zeta. split_and!.
  - apply mergeTweets_NoDup.
  - intros k. unfold mergeTweets.
    rewrite <- (ids_frame _ _ (assignThreadPositions_frame _)).
    rewrite merge_by_id_put, js_sort_perm, foldl_put_ids, fmap_app, elem_of_app.
    rewrite elem_of_nil. tauto.
  - intros j1 j2 a b Hlt Ha Hb.
    apply (StronglySorted_lookup (not_after newest_first)
             (mergeTweets existing fetched) j1 j2 a b); try done.
    apply Sorted_StronglySorted; [apply newest_first_trans|apply mergeTweets_sorted].
  - unfold mergeTweets.
    rewrite <- (Forall2_length _ _ _ (assignThreadPositions_frame _)).
    rewrite merge_by_id_put, js_sort_length.
    pose proof (length_foldl_put [] (existing ++ fetched)) as H.
    rewrite length_app in H. simpl in H. lia.
Qed.

Lemma put_has (l : list EnrichedTweet) b : b ∈ put l b.
Proof.
  unfold put. destruct (decide (id b ∈ id <$> l)) as [Hin|Hin].
  - apply list_elem_of_fmap in Hin as (v & Heq & Hv).
    apply list_elem_of_fmap. exists v. split; [|done].
    symmetry. by apply overwrite_same.
  - apply elem_of_app. right. left.
Qed.

Lemma put_keeps (l : list EnrichedTweet) x v :
  v ∈ l → id x ≠ id v → v ∈ put l x.
Proof.
  intros Hv Hne. unfold put. destruct (decide _).
  - apply list_elem_of_fmap. exists v. split; [|done].
    symmetry. apply overwrite_other. congruence.
  - apply elem_of_app. by left.
Qed.

Lemma foldl_put_keeps (l batch : list EnrichedTweet) v :
  v ∈ l → id v ∉ id <$> batch → v ∈ foldl put l batch.
Proof.
  revert l. induction batch as [|b batch IH]; intros l Hv; csimpl; [done|].
  intros [Hne Hin]%not_elem_of_cons. apply IH; [|done].
  apply put_keeps; [done|congruence].
Qed.

(** X7.  Of the tweets with one id in the file and the batch, the merge
    keeps the last one, so a fetched tweet replaces the tweet of the file
    with the same id; only its [thread_position] may differ from what was
    given. *)
Theorem merge_keeps_last
    (existing fetched l1 l2 : list EnrichedTweet) (x : EnrichedTweet) :
  existing ++ fetched = l1 ++ x :: l2 →
  id x ∉ id <$> l2 →
  ∃ v, v ∈ mergeTweets existing fetched ∧ same_frame x v ∧
       ∀ v', v' ∈ mergeTweets existing fetched → id v' = id x → v' = v.
Proof.
  intros Hsplit Hlast.
  assert (x ∈ merge_by_id existing fetched) as Hx.
  { rewrite merge_by_id_put, js_sort_elem_of, Hsplit.
    rewrite foldl_app. simpl. apply foldl_put_keeps; [apply put_has|done]. }
  apply list_elem_of_lookup in Hx as [i Hi].
  destruct (Forall2_lookup_l _ _ _ _ _
              (assignThreadPositions_frame (merge_by_id existing fetched)) Hi)
    as (v & Hv & Hxv).
  exists v. split; [by eapply list_elem_of_lookup_2|]. split; [done|].
  intros v' [j Hj]%list_elem_of_lookup Hid.
  assert (i = j) as ->; [|fold (mergeTweets existing fetched) in Hv; congruence].
  eapply (NoDup_lookup (id <$> mergeTweets existing fetched));
    [apply mergeTweets_NoDup| |].
  - rewrite list_lookup_fmap. unfold mergeTweets. by rewrite Hv.
  - rewrite list_lookup_fmap, Hj. simpl. f_equal.
    rewrite Hid. by apply same_frame_id.
Qed.

Lemma merge_keeps_last_witness :
  ∃ v, v ∈ mergeTweets [tie_existing] [sample_tweet "100" "2026-01-06T08:00:00.000Z" None None]
       ∧ created_at v = Some "2026-01-06T08:00:00.000Z".
Proof.
  destruct (merge_keeps_last [tie_existing]
              [sample_tweet "100" "2026-01-06T08:00:00.000Z" None None]
              [tie_existing] []
              (sample_tweet "100" "2026-01-06T08:00:00.000Z" None None)
              eq_refl) as (v & Hv & Hframe & _).
  - simpl. apply not_elem_of_nil.
  - exists v. split; [exact Hv|].
    unfold same_frame in Hframe. destruct v. simpl in *.
    injection Hframe. intros. by subst.
Defined.

Lemma merge_settled existing fetched :
  mergeTweets (mergeTweets existing fetched) [] = mergeTweets existing fetched.
Proof.
  unfold mergeTweets at 1. rewrite merge_by_id_put, app_nil_r.
  rewrite (foldl_put_fresh [] (mergeTweets existing fetched))
    by apply mergeTweets_NoDup.
  simpl. rewrite js_sort_id by apply mergeTweets_sorted.
  apply assign_again.
Qed.

(** X8.  Merging an empty batch into an archive that a merge has written
    gives the archive back. *)
Theorem merge_empty_batch (existing fetched : list EnrichedTweet) :
  mergeTweets (mergeTweets existing fetched) [] = mergeTweets existing fetched.
Proof. apply merge_settled. Qed.

(** X9.  The cumulative bookmark file (latest.json) is merged without the
    thread-position pass: the result holds each id once, as many tweets as
    there are distinct ids in the file and the batch, and merging the same
    batch again gives the same file. *)
Theorem latest_merge (existing fetched : list EnrichedTweet) :
  let merged := merge_by_id existing fetched in
  NoDup (id <$> merged) ∧
  length merged = length (remove_dups (id <$> existing ++ fetched)) ∧
  merge_by_id merged fetched = merged.
Proof.
  cbv zeta. split_and!.
  - apply merge_by_id_NoDup.
  - rewrite <- (length_fmap id (merge_by_id existing fetched)).
    apply Permutation_length, NoDup_Permutation;
      [apply merge_by_id_NoDup|apply NoDup_remove_dups|].
    intros k. rewrite elem_of_remove_dups.
    rewrite merge_by_id_put, js_sort_perm, foldl_put_ids, elem_of_nil. tauto.
  - rewrite (merge_by_id_put (merge_by_id existing fetched)), foldl_app.
    rewrite (foldl_put_fresh [] (merge_by_id existing fetched))
      by apply merge_by_id_NoDup.
    simpl. rewrite foldl_put_present by (intros b Hb; by apply merge_by_id_ids).
    assert (resolve fetched <$> merge_by_id existing fetched
            = merge_by_id existing fetched) as ->.
    { rewrite <- (list_fmap_id (merge_by_id existing fetched)) at 2.
      apply list_fmap_ext. intros i v Hv. simpl.
      eapply merge_by_id_stored, list_elem_of_lookup_2, Hv. }
    apply js_sort_id, merge_by_id_sorted.
Qed.

(** ** api.ts: the token check, rate limits, pagination *)

Lemma ensureValidToken_quiet config w :
  refresh_due config w = false → ensureValidToken config w = (Ok config, w).
Proof. intros H. unfold ensureValidToken. by rewrite H. Qed.

(** X10.  A token check that has just passed passes again without a
    request to the token endpoint, provided a token that was granted lives
    longer than the five minutes of margin: otherwise every call would
    refresh. *)
Theorem token_check_settles (config config' : Config) (w w' : World) :
  ensureValidToken config w = (Ok config', w') →
  (∀ g more, token_replies w = TokenGranted g :: more →
             (300 < grant_expires_in g)%Z) →
  ensureValidToken config' w' = (Ok config', w') ∧
  (refresh_due config w = true → config_file w' = config').
Proof.
  unfold ensureValidToken. destruct (refresh_due config w) eqn:Hdue.
  - unfold refreshToken, post_token.
    destruct (token_replies w) as [|[g|st text] more] eqn:Hr; simpl; try done.
    intros [= <- <-] Hlong. specialize (Hlong g more eq_refl).
    split; [|done].
    replace (refresh_due _ _) with false; [done|].
    symmetry. unfold refresh_due, now_seconds. simpl.
    apply andb_false_intro2, Z.leb_gt. lia.
  - intros [= <- <-] _. by rewrite Hdue.
Qed.

Lemma token_check_settles_witness :
  let checked := ensureValidToken sample_config sample_world_due in
  ∃ config', checked.1 = Ok config' ∧
             ensureValidToken config' checked.2 = (Ok config', checked.2).
Proof.
  intros checked.
  destruct (ensureValidToken sample_config sample_world_due) as [o w'] eqn:E.
  destruct o as [config'|e]; [|by vm_compute in E].
  exists config'. split; [reflexivity|].
  apply (token_check_settles sample_config config' sample_world_due w' E).
  intros g more [= <- <-]. reflexivity.
Defined.

Lemma refresh_not_due_later config w ms n :
  (0 ≤ ms ≤ 900000)%Z →
  (token_expires_at config = 0
   ∨ (clock w + 900000 * Z.of_nat (S n)) / 1000 < token_expires_at config - 300)%Z →
  (token_expires_at config = 0
   ∨ (clock w + ms + 900000 * Z.of_nat n) / 1000 < token_expires_at config - 300)%Z.
Proof.
  intros Hms [H0|Hlt]; [by left|right].
  eapply Z.le_lt_trans; [|exact Hlt]. apply Z.div_le_mono; lia.
Qed.

Lemma refresh_not_due_now config w n :
  (token_expires_at config = 0
   ∨ (clock w + 900000 * Z.of_nat n) / 1000 < token_expires_at config - 300)%Z →
  refresh_due config w = false.
Proof.
  intros [H0|Hlt]; unfold refresh_due.
  - rewrite H0. done.
  - apply andb_false_intro2, Z.leb_gt. unfold now_seconds.
    eapply Z.le_lt_trans; [|exact Hlt]. apply Z.div_le_mono; lia.
Qed.

(** X11.  Rate limits are retried without bound: after any number of 429
    answers the first other answer settles the call (a success returns its
    body, another status other than 401 is the error of the call).  One request
    was sent per answer, one sleep of 1 s to 15 min was made per 429, and the
    configuration is untouched.  (No token refresh falls due while the call
    waits.) *)
Theorem rate_limit_retried_until_clear
    (path : string) (params : list (string * string))
    (limited : list HttpResponse) (r : HttpResponse) (more : list HttpResponse)
    (w : World) :
  Forall (fun l => status l = 429%Z) limited →
  status r ≠ 429%Z → status r ≠ 401%Z →
  (token_expires_at (config_file w) = 0
   ∨ (clock w + 900000 * Z.of_nat (length limited)) / 1000
       < token_expires_at (config_file w) - 300)%Z →
  ∃ final waits,
    apiGet path params (limited ++ r :: more) w = (settle r, more, final) ∧
    api_log final
      = api_log w ++ replicate (S (length limited))
                       (mkRequest GET path params None
                                  (access_token (config_file w))) ∧
    sleeps final = sleeps w ++ waits ∧
    length waits = length limited ∧
    Forall (fun ms => 1000 ≤ ms ≤ 900000)%Z waits ∧
    config_file final = config_file w ∧
    token_log final = token_log w.
Proof.
  intros Hlimited H429 H401. revert w.
  induction Hlimited as [|l limited Hl _ IH]; intros w Hquiet.
  - change ([] ++ r :: more) with (r :: more).
    rewrite (apiGet_settled path params r more w (config_file w) w).
    + eexists _, []. split; [reflexivity|]. simpl.
      rewrite app_nil_r. split_and!; done.
    + apply ensureValidToken_quiet. by apply (refresh_not_due_now _ _ 0).
    + by apply Z.eqb_neq.
    + by apply Z.eqb_neq.
  - change ((l :: limited) ++ r :: more) with (l :: (limited ++ r :: more)).
    rewrite (apiGet_rate_limited path params l _ w (config_file w) w).
    + set (w2 := send _ w). set (ms := rate_limit_wait l w2).
      pose proof (rate_limit_wait_bounds l w2) as Hms. fold ms in Hms.
      destruct (IH (sleep ms w2)) as (final & waits & -> & Hlog & Hsl & Hlen & Hb & Hc & Ht).
      { simpl. apply refresh_not_due_later; [lia|]. exact Hquiet. }
      exists final, (ms :: waits). split; [reflexivity|].
      simpl in *. rewrite Hlog, Hsl, <- !app_assoc. simpl.
      split_and!; try done.
      * by rewrite Hlen.
      * by constructor.
    + apply ensureValidToken_quiet.
      by apply (refresh_not_due_now _ _ (length (l :: limited))).
    + done.
Qed.

Lemma rate_limit_retried_until_clear_witness :
  ∃ final,
    apiGet "/users/42/tweets" [] [sample_429; sample_429; sample_429; sample_200]
           sample_world_long
      = (Ok "{}", [], final) ∧
    length (sleeps final) = 3 ∧ length (api_log final) = 4.
Proof.
  destruct (rate_limit_retried_until_clear "/users/42/tweets" []
              [sample_429; sample_429; sample_429] sample_200 [] sample_world_long)
    as (final & waits & Hrun & Hlog & Hsl & Hlen & _).
  - repeat constructor.
  - discriminate.
  - discriminate.
  - right. reflexivity.
  - exists final. split; [exact Hrun|]. rewrite Hsl, Hlog. simpl.
    rewrite Hlen. split; reflexivity.
Defined.

(** ** [fetchAllPages] *)

Lemma merge_includes_get acc entries key :
  default [] (map_get key (merge_includes acc entries))
  = default [] (map_get key acc)
    ++ mjoin ((fun entry : string * list string =>
                 if decide (entry.1 = key) then entry.2 else []) <$> entries).
Proof.
  unfold merge_includes. revert acc.
  induction entries as [|[k items] entries IH]; intros acc; csimpl.
  - by rewrite app_nil_r.
  - rewrite IH. destruct (decide (k = key)) as [->|Hne].
    + rewrite map_get_set_eq. simpl. by rewrite <- app_assoc.
    + by rewrite map_get_set_ne.
Qed.

Lemma fetch_pages_collects {A} (before : list (Page A)) (last : Page A)
    (later : list (Outcome (Page A))) token (acc : Pages A) :
  Forall (fun json => truthy (pg_next_token json) = true) before →
  truthy (pg_next_token last) = false →
  ∃ result,
    fetch_pages ((Ok <$> before) ++ Ok last :: later) token acc = (Ok result, later) ∧
    all_data result
      = all_data acc ++ mjoin ((fun json => default [] (pg_data json)) <$> before ++ [last]) ∧
    requested result
      = requested acc ++ (if truthy token then token else None)
                         :: (pg_next_token <$> before) ∧
    ∀ key, default [] (map_get key (all_includes result))
           = default [] (map_get key (all_includes acc))
             ++ mjoin (included_under key <$> before ++ [last]).
Proof.
  intros Hbefore Hlast. revert token acc.
  induction Hbefore as [|json before Hnext _ IH]; intros token acc; csimpl.
  - rewrite Hlast. eexists. split; [reflexivity|]. simpl.
    rewrite !app_nil_r. split_and!; [done|done|].
    intros key. unfold included_under.
    destruct (pg_includes last); simpl; rewrite ?app_nil_r;
      [apply merge_includes_get|done].
  - rewrite Hnext.
    match goal with
    | |- context [fetch_pages _ _ ?acc'] =>
        destruct (IH (pg_next_token json) acc') as (result & -> & Hd & Hr & Hi)
    end.
    eexists. split; [reflexivity|]. simpl in *.
    rewrite Hd, Hr, Hnext, <- !app_assoc. split_and!; [done|done|].
    intros key. rewrite Hi. unfold included_under at 2.
    destruct (pg_includes json); simpl.
    + by rewrite merge_includes_get, <- app_assoc.
    + done.
Qed.

Lemma fetch_pages_fails {A} (before : list (Page A)) (e : Error)
    (later : list (Outcome (Page A))) token (acc : Pages A) :
  Forall (fun json => truthy (pg_next_token json) = true) before →
  fetch_pages ((Ok <$> before) ++ Err e :: later) token acc = (Err e, later).
Proof.
  intros Hbefore. revert token acc.
  induction Hbefore as [|json before Hnext _ IH]; intros token acc; csimpl; [done|].
  by rewrite Hnext.
Qed.

(** X12.  [fetchAllPages] follows [next_token] to the first page without
    one: its data are the data of these pages in order, each key of the
    includes holds the objects the pages carried under it in order, the
    first call is made without [pagination_token] and each later one with
    the token of the page before, and no call is made after the last page.
    When a call throws, the error leaves the function and what was collected
    is not returned. *)
Theorem fetchAllPages_collects {A : Type}
    (before : list (Page A)) (last : Page A) (e : Error)
    (later : list (Outcome (Page A))) :
  Forall (fun json => truthy (pg_next_token json) = true) before →
  truthy (pg_next_token last) = false →
  (∃ result,
     fetchAllPages ((Ok <$> before) ++ Ok last :: later) = (Ok result, later) ∧
     all_data result
       = mjoin ((fun json => default [] (pg_data json)) <$> before ++ [last]) ∧
     requested result = None :: (pg_next_token <$> before) ∧
     ∀ key, default [] (map_get key (all_includes result))
            = mjoin (included_under key <$> before ++ [last])) ∧
  fetchAllPages ((Ok <$> before) ++ Err e :: later) = (Err e, later).
Proof.
  intros Hbefore Hlast. split.
  - destruct (fetch_pages_collects before last later None (mkPages [] [] [])
                Hbefore Hlast) as (result & Hrun & Hd & Hr & Hi).
    exists result. split; [exact Hrun|]. split_and!; [done|done|].
    intros key. by rewrite Hi.
  - by apply fetch_pages_fails.
Qed.

Lemma fetchAllPages_collects_witness :
  ∃ result,
    fetchAllPages [Ok (sample_following_page ["1"; "2"] (Some "t1"));
                   Ok (sample_following_page ["3"] None);
                   Ok (sample_following_page ["4"] None)]
      = (Ok result, [Ok (sample_following_page ["4"] None)]) ∧
    all_data result = ["1"; "2"; "3"] ∧
    requested result = [None; Some "t1"].
Proof.
  destruct (fetchAllPages_collects
              [sample_following_page ["1"; "2"] (Some "t1")]
              (sample_following_page ["3"] None) FetchFailed
              [Ok (sample_following_page ["4"] None)])
    as [(result & Hrun & Hd & Hr & _) _].
  - repeat constructor.
  - reflexivity.
  - exists result. split; [exact Hrun|]. split; [exact Hd|exact Hr].
Defined.

(** ** fetch-my-tweets.ts: the cursor *)

Lemma foldl_larger_id_None BigInt ids : foldl (larger_id BigInt) None ids = None.
Proof. by induction ids. Qed.

Lemma foldl_larger_id BigInt (ids : list string) (m : string) (vm : Z) :
  BigInt m = Some vm →
  Forall (fun t => is_Some (BigInt t)) ids →
  ∃ m' vm', foldl (larger_id BigInt) (Some m) ids = Some m' ∧
    BigInt m' = Some vm' ∧ (m' = m ∨ m' ∈ ids) ∧ (vm ≤ vm')%Z ∧
    ∀ t vt, t ∈ ids → BigInt t = Some vt → (vt ≤ vm')%Z.
Proof.
  intros Hm Hids. revert m vm Hm.
  induction Hids as [|t ids [vt Ht] _ IH]; intros m vm Hm; csimpl.
  - exists m, vm. split_and!; [done|done|by left|lia|].
    intros t vt Hin. by apply elem_of_nil in Hin.
  - rewrite Ht, Hm. destruct (Z.ltb_spec vm vt) as [Hlt|Hge].
    + destruct (IH t vt Ht) as (m' & vm' & -> & Hm' & Hin & Hle & Hmax).
      exists m', vm'. split_and!; try done.
      * right. destruct Hin as [->|Hin]; [left|by right].
      * lia.
      * intros t' vt' [->|Hin']%elem_of_cons Hvt'; [|by eapply Hmax].
        assert (vt' = vt) by congruence. lia.
    + destruct (IH m vm Hm) as (m' & vm' & -> & Hm' & Hin & Hle & Hmax).
      exists m', vm'. split_and!; try done.
      * destruct Hin as [->|Hin]; [by left|right; by right].
      * intros t' vt' [->|Hin']%elem_of_cons Hvt'; [|by eapply Hmax].
        assert (vt' = vt) by congruence. lia.
Qed.

(** X13.  [loadSinceId] returns an id of the archive whose numeric value is
    the largest, whatever the order of the archive; it returns no cursor
    for an archive that is missing or empty, or when an id is not a
    number. *)
Theorem loadSinceId_max (BigInt : string → option Z) (ids : list string) :
  (ids ≠ [] → Forall (fun t => is_Some (BigInt t)) ids →
   ∃ m vm, loadSinceId BigInt (Some ids) = Some m ∧ m ∈ ids ∧
     BigInt m = Some vm ∧
     ∀ t vt, t ∈ ids → BigInt t = Some vt → (vt ≤ vm)%Z) ∧
  ((∃ t, t ∈ ids ∧ BigInt t = None) → loadSinceId BigInt (Some ids) = None) ∧
  loadSinceId BigInt (Some []) = None ∧ loadSinceId BigInt None = None.
Proof.
  split_and!; [| |done|done].
  - intros Hne Hall. destruct ids as [|first rest]; [done|].
    pose proof Hall as Hall'. apply Forall_cons in Hall' as [[vf Hf] _].
    destruct (foldl_larger_id BigInt (first :: rest) first vf Hf Hall)
      as (m & vm & Hrun & Hm & Hin & _ & Hmax).
    exists m, vm. split_and!; try done.
    destruct Hin as [->|Hin]; [left|done].
  - intros (t & Hin & Ht). destruct ids as [|first rest]; [done|].
    unfold loadSinceId.
    apply list_elem_of_split in Hin as (l1 & l2 & Heq). rewrite Heq.
    rewrite foldl_app. simpl.
    destruct (foldl (larger_id BigInt) (Some first) l1) as [m|]; simpl.
    + rewrite Ht. apply foldl_larger_id_None.
    + apply foldl_larger_id_None.
Qed.

Lemma loadSinceId_max_witness :
  loadSinceId sample_BigInt (Some ["101"; "99"; "1000"; "250"]) = Some "1000".
Proof.
  destruct (loadSinceId_max sample_BigInt ["101"; "99"; "1000"; "250"])
    as (Hmax & _).
  destruct Hmax as (m & vm & -> & Hin & Hm & Hall); [discriminate| |].
  - repeat constructor; by eexists.
  - f_equal.
    assert (1000 ≤ vm)%Z as Hbig
      by (apply (Hall "1000"); [right; right; left|reflexivity]).
    repeat (apply elem_of_cons in Hin as [->|Hin];
            [vm_compute in Hm; injection Hm as <-; first [reflexivity|lia]|]).
    by apply elem_of_nil in Hin.
Defined.

(** ** Followed accounts: the counters and the daily file *)

Section following_runs.
Context (api : string → list (string * string) → Outcome TimelineJson).
Context (maxResults : string).

Lemma sync_user_counters s u :
  let s' := sync_user api maxResults s u in
  newUsers s' = newUsers s + (if is_new_user s u then 1 else 0) ∧
  newTweets s' = newTweets s + fetched_count api maxResults s u ∧
  errors s' = errors s + (if call_returns api maxResults s u then 0 else 1).
Proof.
  unfold sync_user, is_new_user, fetched_count, call_returns, fetch_of.
  destruct (api _ _); destruct (truthy (sinceIds s !! fu_id u)); simpl;
    refine (conj _ (conj _ _)); lia.
Qed.

Lemma sync_user_entry s u :
  existingData (sync_user api maxResults s u) !! fu_id u
  = (if call_returns api maxResults s u
     then existingData (sync_user api maxResults s u) !! fu_id u
     else existingData s !! fu_id u) ∧
  (call_returns api maxResults s u = true →
   ∃ r, existingData (sync_user api maxResults s u) !! fu_id u = Some r ∧
        ut_user_id r = fu_id u ∧ ut_username r = fu_username u).
Proof.
  unfold sync_user, call_returns, fetch_of.
  destruct (api _ _); simpl; split; try done.
  intros _. rewrite lookup_insert_eq. by eexists.
Qed.

Lemma loop_counters users s0 s :
  NoDup (fu_id <$> users) →
  (∀ u, u ∈ users → sinceIds s !! fu_id u = sinceIds s0 !! fu_id u) →
  let s' := fetchFollowingTweets api maxResults users s in
  newUsers s'
    = newUsers s + length (filter (fun u => is_new_user s0 u = true) users) ∧
  newTweets s'
    = newTweets s + sum_list (fetched_count api maxResults s0 <$> users) ∧
  errors s'
    = errors s
      + length (filter (fun u => call_returns api maxResults s0 u = false) users).
Proof.
  intros Hnd. revert s.
  induction users as [|a rest IH]; intros s Hloc;
    cbv zeta; unfold fetchFollowingTweets; csimpl.
  - rewrite !Nat.add_0_r. done.
  - csimpl in Hnd. apply NoDup_cons in Hnd as [Ha Hnd].
    destruct (IH Hnd (sync_user api maxResults s a)) as (H1 & H2 & H3).
    { intros u Hu.
      destruct (sync_user_other api maxResults s a (fu_id u)) as [-> _].
      - intros Heq. apply Ha. rewrite Heq. by apply list_elem_of_fmap_2.
      - apply Hloc. by right. }
    unfold fetchFollowingTweets in H1, H2, H3. rewrite H1, H2, H3.
    destruct (sync_user_counters s a) as (C1 & C2 & C3).
    rewrite C1, C2, C3.
    assert (sinceIds s !! fu_id a = sinceIds s0 !! fu_id a) as Hs by (apply Hloc; left).
    assert (is_new_user s a = is_new_user s0 a) as ->
      by (unfold is_new_user; by rewrite Hs).
    assert (fetched_count api maxResults s a = fetched_count api maxResults s0 a) as ->
      by (unfold fetched_count, fetch_of; by rewrite Hs).
    assert (call_returns api maxResults s a = call_returns api maxResults s0 a) as ->
      by (unfold call_returns, fetch_of; by rewrite Hs).
    rewrite !filter_cons.
    destruct (is_new_user s0 a); destruct (call_returns api maxResults s0 a);
      simpl; lia.
Qed.

Lemma length_filter_bool {A : Type} (f : A → bool) (l : list A) :
  length (filter (fun x => f x = false) l) + length (filter (fun x => f x = true) l)
  = length l.
Proof.
  induction l as [|a l IH]; [done|].
  rewrite !filter_cons. destruct (f a); simpl in *; lia.
Qed.

(** X14.  The counters of the summary, for accounts with distinct ids and
    any number of failing calls: "new" counts the accounts without a cursor
    when the run starts, whether their call fails or not; "new tweets" adds
    up the lengths of the answers of the calls that return; "errors" counts
    the calls that throw; every account is either counted as an error or has
    an entry written. *)
Theorem following_counters (users : list FollowedUser) (s : SyncState) :
  NoDup (fu_id <$> users) →
  let s' := fetchFollowingTweets api maxResults users s in
  newUsers s'
    = newUsers s + length (filter (fun u => is_new_user s u = true) users) ∧
  newTweets s'
    = newTweets s + sum_list (fetched_count api maxResults s <$> users) ∧
  errors s'
    = errors s
      + length (filter (fun u => call_returns api maxResults s u = false) users) ∧
  (errors s' - errors s)
    + length (filter (fun u => call_returns api maxResults s u = true) users)
    = length users.
Proof.
  intros Hnd s'.
  destruct (loop_counters users s s Hnd) as (H1 & H2 & H3); [done|].
  fold s' in H1, H2, H3. split_and!; [done|done|done|].
  rewrite H3.
  pose proof (length_filter_bool (call_returns api maxResults s) users). lia.
Qed.

Lemma omap_results (s' : SyncState) (users : list FollowedUser)
    (kept : FollowedUser → bool) :
  (∀ u, u ∈ users →
     if kept u
     then ∃ r, existingData s' !! fu_id u = Some r ∧ ut_user_id r = fu_id u
     else existingData s' !! fu_id u = None) →
  ut_user_id <$> daily_results users s'
  = fu_id <$> filter (fun u => kept u = true) users.
Proof.
  unfold daily_results. induction users as [|a rest IH]; intros Hall; [done|].
  csimpl. rewrite filter_cons.
  pose proof (Hall a ltac:(left)) as Ha.
  destruct (kept a); simpl.
  - destruct Ha as (r & -> & Hr). csimpl. rewrite Hr. f_equal.
    apply IH. intros u Hu. apply Hall. by right.
  - rewrite Ha. apply IH. intros u Hu. apply Hall. by right.
Qed.

(** X15.  The daily file is rewritten from the list of accounts: its
    [results] are, in the order of the list, the accounts whose call
    returned or that had an entry in the file before the run.  An entry of
    the earlier file for an account that is not in the list any more is not
    written back, and an account without entry whose call throws gets
    none. *)
Theorem daily_results_accounts (users : list FollowedUser) (s : SyncState) :
  NoDup (fu_id <$> users) →
  (∀ k r, existingData s !! k = Some r → ut_user_id r = k) →
  let s' := fetchFollowingTweets api maxResults users s in
  ut_user_id <$> daily_results users s'
  = fu_id <$> filter (fun u => call_returns api maxResults s u
                               || bool_decide (is_Some (existingData s !! fu_id u))
                               = true) users.
Proof.
  intros Hnd Hkeyed. cbv zeta. apply omap_results. intros u Hu.
  destruct (loop_result api maxResults users s Hnd) as (_ & _ & Hown).
  destruct (Hown u Hu) as [_ ->].
  destruct (sync_user_entry s u) as [Hentry Hwritten].
  destruct (call_returns api maxResults s u); simpl.
  - destruct (Hwritten eq_refl) as (r & Hr & Hid & _). by exists r.
  - rewrite Hentry. destruct (existingData s !! fu_id u) as [r|] eqn:E.
    + rewrite bool_decide_eq_true_2 by done. exists r. split; [done|].
      by apply Hkeyed.
    + rewrite bool_decide_eq_false_2; [done|]. by intros [? ?].
Qed.

End following_runs.

Lemma following_counters_witness :
  let s := fetchFollowingTweets sample_api "10"
             [sample_user; sample_user_b; sample_user_c] tie_state in
  newUsers s = 2 ∧ newTweets s = 2 ∧ errors s = 1.
Proof.
  destruct (following_counters sample_api "10"
              [sample_user; sample_user_b; sample_user_c] tie_state)
    as (H1 & H2 & H3 & _).
  - simpl. repeat (constructor; [absent_from_list|]). constructor.
  - cbv zeta. rewrite H1, H2, H3. by vm_compute.
Defined.

Lemma daily_results_accounts_witness :
  ut_user_id <$> daily_results [sample_user; sample_user_b; sample_user_c]
                   (fetchFollowingTweets sample_api "10"
                      [sample_user; sample_user_b; sample_user_c] tie_state)
  = ["42"; "44"].
Proof.
  rewrite (daily_results_accounts sample_api "10"
             [sample_user; sample_user_b; sample_user_c] tie_state).
  - by vm_compute.
  - simpl. repeat (constructor; [absent_from_list|]). constructor.
  - intros k r Hr. unfold tie_state in Hr. simpl in Hr.
    apply lookup_singleton_Some in Hr as [<- <-]. reflexivity.
Defined.

Lemma classify_page_empty authorId json :
  default [] (json_data json) = [] → classify_page authorId json = [].
Proof.
  intros H. unfold classify_page. rewrite H.
  by destruct (buildIncludesMaps (json_includes json)).
Qed.

Lemma cursor_settled (since : option string) (merged : list EnrichedTweet) :
  let cursor :=
    if truthy (latest_id since merged) then latest_id since merged else since in
  (if truthy (latest_id cursor merged) then latest_id cursor merged else cursor)
  = cursor.
Proof.
  destruct merged as [|t rest]; simpl.
  - destruct (truthy since) eqn:E; simpl; rewrite ?E; simpl; by rewrite ?E.
  - destruct (id t) as [|c i]; simpl; [|done].
    destruct (truthy since) eqn:E; simpl; by rewrite ?E.
Qed.

(** X16.  A run in which the call for an account returns nothing new
    leaves the account as the run before has left it, when the call of that
    run had returned: the same tweets with the same thread positions in the
    daily file and the same cursor.  (The second run starts from any state
    that holds for the accounts of the list what the first one wrote.) *)
Theorem following_quiet_rerun
    (api1 api2 : string → list (string * string) → Outcome TimelineJson)
    (maxResults : string) (users : list FollowedUser) (s r : SyncState)
    (u : FollowedUser) (json1 json2 : TimelineJson) :
  NoDup (fu_id <$> users) →
  u ∈ users →
  let s1 := fetchFollowingTweets api1 maxResults users s in
  sinceIds r !! fu_id u = sinceIds s1 !! fu_id u →
  existingData r !! fu_id u = existingData s1 !! fu_id u →
  fetch_of api1 maxResults s u = Ok json1 →
  fetch_of api2 maxResults r u = Ok json2 →
  default [] (json_data json2) = [] →
  let s2 := fetchFollowingTweets api2 maxResults users r in
  ut_tweets <$> existingData s2 !! fu_id u = ut_tweets <$> existingData s1 !! fu_id u ∧
  sinceIds s2 !! fu_id u = sinceIds s1 !! fu_id u.
Proof.
  intros Hnd Hu s1 Hsince Hdata Hfirst Hsecond Hquiet s2.
  destruct (loop_result api1 maxResults users s Hnd) as (_ & _ & Hown1).
  destruct (Hown1 u Hu) as [Hc1 He1]. fold s1 in Hc1, He1.
  destruct (loop_result api2 maxResults users r Hnd) as (_ & _ & Hown2).
  destruct (Hown2 u Hu) as [Hc2 He2]. fold s2 in Hc2, He2.
  destruct (sync_user_fetched api1 maxResults s u json1 Hfirst) as (Ht1 & Hs1 & _).
  destruct (sync_user_fetched api2 maxResults r u json2 Hsecond) as (Ht2 & Hs2 & _).
  cbv zeta in Ht1, Hs1, Ht2, Hs2.
  rewrite <- He1 in Ht1. rewrite <- Hc1 in Hs1.
  rewrite <- He2 in Ht2. rewrite <- Hc2 in Hs2.
  rewrite classify_page_empty in Ht2, Hs2 by done.
  rewrite Hdata in Ht2, Hs2. rewrite Hsince in Hs2.
  destruct (existingData s1 !! fu_id u) as [entry|]; [|done].
  simpl in Ht1, Ht2, Hs2. injection Ht1 as Ht1.
  rewrite Ht1 in Ht2. rewrite Ht1 in Hs2.
  rewrite merge_settled in Ht2. rewrite merge_settled in Hs2.
  split.
  - simpl. by rewrite Ht2, Ht1.
  - rewrite Hs2, Hs1. apply cursor_settled.
Qed.

Lemma following_quiet_rerun_witness :
  let quiet := fun (_ : string) (_ : list (string * string)) =>
                 Ok (mkJson None None None) in
  let users := [sample_user; sample_user_b; sample_user_c] in
  let s1 := fetchFollowingTweets sample_api "10" users tie_state in
  let s2 := fetchFollowingTweets quiet "10" users s1 in
  ut_tweets <$> existingData s2 !! "42" = ut_tweets <$> existingData s1 !! "42" ∧
  sinceIds s2 !! "42" = sinceIds s1 !! "42".
Proof.
  intros quiet users s1 s2.
  apply (following_quiet_rerun sample_api quiet "10" users tie_state s1
           sample_user (mkJson (Some [tie_fetched]) None None)
           (mkJson None None None)).
  - simpl. repeat (constructor; [absent_from_list|]). constructor.
  - left.
  - reflexivity.
  - reflexivity.
  - reflexivity.
  - reflexivity.
  - reflexivity.
Defined.

(** ** Bookmarks: the page loop in general, and the run *)

Lemma scan_page_inv last_id tweets collected :
  ∃ taken hit,
    scan_page last_id tweets collected = (collected ++ taken, hit) ∧
    taken `prefix_of` tweets ∧
    (hit = false → taken = tweets) ∧
    (hit = true → truthy last_id = true ∧
       ∃ t rest, tweets = taken ++ t :: rest ∧ Some (raw_id t) = last_id) ∧
    (∀ known, last_id = Some known → known ≠ "" → known ∉ raw_id <$> taken).
Proof.
  revert collected. induction tweets as [|t rest IH]; intros collected; simpl.
  - exists [], false. rewrite app_nil_r.
    split_and!; [done|done|done|done|]. intros known _ _. apply not_elem_of_nil.
  - destruct (truthy last_id) eqn:Htruthy; simpl.
    + destruct (bool_decide (Some (raw_id t) = last_id)) eqn:Hknown.
      * apply bool_decide_eq_true in Hknown.
        exists [], true. rewrite app_nil_r.
        split_and!; [done|apply prefix_nil|done| |].
        -- intros _. split; [done|]. by exists t, rest.
        -- intros known _ _. apply not_elem_of_nil.
      * apply bool_decide_eq_false in Hknown.
        destruct (IH (collected ++ [t])) as (taken & hit & -> & Hp & Hall & Hhit & Hnot).
        exists (t :: taken), hit. rewrite <- app_assoc.
        split_and!; [done|by apply prefix_cons| | |].
        -- intros Hf. by rewrite (Hall Hf).
        -- intros Ht. destruct (Hhit Ht) as (_ & t' & rest' & -> & Hid).
           split; [done|]. by exists t', rest'.
        -- intros known -> Hne. csimpl. apply not_elem_of_cons. split.
           ++ intros ->. by apply Hknown.
           ++ by apply Hnot.
    + destruct (IH (collected ++ [t])) as (taken & hit & -> & Hp & Hall & Hhit & Hnot).
      exists (t :: taken), hit. rewrite <- app_assoc.
      split_and!; [done|by apply prefix_cons| | |].
      * intros Hf. by rewrite (Hall Hf).
      * intros Ht. by destruct (Hhit Ht) as [? _].
      * intros known -> Hne. by destruct known.
Qed.

Lemma fetch_bookmark_pages_inv last_id answers st st' later :
  fetch_bookmark_pages last_id answers st = (Ok st', later) →
  ∃ before last taken,
    answers = (Ok <$> before ++ [last]) ++ later ∧
    Forall page_continues before ∧
    newBookmarks st' = newBookmarks st ++ mjoin (page_tweets <$> before) ++ taken ∧
    taken `prefix_of` page_tweets last ∧
    (hitKnown st' = false → taken = page_tweets last) ∧
    (hitKnown st' = false →
       page_tweets last = [] ∨ truthy (json_next_token last) = false) ∧
    (hitKnown st' = true →
       (hitKnown st = true ∧ before = [] ∧ page_tweets last = []) ∨
       (truthy last_id = true ∧
        ∃ t rest, page_tweets last = taken ++ t :: rest ∧ Some (raw_id t) = last_id)) ∧
    (∀ known, last_id = Some known → known ≠ "" →
       known ∉ raw_id <$> mjoin (page_tweets <$> before) ++ taken) ∧
    page st' = page st + S (length before) ∧
    allIncludesTweets st'
      = allIncludesTweets st
        ++ mjoin ((fun json => default [] (json_includes json ≫= inc_tweets))
                  <$> before ++ [last]) ∧
    allIncludesUsers st'
      = allIncludesUsers st
        ++ mjoin ((fun json => default [] (json_includes json ≫= inc_users))
                  <$> before ++ [last]).
Proof.
  revert st. induction answers as [|[json|e] answers IH]; intros st; simpl;
    [done| |done].
  destruct (default [] (json_data json)) as [|d ds] eqn:Hdata.
  - intros [= <- <-]. exists [], json, []. unfold page_tweets. rewrite Hdata. simpl.
    rewrite !app_nil_r.
    split_and!; try done; [by left|by left|intros; apply not_elem_of_nil|lia].
  - rewrite <- Hdata.
    destruct (scan_page_inv last_id (default [] (json_data json)) (newBookmarks st))
      as (taken & hit & -> & Hp & Hall & Hhit & Hnot).
    destruct hit; simpl.
    + intros [= <- <-]. exists [], json, taken. simpl. rewrite !app_nil_r.
      split_and!; try done; [|lia].
      intros _. right. by apply Hhit.
    + specialize (Hall eq_refl). subst taken.
      destruct (truthy (json_next_token json)) eqn:Hnext.
      * intros Hrun. apply IH in Hrun
          as (before & last & taken & -> & Hb & Hnew & Hp' & Hall' & Hend & Hhit' & Hnot'
              & Hpage & Hit & Hiu).
        simpl in *. exists (json :: before), last, taken. csimpl.
        split_and!; try done.
        -- constructor; [|done]. split; [|done]. unfold page_tweets.
           rewrite Hdata. done.
        -- rewrite Hnew. unfold page_tweets at 2. by rewrite <- !app_assoc.
        -- intros Ht. destruct (Hhit' Ht) as [(? & _)|?]; [done|by right].
        -- intros known Hk Hne. rewrite <- app_assoc, fmap_app.
           apply not_elem_of_app. split; [by eapply Hnot|by eapply Hnot'].
        -- lia.
        -- by rewrite Hit, <- !app_assoc.
        -- by rewrite Hiu, <- !app_assoc.
      * intros [= <- <-]. exists [], json, (default [] (json_data json)). simpl.
        rewrite !app_nil_r.
        split_and!; try done; [by right|lia].
Qed.

(** X17.  Whatever the API answers, when the page loop of the incremental
    sync returns it has asked for one page after the other while pages had
    tweets and a next token, and has collected every tweet of the pages
    before the last one it asked for and the tweets at the front of that
    page; a stored id (not empty) is never among the collected tweets; the
    loop ended on the stored id, on a page without tweets or on a page
    without next token; and the includes of every page asked for are kept,
    those of the page of the stored id too. *)
Theorem bookmark_loop_invariant
    (last_id : option string) (answers : list (Outcome TimelineJson))
    (st st' : BookmarkLoop) (later : list (Outcome TimelineJson)) :
  fetch_bookmark_pages last_id answers st = (Ok st', later) →
  hitKnown st = false →
  ∃ before last taken,
    answers = (Ok <$> before ++ [last]) ++ later ∧
    Forall page_continues before ∧
    newBookmarks st' = newBookmarks st ++ mjoin (page_tweets <$> before) ++ taken ∧
    taken `prefix_of` page_tweets last ∧
    (∀ known, last_id = Some known → known ≠ "" →
       known ∉ raw_id <$> mjoin (page_tweets <$> before) ++ taken) ∧
    (if hitKnown st'
     then ∃ t rest, page_tweets last = taken ++ t :: rest ∧ Some (raw_id t) = last_id
     else taken = page_tweets last ∧
          (page_tweets last = [] ∨ truthy (json_next_token last) = false)) ∧
    page st' = page st + S (length before) ∧
    allIncludesTweets st'
      = allIncludesTweets st
        ++ mjoin ((fun json => default [] (json_includes json ≫= inc_tweets))
                  <$> before ++ [last]).
Proof.
  intros Hrun Hfresh.
  apply fetch_bookmark_pages_inv in Hrun
    as (before & last & taken & Ha & Hb & Hnew & Hp & Hall & Hend & Hhit & Hnot
        & Hpage & Hit & _).
  exists before, last, taken. split_and!; try done.
  destruct (hitKnown st') eqn:E.
  - destruct (Hhit eq_refl) as [(Hst & _)|(_ & Hfound)]; [congruence|done].
  - split; [by apply Hall|by apply Hend].
Qed.

Lemma bookmark_loop_invariant_witness :
  ∃ st' before last,
    fetch_bookmark_pages (Some "205")
      [Ok sample_page_1; Ok sample_page_2; Ok sample_page_3] empty_loop
      = (Ok st', [Ok sample_page_3]) ∧
    [Ok sample_page_1; Ok sample_page_2; Ok sample_page_3]
      = (Ok <$> before ++ [last]) ++ [Ok sample_page_3] ∧
    "205" ∉ raw_id <$> newBookmarks st'.
Proof.
  destruct (fetch_bookmark_pages (Some "205")
              [Ok sample_page_1; Ok sample_page_2; Ok sample_page_3] empty_loop)
    as [[st'|e] later] eqn:Hrun; [|by vm_compute in Hrun].
  assert (later = [Ok sample_page_3]) as ->.
  { vm_compute in Hrun. injection Hrun as _ <-. reflexivity. }
  destruct (bookmark_loop_invariant _ _ _ _ _ Hrun eq_refl)
    as (before & last & taken & Ha & _ & Hnew & _ & Hnot & _).
  exists st', before, last. split; [done|]. split; [exact Ha|].
  rewrite Hnew. simpl. by apply Hnot.
Defined.

Lemma scan_page_no_cursor last_id tweets collected :
  truthy last_id = false →
  scan_page last_id tweets collected = (collected ++ tweets, false).
Proof.
  intros Hf. revert collected.
  induction tweets as [|t rest IH]; intros collected; simpl.
  - by rewrite app_nil_r.
  - rewrite Hf. simpl. by rewrite IH, <- app_assoc.
Qed.

(** X18.  Without a stored id (the first run, or an empty [last_id]) the
    page loop collects every tweet of every page up to the first page that
    has no tweets or no next token, asks for nothing after it, and reports
    that no known bookmark was met. *)
Theorem bookmarks_first_run
    (last_id : option string) (before : list TimelineJson) (last : TimelineJson)
    (later : list (Outcome TimelineJson)) (st : BookmarkLoop) :
  truthy last_id = false →
  hitKnown st = false →
  Forall page_continues before →
  page_tweets last = [] ∨ truthy (json_next_token last) = false →
  ∃ st',
    fetch_bookmark_pages last_id ((Ok <$> before) ++ Ok last :: later) st
      = (Ok st', later) ∧
    newBookmarks st'
      = newBookmarks st ++ mjoin (page_tweets <$> before ++ [last]) ∧
    hitKnown st' = false ∧
    page st' = page st + length before + 1.
Proof.
  intros Hf Hfresh Hbefore Hlast. revert st Hfresh.
  induction Hbefore as [|json before [Hdata Hnext] _ IH]; intros st Hfresh; csimpl.
  - unfold page_tweets in *.
    destruct (default [] (json_data last)) as [|d ds] eqn:E.
    + eexists. split; [reflexivity|]. simpl. rewrite !app_nil_r.
      split_and!; [done|done|lia].
    + rewrite <- E. rewrite scan_page_no_cursor by done. simpl.
      destruct Hlast as [?| ->]; [done|].
      eexists. split; [reflexivity|]. simpl. rewrite !app_nil_r.
      split_and!; [done|done|lia].
  - unfold page_tweets in Hdata.
    destruct (default [] (json_data json)) as [|d ds] eqn:E; [done|].
    rewrite <- E. rewrite scan_page_no_cursor by done. simpl. rewrite Hnext.
    edestruct IH as (st' & -> & Hnew & Hhk & Hpage); [done|].
    eexists. split; [reflexivity|]. simpl in *.
    rewrite Hnew, Hpage. unfold page_tweets at 3.
    split_and!; [by rewrite <- !app_assoc|done|lia].
Qed.

Lemma bookmarks_first_run_witness :
  ∃ st',
    fetch_bookmark_pages None
      [Ok sample_page_1; Ok sample_page_2; Ok sample_page_3] empty_loop
      = (Ok st', []) ∧
    raw_id <$> newBookmarks st'
      = ["209"; "208"; "207"; "206"; "205"; "204"; "203"] ∧
    page st' = 3.
Proof.
  destruct (bookmarks_first_run None [sample_page_1; sample_page_2] sample_page_3
              [] empty_loop)
    as (st' & Hrun & Hnew & _ & Hpage).
  - reflexivity.
  - reflexivity.
  - repeat constructor; discriminate.
  - right. reflexivity.
  - exists st'. split; [exact Hrun|]. split; [by rewrite Hnew|exact Hpage].
Defined.

(** *** The daily merge and the objects it shares with latest.json *)

Lemma sort_insert_Forall2 {A B} (P : A → B → Prop)
    (cmpA : A → A → comparison) (cmpB : B → B → comparison) x x' s s' :
  (∀ a a' b b', P a a' → P b b' → cmpA a b = cmpB a' b') →
  P x x' → Forall2 P s s' →
  Forall2 P (sort_insert cmpA x s) (sort_insert cmpB x' s').
Proof.
  intros Hcmp Hx Hs. induction Hs as [|y y' s s' Hy Hs IH]; simpl.
  - by repeat constructor.
  - rewrite (Hcmp x x' y y') by done.
    destruct (cmpB x' y'); repeat constructor; done.
Qed.

Lemma js_sort_Forall2 {A B} (P : A → B → Prop)
    (cmpA : A → A → comparison) (cmpB : B → B → comparison) l l' :
  (∀ a a' b b', P a a' → P b b' → cmpA a b = cmpB a' b') →
  Forall2 P l l' → Forall2 P (js_sort cmpA l) (js_sort cmpB l').
Proof.
  intros Hcmp Hl. induction Hl as [|x x' l l' Hx Hl IH]; simpl; [done|].
  by apply sort_insert_Forall2.
Qed.

Lemma map_set_values {V} k (r : V) (m : JsMap V) :
  NoDup m.*2 → r ∉ m.*2 →
  NoDup (map_set k r m).*2 ∧ ∀ x, x ∈ (map_set k r m).*2 → x = r ∨ x ∈ m.*2.
Proof.
  induction m as [|[k' r'] m IH]; csimpl.
  - intros _ _. split; [apply NoDup_singleton|].
    intros x ->%list_elem_of_singleton. by left.
  - intros [Hr' Hnd]%NoDup_cons [Hne Hnotin]%not_elem_of_cons.
    destruct (decide (k' = k)) as [->|Hk]; csimpl.
    + split; [by apply NoDup_cons|].
      intros x [->|Hx]%elem_of_cons; [by left|right; by right].
    + destruct (IH Hnd Hnotin) as [IHnd IHsub]. split.
      * apply NoDup_cons. split; [|done].
        intros Hin. destruct (IHsub _ Hin) as [->|?]; done.
      * intros x [->|Hx]%elem_of_cons; [right; left|].
        destruct (IHsub _ Hx) as [->|?]; [by left|right; by right].
Qed.

Section daily_store.
Context (store : list EnrichedTweet).

Lemma id_of_points_to r v : points_to store r v → id_of store r = id v.
Proof. unfold points_to, id_of. by intros ->. Qed.

Lemma created_of_points_to r v : points_to store r v → created_of store r = created v.
Proof. unfold points_to, created_of. by intros ->. Qed.

Lemma map_set_refs m mv r v :
  Forall2 (entry_points_to store) m mv → points_to store r v →
  Forall2 (entry_points_to store)
          (map_set (id_of store r) r m) (map_set (id v) v mv).
Proof.
  intros Hm Hr. rewrite (id_of_points_to _ _ Hr).
  induction Hm as [|[k r0] [k' v0] m mv [Hk H0] Hm IH]; simpl.
  - by repeat constructor.
  - simpl in Hk, H0. subst k'.
    destruct (decide (k = id v)); constructor; done.
Qed.

Lemma set_all_refs_values rs vs m mv :
  Forall2 (entry_points_to store) m mv → Forall2 (points_to store) rs vs →
  Forall2 (entry_points_to store) (set_all_refs store rs m) (set_all vs mv).
Proof.
  intros Hm Hrs. revert m mv Hm. unfold set_all_refs, set_all.
  induction Hrs as [|r v rs vs Hr Hrs IH]; intros m mv Hm; simpl; [done|].
  by apply IH, map_set_refs.
Qed.

Lemma values_point_to m mv :
  Forall2 (entry_points_to store) m mv →
  Forall2 (points_to store) (map_values m) (map_values mv).
Proof.
  unfold map_values.
  induction 1 as [|[k r] [k' v] m mv [_ Hr] _ IH]; csimpl; constructor; done.
Qed.

Lemma omap_points_to rs vs :
  Forall2 (points_to store) rs vs → omap (fun r => store !! r) rs = vs.
Proof.
  induction 1 as [|r v rs vs Hr _ IH]; csimpl; [done|].
  unfold points_to in Hr. rewrite Hr. simpl. by f_equal.
Qed.

Lemma set_all_refs_get rs1 r rs2 m :
  (∀ r', r' ∈ rs2 → id_of store r' ≠ id_of store r) →
  map_get (id_of store r) (set_all_refs store (rs1 ++ r :: rs2) m) = Some r.
Proof.
  intros Hlater. unfold set_all_refs. rewrite foldl_app. simpl.
  pose proof (map_get_set_eq (id_of store r) r
                (foldl (fun m r => map_set (id_of store r) r m) m rs1)) as Hget.
  revert Hget. generalize (map_set (id_of store r) r
    (foldl (fun m r => map_set (id_of store r) r m) m rs1)).
  induction rs2 as [|r' rs2 IH]; intros m2 Hget; simpl; [done|].
  apply IH.
  - intros r'' Hr''. apply Hlater. by right.
  - rewrite map_get_set_ne; [done|]. apply Hlater. left.
Qed.

Lemma set_all_refs_NoDup rs m :
  NoDup m.*2 → NoDup rs → (∀ r, r ∈ rs → r ∉ m.*2) →
  NoDup (set_all_refs store rs m).*2.
Proof.
  unfold set_all_refs. revert m.
  induction rs as [|r rs IH]; intros m Hm Hrs Hfresh; simpl; [done|].
  apply NoDup_cons in Hrs as [Hr Hrs].
  destruct (map_set_values (id_of store r) r m Hm) as [Hnd Hsub].
  { apply Hfresh. left. }
  apply IH; [done|done|].
  intros r' Hr' Hin. destruct (Hsub _ Hin) as [->|Hold]; [done|].
  by apply (Hfresh r'); [right|].
Qed.
End daily_store.

Lemma seq_points_to (pre l post : list EnrichedTweet) :
  Forall2 (points_to (pre ++ l ++ post)) (seq (length pre) (length l)) l.
Proof.
  revert pre. induction l as [|x l IH]; intros pre; simpl; [constructor|].
  constructor.
  - unfold points_to. by apply list_lookup_middle.
  - specialize (IH (pre ++ [x])). rewrite length_app in IH. simpl in IH.
    rewrite Nat.add_1_r, <- app_assoc in IH. exact IH.
Qed.

Lemma merged_refs_point_to (e c : list EnrichedTweet) :
  Forall2 (points_to (e ++ c))
    (js_sort (newest_first_of (e ++ c))
       (map_values
          (set_all_refs (e ++ c) (seq (length e) (length c))
             (set_all_refs (e ++ c) (seq 0 (length e)) []))))
    (merge_by_id e c).
Proof.
  unfold merge_by_id. apply js_sort_Forall2.
  - intros a a' b b' Ha Hb. unfold newest_first_of, newest_first.
    by rewrite (created_of_points_to _ _ _ Ha), (created_of_points_to _ _ _ Hb).
  - apply values_point_to, set_all_refs_values;
      [apply set_all_refs_values; [constructor|]|].
    + apply (seq_points_to [] e c).
    + pose proof (seq_points_to e c []) as H. by rewrite app_nil_r in H.
Qed.

(** The daily file is the merge of the file and the batch. *)
Lemma merge_daily_fst e c : (merge_daily e c).1 = mergeTweets e c.
Proof.
  unfold merge_daily, mergeTweets. simpl.
  by rewrite (omap_points_to _ _ _ (merged_refs_point_to e c)).
Qed.

Lemma write_back_frame store0 refs objs st :
  Forall2 same_frame store0 st →
  Forall2 (fun r v => ∃ v0, store0 !! r = Some v0 ∧ same_frame v0 v) refs objs →
  Forall2 same_frame store0 (write_back refs objs st).
Proof.
  intros Hst Hw. revert st Hst. unfold write_back.
  induction Hw as [|r v refs objs (v0 & H0 & Hf) _ IH]; intros st Hst; simpl;
    [done|].
  apply IH. rewrite <- (list_insert_id store0 r v0 H0). by apply Forall2_insert.
Qed.

Lemma write_back_other refs objs (st : list EnrichedTweet) r :
  r ∉ refs → write_back refs objs st !! r = st !! r.
Proof.
  unfold write_back. revert objs st.
  induction refs as [|r0 refs IH]; intros [|v0 objs] st; simpl; try done.
  intros [Hne Hnot]%not_elem_of_cons.
  rewrite IH by done. by apply list_lookup_insert_ne.
Qed.

Lemma write_back_lookup refs objs (st : list EnrichedTweet) i r v :
  NoDup refs → refs !! i = Some r → objs !! i = Some v → r < length st →
  write_back refs objs st !! r = Some v.
Proof.
  revert objs st i.
  induction refs as [|r0 refs IH]; intros [|v0 objs] st [|i]; simpl; try done.
  - intros [Hnot _]%NoDup_cons [= ->] [= ->] Hlt.
    change (write_back (r :: refs) (v :: objs) st)
      with (write_back refs objs (<[r:=v]> st)).
    rewrite write_back_other by done. by apply list_lookup_insert_eq.
  - intros [_ Hnd]%NoDup_cons Hr Hv Hlt.
    change (write_back (r0 :: refs) (v0 :: objs) st)
      with (write_back refs objs (<[r0:=v0]> st)).
    apply (IH _ _ i); rewrite ?length_insert; done.
Qed.

(** The objects of the batch are changed by the pass in [thread_position]
    at most. *)
Lemma merge_daily_frame e c : Forall2 same_frame c (merge_daily e c).2.
Proof.
  unfold merge_daily. simpl.
  rewrite (omap_points_to _ _ _ (merged_refs_point_to e c)).
  rewrite <- (drop_app_length e c) at 1. apply Forall2_drop.
  apply write_back_frame; [done|].
  eapply Forall2_trans;
    [|apply merged_refs_point_to|apply assignThreadPositions_frame].
  intros r v0 v Hr Hf. by exists v0.
Qed.

Lemma set_all_refs_keys_NoDup store rs (m : JsMap nat) :
  NoDup m.*1 → NoDup (set_all_refs store rs m).*1.
Proof.
  unfold set_all_refs. revert m.
  induction rs as [|r rs IH]; intros m Hm; simpl; [done|].
  by apply IH, map_set_NoDup.
Qed.

Lemma bookmark_map_refs (e c : list EnrichedTweet) :
  set_all_refs (e ++ c) (seq (length e) (length c))
    (set_all_refs (e ++ c) (seq 0 (length e)) [])
  = set_all_refs (e ++ c) (seq 0 (length e + length c)) [].
Proof. unfold set_all_refs. by rewrite seq_app, foldl_app. Qed.

(** An object of the batch that [bookmarkMap] holds, the last one with its
    id, is the object of the daily file. *)
Lemma merge_daily_shared e c j b :
  c !! j = Some b → id b ∉ id <$> drop (S j) c →
  ∃ v, (merge_daily e c).2 !! j = Some v ∧ v ∈ (merge_daily e c).1 ∧
       same_frame b v.
Proof.
  intros Hb Hlast.
  pose proof (merge_daily_frame e c) as Hframe.
  destruct (Forall2_lookup_l _ _ _ _ _ Hframe Hb) as (v & Hv & Hbv).
  exists v. split; [done|]. split; [|done].
  pose proof (merged_refs_point_to e c) as Hpoints.
  revert Hv. unfold merge_daily. simpl.
  rewrite (omap_points_to _ _ _ Hpoints).
  rewrite bookmark_map_refs in Hpoints |- *.
  set (store := e ++ c) in *.
  set (m := set_all_refs store (seq 0 (length e + length c)) []) in *.
  set (objs := assignThreadPositions (merge_by_id e c)).
  rewrite lookup_drop. intros Hv.
  pose proof (lookup_lt_Some _ _ _ Hb) as Hj.
  assert (points_to store (length e + j) b) as Hr.
  { unfold points_to, store. rewrite lookup_app_r by lia.
    by replace (length e + j - length e) with j by lia. }
  assert (map_get (id b) m = Some (length e + j)) as Hget.
  { rewrite <- (id_of_points_to store _ _ Hr). unfold m.
    replace (length e + length c)
      with ((length e + j) + S (length c - S j)) by lia.
    rewrite seq_app. simpl.
    apply set_all_refs_get. intros r' Hr'.
    apply list_elem_of_lookup in Hr' as [i Hi].
    apply lookup_seq in Hi as [-> Hi].
    destruct (lookup_lt_is_Some_2 (drop (S j) c) i) as [b' Hb'].
    { rewrite length_drop. lia. }
    assert (points_to store (S (length e + j) + i) b') as Hr'.
    { unfold points_to, store. rewrite lookup_app_r by lia.
      rewrite lookup_drop in Hb'. rewrite <- Hb'. f_equal. lia. }
    rewrite (id_of_points_to store _ _ Hr'), (id_of_points_to store _ _ Hr).
    intros Heq. apply Hlast. rewrite <- Heq.
    apply list_elem_of_fmap_2. by eapply list_elem_of_lookup_2. }
  assert (length e + j ∈ js_sort (newest_first_of store) (map_values m)) as Hin.
  { rewrite js_sort_elem_of. unfold map_values.
    apply (list_elem_of_fmap_2' snd _ (id b, length e + j)); [|done].
    apply map_get_elem_of; [|done].
    apply set_all_refs_keys_NoDup. constructor. }
  apply list_elem_of_lookup in Hin as [i Hi].
  destruct (Forall2_lookup_l _ _ _ _ _ Hpoints Hi) as (v0 & Hv0 & _).
  destruct (Forall2_lookup_l _ _ _ _ _
              (assignThreadPositions_frame (merge_by_id e c)) Hv0)
    as (v' & Hv' & _).
  fold objs in Hv'.
  rewrite (write_back_lookup _ _ _ i (length e + j) v') in Hv.
  - injection Hv as <-. by eapply list_elem_of_lookup_2.
  - apply js_sort_NoDup. unfold map_values.
    apply set_all_refs_NoDup; [constructor|apply NoDup_seq|].
    intros r _. apply not_elem_of_nil.
  - done.
  - done.
  - by eapply lookup_lt_Some.
Qed.

Lemma merge_by_id_holds_last existing fetched l1 x l2 :
  existing ++ fetched = l1 ++ x :: l2 → id x ∉ id <$> l2 →
  x ∈ merge_by_id existing fetched.
Proof.
  intros Hsplit Hlast.
  rewrite merge_by_id_put, js_sort_elem_of, Hsplit.
  rewrite foldl_app. simpl. apply foldl_put_keeps; [apply put_has|done].
Qed.

(** *** The run *)

Lemma classifyTweet_id tweet authorId tweetsMap usersMap :
  id (classifyTweet tweet authorId tweetsMap usersMap) = raw_id tweet.
Proof. unfold classifyTweet. by repeat case_match. Qed.

Lemma classify_bookmark_id tweetsMap usersMap raw :
  id (classify_bookmark tweetsMap usersMap raw) = raw_id raw.
Proof.
  unfold classify_bookmark. destruct (usersMap !! _); simpl; apply classifyTweet_id.
Qed.

Lemma classify_collected_ids st :
  id <$> classify_collected st = raw_id <$> newBookmarks st.
Proof.
  unfold classify_collected. destruct (buildIncludesMaps _) as [tweetsMap usersMap].
  rewrite <- list_fmap_compose. apply list_fmap_ext.
  intros i raw _. apply classify_bookmark_id.
Qed.

Lemma sync_known_on_top known json t rest later files :
  bf_last_id files = Some known → known ≠ "" →
  json_data json = Some (t :: rest) → raw_id t = known →
  syncBookmarksIncremental (Ok json :: later) files = (Ok files, later).
Proof.
  intros Hid Hne Hdata <-. unfold syncBookmarksIncremental. simpl.
  rewrite Hdata, Hid. simpl.
  rewrite bool_decide_eq_true_2 by done.
  by destruct (raw_id t).
Qed.

(** X19.  A run that finds the stored bookmark on top of the first page,
    or a first page without tweets, asks for one page and changes none of
    the files (but for the time stamp of the state file). *)
Theorem bookmarks_nothing_new
    (json : TimelineJson) (later : list (Outcome TimelineJson))
    (files : BookmarkFiles) :
  page_tweets json = [] ∨
  (∃ known t rest, bf_last_id files = Some known ∧ known ≠ "" ∧
                   json_data json = Some (t :: rest) ∧ raw_id t = known) →
  syncBookmarksIncremental (Ok json :: later) files = (Ok files, later).
Proof.
  intros [Hempty|(known & t & rest & Hid & Hne & Hdata & Ht)].
  - unfold syncBookmarksIncremental, page_tweets in *. simpl. by rewrite Hempty.
  - by eapply sync_known_on_top.
Qed.

Lemma bookmarks_nothing_new_witness :
  syncBookmarksIncremental [Ok sample_page_1; Ok sample_page_2]
    (mkFiles (Some "209") None None)
  = (Ok (mkFiles (Some "209") None None), [Ok sample_page_2]).
Proof.
  apply bookmarks_nothing_new. right.
  exists "209", (sample_raw "209"), [sample_raw "208"].
  split_and!; [reflexivity|discriminate|reflexivity|reflexivity].
Defined.

Lemma first_page_collected last_id json r rs more st later :
  json_data json = Some (r :: rs) →
  truthy last_id = false ∨ last_id ≠ Some (raw_id r) →
  fetch_bookmark_pages last_id (Ok json :: more) (mkLoop [] [] [] 0 false)
    = (Ok st, later) →
  ∃ others, newBookmarks st = r :: others.
Proof.
  intros Hdata Hnew. simpl. rewrite Hdata. simpl.
  assert (truthy last_id && bool_decide (Some (raw_id r) = last_id) = false) as ->.
  { destruct Hnew as [->|Hne]; [done|].
    rewrite bool_decide_eq_false_2 by (intros <-; done). apply andb_false_r. }
  destruct (scan_page_inv last_id rs [r]) as (taken & hit & -> & _).
  destruct hit; simpl.
  - intros [= <- <-]. by eexists.
  - destruct (truthy (json_next_token json)).
    + intros Hrun. apply fetch_bookmark_pages_inv in Hrun
        as (before & last & taken' & _ & _ & -> & _). simpl. by eexists.
    + intros [= <- <-]. by eexists.
Qed.

Lemma last_with_id (c : list EnrichedTweet) k :
  k ∈ id <$> c →
  ∃ j b, c !! j = Some b ∧ id b = k ∧ k ∉ id <$> drop (S j) c.
Proof.
  induction c as [|x c IH]; csimpl; [by intros ?%elem_of_nil|].
  intros Hin. destruct (decide (k ∈ id <$> c)) as [Hlater|Hlater].
  - destruct (IH Hlater) as (j & b & Hb & Hid & Hlast). by exists (S j), b.
  - apply elem_of_cons in Hin as [->|?]; [|done]. by exists 0, x.
Qed.

(** X20.  A run whose first page starts with a bookmark that is not the
    stored one, and whose calls all return: the stored id becomes the id of
    that bookmark, the newest; today's file and latest.json each hold an id
    once; every collected bookmark is found in both by its id, as one and the
    same object: the bookmark as classified, with the thread position that
    the pass over today's file has given it; and a next run that finds the
    newest bookmark on top of its first page changes nothing. *)
Theorem bookmarks_run_records_newest
    (json : TimelineJson) (r : RawTweet) (rs : list RawTweet)
    (more later : list (Outcome TimelineJson)) (files files' : BookmarkFiles) :
  json_data json = Some (r :: rs) →
  truthy (bf_last_id files) = false ∨ bf_last_id files ≠ Some (raw_id r) →
  syncBookmarksIncremental (Ok json :: more) files = (Ok files', later) →
  bf_last_id files' = Some (raw_id r) ∧
  (∃ st daily latest,
     fetch_bookmark_pages (bf_last_id files) (Ok json :: more) (mkLoop [] [] [] 0 false)
       = (Ok st, later) ∧
     bf_daily files' = Some daily ∧
     bf_latest files' = Some (mkLatest (Some latest) None) ∧
     NoDup (id <$> daily) ∧ NoDup (id <$> latest) ∧
     ∀ t, t ∈ newBookmarks st →
          ∃ b v, b ∈ classify_collected st ∧ id b = raw_id t ∧
                 same_frame b v ∧ v ∈ daily ∧ v ∈ latest) ∧
  (raw_id r ≠ "" →
   ∀ json2 r2 rs2 later2,
     json_data json2 = Some (r2 :: rs2) → raw_id r2 = raw_id r →
     syncBookmarksIncremental (Ok json2 :: later2) files' = (Ok files', later2)).
Proof.
  intros Hdata Hnew Hrun. unfold syncBookmarksIncremental in Hrun.
  destruct (fetch_bookmark_pages (bf_last_id files) (Ok json :: more)
              (mkLoop [] [] [] 0 false)) as [[st|e] later0] eqn:Hloop; [|done].
  destruct (first_page_collected _ _ _ _ _ _ _ Hdata Hnew Hloop) as [others Hst].
  rewrite Hst in Hrun.
  set (existingDaily := default [] (bf_daily files)) in *.
  pose proof (merge_daily_fst existingDaily (classify_collected st)) as Hdaily.
  pose proof (merge_daily_frame existingDaily (classify_collected st)) as Hframe.
  pose proof (merge_daily_shared existingDaily (classify_collected st)) as Hshared.
  destruct (merge_daily existingDaily (classify_collected st))
    as [daily classified] eqn:Hmerge.
  simpl in Hdaily, Hframe, Hshared. injection Hrun as <- <-.
  assert (id <$> head (classify_collected st) = Some (raw_id r)) as Hhead.
  { pose proof (classify_collected_ids st) as Hids. rewrite Hst in Hids.
    destruct (classify_collected st) as [|b bs]; [done|].
    simpl. by injection Hids as -> _. }
  split_and!.
  - done.
  - eexists st, _, _. split_and!; [done|reflexivity|reflexivity| | |].
    + rewrite Hdaily. apply mergeTweets_NoDup.
    + apply merge_by_id_NoDup.
    + intros t Ht. apply (list_elem_of_fmap_2 raw_id) in Ht.
      rewrite <- classify_collected_ids in Ht.
      apply last_with_id in Ht as (j & b & Hb & Hid & Hlast).
      destruct (Hshared j b Hb) as (v & Hv & Hin & Hbv); [by rewrite Hid|].
      exists b, v. split_and!; [by eapply list_elem_of_lookup_2|done|done|done|].
      eapply (merge_by_id_holds_last _ _ (_ ++ take j classified) v
                                     (drop (S j) classified)).
      * by rewrite <- app_assoc, (take_drop_middle _ _ _ Hv).
      * rewrite <- (ids_frame _ _ (Forall2_drop _ _ _ (S j) Hframe)).
        by rewrite <- (same_frame_id _ _ Hbv), Hid.
  - intros Hne json2 r2 rs2 later2 Hdata2 Hr2.
    by eapply sync_known_on_top.
Qed.

Lemma bookmarks_run_records_newest_witness :
  ∃ files' latest,
    syncBookmarksIncremental [Ok sample_thread_page; Ok sample_page_3]
      sample_files = (Ok files', [Ok sample_page_3]) ∧
    bf_last_id files' = Some "212" ∧
    bf_latest files' = Some (mkLatest (Some latest) None) ∧
    (fun b => (id b, thread_position b)) <$> latest
      = [("212", Some 2); ("211", Some 1)] ∧
    syncBookmarksIncremental [Ok sample_thread_page] files' = (Ok files', []).
Proof.
  destruct (syncBookmarksIncremental [Ok sample_thread_page; Ok sample_page_3]
              sample_files)
    as [[files'|e] later] eqn:Hrun; [|by vm_compute in Hrun].
  assert (later = [Ok sample_page_3]) as ->.
  { vm_compute in Hrun. injection Hrun as _ <-. reflexivity. }
  destruct (bookmarks_run_records_newest sample_thread_page
              (mkRaw "212" [] (Some "2026-01-03T00:00:00.000Z") (Some "7") (Some "7")
                     None None (Some [mkRef "replied_to" "211"]) None (Some "211") None)
              [mkRaw "211" [] (Some "2026-01-02T00:00:00.000Z") (Some "7") None
                     None None None None (Some "211") None]
              _ _ sample_files files' eq_refl (or_introl eq_refl) Hrun)
    as (Hid & (st & daily & latest & _ & _ & Hlatest & _) & Hnext).
  exists files', latest. split; [reflexivity|]. split; [exact Hid|].
  split; [exact Hlatest|]. split.
  - vm_compute in Hrun. injection Hrun as <-.
    simpl in Hlatest. injection Hlatest as <-. reflexivity.
  - eapply (Hnext ltac:(discriminate)); reflexivity.
Defined.

(** ** api.ts: [apiPost] *)

(** X21.  A POST is sent at most twice, and never waits: a 429 answer is
    the error of the call, not a reason to sleep and ask again as in
    [apiGet]; the second request is sent only after a 401 and a successful
    refresh, with the new access token; and at most two answers of the API
    are used. *)
Theorem apiPost_bounded
    (path payload : string) (replies : list HttpResponse) (w : World) :
  let got := apiPost path payload replies w in
  sleeps got.2 = sleeps w ∧
  (∃ sent, api_log got.2 = api_log w ++ sent ∧ length sent ≤ 2 ∧
           Forall (fun r => req_method r = POST ∧ req_path r = path ∧
                            req_body r = Some payload) sent) ∧
  (∃ used, replies = used ++ got.1.2 ∧ length used ≤ 2) ∧
  (∀ r rest, replies = r :: rest → status r = 429%Z →
     ensureValidToken (config_file w) w = (Ok (config_file w), w) →
     got = (Err (ApiError 429 (body r)), rest,
            send (mkRequest POST path [] (Some payload)
                            (access_token (config_file w))) w)).
Proof.
  cbv zeta. unfold apiPost.
  destruct (ensureValidToken (config_file w) w) as [[config|e] w1] eqn:Hguard.
  - pose proof (ensureValidToken_logs _ _ _ _ Hguard) as (_ & Hlog1 & Hsl1).
    destruct replies as [|resp rest]; simpl.
    + rewrite Hsl1, Hlog1. split_and!; [done| |exists []; split; [done|simpl; lia]|done].
      eexists [_]. split_and!; [done|simpl; lia|]. by repeat constructor.
    + destruct (status resp =? 401)%Z eqn:H401.
      * destruct (refreshToken config _) as [[config'|e] w3] eqn:Hrefresh.
        -- pose proof (refreshToken_logs _ _ _ _ Hrefresh) as (_ & Hlog3 & Hsl3 & _).
           assert (∀ r rest0, resp :: rest = r :: rest0 → status r = 429%Z → False)
             as Hnot429.
           { intros r rest0 [= <- <-] H429. rewrite H429 in H401. done. }
           destruct rest as [|retryResp rest']; simpl;
             rewrite Hsl3, Hlog3; simpl; rewrite Hsl1, Hlog1, <- app_assoc; simpl.
           ++ split_and!; [done| |exists [resp]; split; [done|simpl; lia]|intros; exfalso; eauto].
              eexists [_; _]. split_and!; [done|simpl; lia|].
              by repeat constructor.
           ++ split_and!; [done| |exists [resp; retryResp]; split; [done|simpl; lia]
                          |intros; exfalso; eauto].
              eexists [_; _]. split_and!; [done|simpl; lia|].
              by repeat constructor.
        -- pose proof (refreshToken_logs _ _ _ _ Hrefresh) as (_ & Hlog3 & Hsl3 & _).
           simpl. rewrite Hsl3, Hlog3. simpl. rewrite Hsl1, Hlog1.
           split_and!; [done| |exists [resp]; split; [done|simpl; lia]|].
           ++ eexists [_]. split_and!; [done|simpl; lia|]. by repeat constructor.
           ++ intros r rest0 [= <- <-] H429. rewrite H429 in H401. done.
      * simpl. rewrite Hsl1, Hlog1.
        split_and!; [done| |exists [resp]; split; [done|simpl; lia]|].
        -- eexists [_]. split_and!; [done|simpl; lia|]. by repeat constructor.
        -- intros r rest0 [= <- <-] H429 Heq.
           assert (config = config_file w ∧ w1 = w) as [-> ->]
             by (split; congruence).
           unfold settle, ok. rewrite H429. done.
  - pose proof (ensureValidToken_logs _ _ _ _ Hguard) as (_ & Hlog1 & Hsl1).
    simpl. rewrite Hsl1, Hlog1.
    split_and!; [done| |exists []; split; [done|simpl; lia]|].
    + exists []. rewrite app_nil_r. split_and!; [done|simpl; lia|constructor].
    + intros r rest -> _ Heq. congruence.
Qed.

(** ** The own timeline: archive and cursor *)

Section keyed_maps.
Context {V : Type} (key : V → string).

Lemma map_set_keys_present k (v : V) m :
  k ∈ m.*1 → (map_set k v m).*1 = m.*1.
Proof.
  induction m as [|[k' v'] m IH]; csimpl.
  - by intros ?%elem_of_nil.
  - intros Hin. destruct (decide (k' = k)) as [->|Hne]; csimpl; [done|].
    f_equal. apply IH. by apply elem_of_cons in Hin as [?|?].
Qed.

Lemma map_set_keys_absent k (v : V) m :
  k ∉ m.*1 → (map_set k v m).*1 = m.*1 ++ [k].
Proof.
  induction m as [|[k' v'] m IH]; csimpl; [done|].
  intros [Hne Hin]%not_elem_of_cons.
  rewrite decide_False by done. csimpl. f_equal. by apply IH.
Qed.

Lemma map_set_keys k (v : V) m :
  (map_set k v m).*1 = if decide (k ∈ m.*1) then m.*1 else m.*1 ++ [k].
Proof.
  destruct (decide (k ∈ m.*1)).
  - by apply map_set_keys_present.
  - by apply map_set_keys_absent.
Qed.

Lemma map_set_entries k (v : V) m e :
  e ∈ map_set k v m → e = (k, v) ∨ e ∈ m.
Proof.
  induction m as [|[k' v'] m IH]; simpl.
  - intros ?%list_elem_of_singleton. by left.
  - destruct (decide (k' = k)) as [->|Hne].
    + intros [->|?]%elem_of_cons; [by left|right; by right].
    + intros [->|Hin]%elem_of_cons; [right; left|].
      destruct (IH Hin) as [?|?]; [by left|right; by right].
Qed.

Lemma set_all_by_key (items : list V) (m : JsMap V) :
  let m' := foldl (fun m t => map_set (key t) t m) m items in
  (NoDup m.*1 → NoDup m'.*1) ∧
  (∀ k, k ∈ m'.*1 ↔ k ∈ m.*1 ∨ k ∈ key <$> items) ∧
  ((∀ e, e ∈ m → key e.2 = e.1) → ∀ e, e ∈ m' → key e.2 = e.1).
Proof.
  revert m. induction items as [|t items IH]; intros m; csimpl.
  - split_and!; [done| |done]. intros k. rewrite elem_of_nil. tauto.
  - destruct (IH (map_set (key t) t m)) as (Hnd & Hkeys & Hkeyed).
    split_and!.
    + intros Hm. apply Hnd. rewrite map_set_keys.
      destruct (decide (key t ∈ m.*1)); [done|].
      apply NoDup_app. split_and!; [done| |apply NoDup_singleton].
      intros k Hk ->%list_elem_of_singleton. done.
    + intros k. rewrite Hkeys, map_set_keys, elem_of_cons.
      destruct (decide (key t ∈ m.*1)) as [Hin|Hin].
      * split; [tauto|]. intros [?|[->|?]]; tauto.
      * rewrite elem_of_app, list_elem_of_singleton. tauto.
    + intros Hm. apply Hkeyed. intros e [->|He]%map_set_entries; [done|].
      by apply Hm.
Qed.

Lemma keys_of_values (m : JsMap V) :
  (∀ e, e ∈ m → key e.2 = e.1) → key <$> map_values m = m.*1.
Proof.
  unfold map_values. induction m as [|[k v] m IH]; intros Hm; csimpl; [done|].
  pose proof (Hm (k, v) ltac:(left)) as Hk. simpl in Hk. rewrite Hk. f_equal.
  apply IH. intros e He. apply Hm. by right.
Qed.
End keyed_maps.

Lemma mergeIntoAll_ids existing newTweets :
  NoDup (my_id <$> mergeIntoAll existing newTweets) ∧
  ∀ k, k ∈ my_id <$> mergeIntoAll existing newTweets
       ↔ k ∈ my_id <$> (default [] existing ++ newTweets).
Proof.
  unfold mergeIntoAll. cbv zeta.
  pose proof (set_all_by_key my_id (default [] existing) []) as H1.
  cbv zeta in H1.
  set (m1 := foldl (fun m t => map_set (my_id t) t m) [] (default [] existing)) in *.
  destruct H1 as (Hnd1 & Hk1 & He1).
  pose proof (set_all_by_key my_id newTweets m1) as H2.
  cbv zeta in H2.
  set (m2 := foldl (fun m t => map_set (my_id t) t m) m1 newTweets) in *.
  destruct H2 as (Hnd2 & Hk2 & He2).
  assert (∀ e, e ∈ m2 → my_id e.2 = e.1) as Hkeyed.
  { apply He2, He1. intros e He. by apply elem_of_nil in He. }
  split.
  - rewrite js_sort_perm, (keys_of_values my_id m2 Hkeyed).
    apply Hnd2, Hnd1. constructor.
  - intros k. rewrite js_sort_perm, (keys_of_values my_id m2 Hkeyed).
    rewrite fmap_app, elem_of_app.
    pose proof (Hk2 k) as Hk2'. pose proof (Hk1 k) as Hk1'.
    assert (k ∉ ([] : JsMap MyTweet).*1) as Hnil by apply not_elem_of_nil.
    tauto.
Qed.

Lemma loadSinceId_largest (BigInt : string → option Z) (ids : list string) :
  ids ≠ [] → Forall (fun t => is_Some (BigInt t)) ids →
  ∃ m vm, loadSinceId BigInt (Some ids) = Some m ∧ m ∈ ids ∧
    BigInt m = Some vm ∧
    ∀ t vt, t ∈ ids → BigInt t = Some vt → (vt ≤ vm)%Z.
Proof.
  intros Hne Hall. destruct ids as [|first rest]; [done|].
  pose proof Hall as Hall'. apply Forall_cons in Hall' as [[vf Hf] _].
  destruct (foldl_larger_id BigInt (first :: rest) first vf Hf Hall)
    as (m & vm & Hrun & Hm & Hin & _ & Hmax).
  exists m, vm. split_and!; try done.
  destruct Hin as [->|Hin]; [left|done].
Qed.

(** X22.  The archive of the own timeline holds each id once, and the
    cursor read from it after a merge is the id of largest value among the
    archive before the merge and the batch: whatever the order of their
    [created_at], no tweet of the batch is ahead of the cursor of the next
    run, and the cursor does not move back. *)
Theorem own_cursor_after_merge
    (BigInt : string → option Z)
    (existing : option (list MyTweet)) (newTweets : list MyTweet) :
  let before := default [] existing ++ newTweets in
  let merged := mergeIntoAll existing newTweets in
  before ≠ [] →
  Forall (fun t => is_Some (BigInt (my_id t))) before →
  NoDup (my_id <$> merged) ∧
  ∃ m vm,
    loadSinceId BigInt (Some (my_id <$> merged)) = Some m ∧
    BigInt m = Some vm ∧
    m ∈ my_id <$> before ∧
    ∀ t vt, t ∈ before → BigInt (my_id t) = Some vt → (vt ≤ vm)%Z.
Proof.
  intros before merged Hne Hall.
  destruct (mergeIntoAll_ids existing newTweets) as [Hnd Hids].
  fold merged in Hnd, Hids. fold before in Hids.
  split; [done|].
  destruct (loadSinceId_largest BigInt (my_id <$> merged))
    as (m & vm & Hrun & Hin & Hm & Hmax).
  - destruct before as [|t ts] eqn:E; [done|].
    assert (my_id t ∈ my_id <$> merged) as Hin by (apply Hids; left).
    intros Hnil. rewrite Hnil in Hin. by apply elem_of_nil in Hin.
  - apply Forall_forall. intros k Hk%Hids.
    apply list_elem_of_fmap in Hk as (t & -> & Ht).
    by eapply Forall_forall in Hall.
  - exists m, vm. split_and!; [done|done|by apply Hids|].
    intros t vt Ht Hvt. apply (Hmax (my_id t)); [|done].
    apply Hids. by apply list_elem_of_fmap_2.
Qed.

Lemma own_cursor_after_merge_witness :
  ∃ m, loadSinceId sample_BigInt
         (Some (my_id <$> mergeIntoAll
                  (Some [sample_my_tweet "100" "2026-01-05T10:00:00.000Z"])
                  [sample_my_tweet "101" "2026-01-05T10:00:00.000Z"])) = Some m ∧
       sample_BigInt m = Some 101%Z.
Proof.
  destruct (own_cursor_after_merge sample_BigInt
              (Some [sample_my_tweet "100" "2026-01-05T10:00:00.000Z"])
              [sample_my_tweet "101" "2026-01-05T10:00:00.000Z"])
    as (_ & m & vm & Hrun & Hm & Hin & Hmax).
  - discriminate.
  - repeat constructor; by eexists.
  - exists m. split; [exact Hrun|]. rewrite Hm. f_equal.
    assert (101 ≤ vm)%Z as Hbig.
    { apply (Hmax (sample_my_tweet "101" "2026-01-05T10:00:00.000Z"));
        [right; left|reflexivity]. }
    simpl in Hin.
    repeat (apply elem_of_cons in Hin as [->|Hin];
            [vm_compute in Hm; injection Hm as <-; first [reflexivity|lia]|]).
    by apply elem_of_nil in Hin.
Defined.


(** ** Followed accounts: one failing call among calls that return *)

Lemma mergeTweets_ids existing fetched k :
  k ∈ id <$> mergeTweets existing fetched
  ↔ k ∈ id <$> existing ∨ k ∈ id <$> fetched.
Proof.
  unfold mergeTweets.
  rewrite <- (ids_frame _ _ (assignThreadPositions_frame _)).
  rewrite merge_by_id_put, js_sort_perm, foldl_put_ids, fmap_app, elem_of_app.
  rewrite elem_of_nil. tauto.
Qed.

Lemma mergeTweets_holds_last existing fetched l1 x l2 :
  existing ++ fetched = l1 ++ x :: l2 → id x ∉ id <$> l2 →
  ∃ v, v ∈ mergeTweets existing fetched ∧ same_frame x v.
Proof.
  intros Hsplit Hlast.
  pose proof (merge_by_id_holds_last _ _ _ _ _ Hsplit Hlast) as Hx.
  apply list_elem_of_lookup in Hx as [i Hi].
  destruct (Forall2_lookup_l _ _ _ _ _
              (assignThreadPositions_frame (merge_by_id existing fetched)) Hi)
    as (v & Hv & Hxv).
  exists v. split; [|done]. by eapply list_elem_of_lookup_2.
Qed.

Lemma classify_page_maps authorId json :
  classify_page authorId json
  = (fun t => classifyTweet t authorId
                (buildIncludesMaps (json_includes json)).1
                (buildIncludesMaps (json_includes json)).2)
    <$> default [] (json_data json).
Proof. unfold classify_page. by destruct (buildIncludesMaps _). Qed.

Section isolation.
Context (api : string → list (string * string) → Outcome TimelineJson).
Context (maxResults : string).

(** X23.  A run over accounts with distinct ids in which the call for one
    account throws and every other call returns: the loop goes through all
    accounts; one error is counted, and the line printed names the failing
    account, whose entry and cursor are left as they were; every other
    account has an entry written whose tweets hold each id of its earlier
    entry and of the answer exactly once, and hold, of the tweets of the
    earlier entry followed by the tweets of the answer as [classifyTweet]
    returns them, the last one with each id, changed in [thread_position]
    at most. *)
Theorem one_failing_call_isolated
    (users : list FollowedUser) (b : FollowedUser) (e : Error) (s0 : SyncState) :
  NoDup (fu_id <$> users) →
  b ∈ users →
  fetch_of api maxResults s0 b = Err e →
  (∀ u, u ∈ users → u ≠ b → ∃ json, fetch_of api maxResults s0 u = Ok json) →
  let s := fetchFollowingTweets api maxResults users s0 in
  errors s = errors s0 + 1 ∧
  error_log s = error_log s0 ++ [(fu_username b, e)] ∧
  sinceIds s !! fu_id b = sinceIds s0 !! fu_id b ∧
  existingData s !! fu_id b = existingData s0 !! fu_id b ∧
  ∀ u json, u ∈ users → fetch_of api maxResults s0 u = Ok json →
    let existing := from_option ut_tweets [] (existingData s0 !! fu_id u) in
    let maps := buildIncludesMaps (json_includes json) in
    let classified :=
      (fun t => classifyTweet t (fu_id u) maps.1 maps.2)
      <$> default [] (json_data json) in
    ∃ merged,
      ut_tweets <$> existingData s !! fu_id u = Some merged ∧
      NoDup (id <$> merged) ∧
      (∀ k, k ∈ id <$> merged
            ↔ k ∈ id <$> existing ∨ k ∈ raw_id <$> default [] (json_data json)) ∧
      (∀ l1 x l2, existing ++ classified = l1 ++ x :: l2 → id x ∉ id <$> l2 →
                  ∃ v, v ∈ merged ∧ same_frame x v).
Proof.
  intros Hnd Hb Hfail Hothers s.
  destruct (loop_result api maxResults users s0 Hnd) as (Herr & Hlog & Hown).
  fold s in Herr, Hlog, Hown.
  assert (omap (error_line api maxResults s0) users = [(fu_username b, e)]) as Hlines.
  { apply (omap_single _ _ b).
    - by eapply NoDup_fmap_1.
    - done.
    - unfold error_line. by rewrite Hfail.
    - intros u Hu Hne. destruct (Hothers u Hu Hne) as [json Hjson].
      unfold error_line. by rewrite Hjson. }
  rewrite Hlines in Herr, Hlog.
  destruct (sync_user_failed api maxResults s0 b e Hfail) as (Hsb & Heb & _).
  split_and!; [done|done| | |].
  - destruct (Hown b Hb) as [-> _]. by rewrite Hsb.
  - destruct (Hown b Hb) as [_ ->]. by rewrite Heb.
  - intros u json Hu Hjson existing maps classified.
    destruct (Hown u Hu) as [_ ->].
    destruct (sync_user_fetched api maxResults s0 u json Hjson) as (Hm & _).
    rewrite classify_page_maps in Hm. fold existing maps classified in Hm.
    exists (mergeTweets existing classified).
    split_and!; [done|apply mergeTweets_NoDup| |].
    + intros k. rewrite mergeTweets_ids. unfold classified.
      rewrite <- list_fmap_compose.
      assert (id ∘ (fun t => classifyTweet t (fu_id u) maps.1 maps.2) <$>
                default [] (json_data json)
              = raw_id <$> default [] (json_data json)) as ->; [|done].
      apply list_fmap_ext. intros i t _. apply classifyTweet_id.
    + intros l1 x l2. apply mergeTweets_holds_last.
Qed.
End isolation.

Lemma one_failing_call_isolated_witness :
  let s := fetchFollowingTweets sample_api "10"
             [sample_user; sample_user_b; sample_user_c] tie_state in
  errors s = 1 ∧
  error_log s = [("bob", ApiError 404 "Not Found")] ∧
  sinceIds s !! "43" = None ∧
  ∃ merged : list EnrichedTweet,
    ut_tweets <$> existingData s !! "42" = Some merged ∧
    ∀ k, k ∈ id <$> merged ↔ k ∈ ["100"] ∨ k ∈ ["101"].
Proof.
  intros s.
  destruct (one_failing_call_isolated sample_api "10"
              [sample_user; sample_user_b; sample_user_c] sample_user_b
              (ApiError 404 "Not Found") tie_state)
    as (Herr & Hlog & Hsince & _ & Hothers).
  - apply (bool_decide_unpack _). vm_compute. exact I.
  - right. left.
  - reflexivity.
  - intros u Hu Hne.
    apply elem_of_cons in Hu as [->|Hu]; [eexists; reflexivity|].
    apply elem_of_cons in Hu as [->|Hu]; [done|].
    apply elem_of_cons in Hu as [->|Hu]; [eexists; reflexivity|].
    by apply elem_of_nil in Hu.
  - destruct (Hothers sample_user (mkJson (Some [tie_fetched]) None None))
      as (merged & Hm & _ & Hids & _); [left|reflexivity|].
    fold s in Herr, Hlog, Hsince, Hm.
    split; [exact Herr|]. split; [exact Hlog|]. split; [exact Hsince|].
    exists merged. split; [exact Hm|exact Hids].
Defined.
